(** * LX_IMG_Confusion: the Gilbert-curve pixel permutation and the
      block-smooth transform of [script.js], embedded and verified.

    Integers of the script (coordinates, sizes, indices, the block size
    read by [parseInt]) are modelled as [Z]; JavaScript numbers that carry
    fractions (the confusion strength, the smooth factor) as the binary64
    floats of [PrimFloat]; arrays as lists; a call that throws, exhausts
    the call stack or has not ended within its fuel as [None]. *)

From Stdlib Require Import ZArith List Lia Bool Floats.
From stdpp Require Import base option list.
Import ListNotations.

Local Open Scope Z_scope.

(** ** The curve generator ([gilbert2d], [generate2d]) *)

Module Gilbert.

(** A cell [[x, y]] of the grid. *)
Definition cell : Type := (Z * Z)%type.

(** [for (let i = 0; i < n; i++) { coordinates.push([x, y]); x += dx; y += dy; }] *)
Fixpoint fill (n : nat) (x y dx dy : Z) (coordinates : list cell) : list cell :=
  match n with
  | O => coordinates
  | S n' => fill n' (x + dx) (y + dy) dx dy (coordinates ++ [(x, y)])
  end.

(** The test [(w2 % 2) && (w > 2)] of the "prefer even steps" branches. *)
Definition odd_and_gt2 (w2 w : Z) : bool :=
  negb (Z.rem w2 2 =? 0) && (w >? 2).

(** [generate2d(x, y, ax, ay, bx, by, coordinates)].  The array
    [coordinates] is threaded through the calls; [fuel] bounds the depth of
    the call stack, and [None] is its exhaustion. *)
Fixpoint generate2d (fuel : nat) (x y ax ay bx by' : Z)
    (coordinates : list cell) : option (list cell) :=
  match fuel with
  | O => None
  | S fuel' =>
    let w := Z.abs (ax + ay) in
    let h := Z.abs (bx + by') in
    let dax := Z.sgn ax in
    let day := Z.sgn ay in
    let dbx := Z.sgn bx in
    let dby := Z.sgn by' in
    if h =? 1 then Some (fill (Z.to_nat w) x y dax day coordinates)
    else if w =? 1 then Some (fill (Z.to_nat h) x y dbx dby coordinates)
    else
      let ax2 := ax / 2 in
      let ay2 := ay / 2 in
      let bx2 := bx / 2 in
      let by2 := by' / 2 in
      let w2 := Z.abs (ax2 + ay2) in
      let h2 := Z.abs (bx2 + by2) in
      if 2 * w >? 3 * h then
        let ax2 := if odd_and_gt2 w2 w then ax2 + dax else ax2 in
        let ay2 := if odd_and_gt2 w2 w then ay2 + day else ay2 in
        coordinates ← generate2d fuel' x y ax2 ay2 bx by' coordinates;
        generate2d fuel' (x + ax2) (y + ay2) (ax - ax2) (ay - ay2) bx by'
          coordinates
      else
        let bx2 := if odd_and_gt2 h2 h then bx2 + dbx else bx2 in
        let by2 := if odd_and_gt2 h2 h then by2 + dby else by2 in
        coordinates ← generate2d fuel' x y bx2 by2 ax2 ay2 coordinates;
        coordinates ← generate2d fuel' (x + bx2) (y + by2) ax ay
                        (bx - bx2) (by' - by2) coordinates;
        generate2d fuel' (x + (ax - dax) + (bx2 - dbx))
          (y + (ay - day) + (by2 - dby))
          (- bx2) (- by2) (- (ax - ax2)) (- (ay - ay2)) coordinates
  end.

(** [gilbert2d(width, height)]. *)
Definition gilbert2d (fuel : nat) (width height : Z) : option (list cell) :=
  if width >=? height
  then generate2d fuel 0 0 width 0 0 height []
  else generate2d fuel 0 0 0 height width 0 [].

(** *** The recursion of [generate2d], call by call *)

(** The arguments [(x, y, ax, ay, bx, by)] of one call. *)
Record call : Type := Call { cx : Z; cy : Z; cax : Z; cay : Z; cbx : Z; cby : Z }.

(** [w] and [h] as the body of [generate2d] computes them. *)
Definition cw (c : call) : Z := Z.abs (cax c + cay c).
Definition ch (c : call) : Z := Z.abs (cbx c + cby c).

(** The recursive calls that the body of [generate2d] issues, in order,
    when neither base case applies. *)
Definition subcalls (c : call) : list call :=
  let '(Call x y ax ay bx by') := c in
  let w := Z.abs (ax + ay) in
  let h := Z.abs (bx + by') in
  let dax := Z.sgn ax in
  let day := Z.sgn ay in
  let dbx := Z.sgn bx in
  let dby := Z.sgn by' in
  let ax2 := ax / 2 in
  let ay2 := ay / 2 in
  let bx2 := bx / 2 in
  let by2 := by' / 2 in
  let w2 := Z.abs (ax2 + ay2) in
  let h2 := Z.abs (bx2 + by2) in
  if 2 * w >? 3 * h then
    let ax2 := if odd_and_gt2 w2 w then ax2 + dax else ax2 in
    let ay2 := if odd_and_gt2 w2 w then ay2 + day else ay2 in
    [ Call x y ax2 ay2 bx by';
      Call (x + ax2) (y + ay2) (ax - ax2) (ay - ay2) bx by' ]
  else
    let bx2 := if odd_and_gt2 h2 h then bx2 + dbx else bx2 in
    let by2 := if odd_and_gt2 h2 h then by2 + dby else by2 in
    [ Call x y bx2 by2 ax2 ay2;
      Call (x + bx2) (y + by2) ax ay (bx - bx2) (by' - by2);
      Call (x + (ax - dax) + (bx2 - dbx)) (y + (ay - day) + (by2 - dby))
           (- bx2) (- by2) (- (ax - ax2)) (- (ay - ay2)) ].

(** [generate2d] applied to a [call]. *)
Definition run (fuel : nat) (c : call) (coordinates : list cell)
    : option (list cell) :=
  generate2d fuel (cx c) (cy c) (cax c) (cay c) (cbx c) (cby c) coordinates.

(** Running a sequence of calls on the shared array. *)
Fixpoint run_all (fuel : nat) (cs : list call) (coordinates : list cell)
    : option (list cell) :=
  match cs with
  | [] => Some coordinates
  | c :: cs' => coordinates ← run fuel c coordinates; run_all fuel cs' coordinates
  end.

(** The cells pushed by the two base cases. *)
Definition row (c : call) : list cell :=
  fill (Z.to_nat (cw c)) (cx c) (cy c) (Z.sgn (cax c)) (Z.sgn (cay c)) [].
Definition col (c : call) : list cell :=
  fill (Z.to_nat (ch c)) (cx c) (cy c) (Z.sgn (cbx c)) (Z.sgn (cby c)) [].

(** The first call issued by [gilbert2d]. *)
Definition top_call (width height : Z) : call :=
  if width >=? height then Call 0 0 width 0 0 height
  else Call 0 0 0 height width 0.

(** *** Geometry *)

(** The two vectors are axis-parallel, orthogonal and non-zero. *)
Definition aligned (c : call) : Prop :=
  (cay c = 0 /\ cbx c = 0 /\ cax c <> 0 /\ cby c <> 0) \/
  (cax c = 0 /\ cby c = 0 /\ cay c <> 0 /\ cbx c <> 0).

(** The rectangle spanned from [(x, y)] by the two vectors: its far corner
    is [(x, y) + (a - da) + (b - db)]. *)
Definition far_x (c : call) : Z :=
  cx c + (cax c - Z.sgn (cax c)) + (cbx c - Z.sgn (cbx c)).
Definition far_y (c : call) : Z :=
  cy c + (cay c - Z.sgn (cay c)) + (cby c - Z.sgn (cby c)).
Definition in_rect (c : call) (p : cell) : Prop :=
  Z.min (cx c) (far_x c) <= fst p <= Z.max (cx c) (far_x c) /\
  Z.min (cy c) (far_y c) <= snd p <= Z.max (cy c) (far_y c).

(** The grid [[0,width) x [0,height)]. *)
Definition in_grid (width height : Z) (p : cell) : Prop :=
  0 <= fst p < width /\ 0 <= snd p < height.

Definition manhattan (p q : cell) : Z :=
  Z.abs (fst p - fst q) + Z.abs (snd p - snd q).

(** Every two consecutive cells are grid neighbours. *)
Fixpoint unit_steps (l : list cell) : Prop :=
  match l with
  | p :: ((q :: _) as l') => manhattan p q = 1 /\ unit_steps l'
  | _ => True
  end.

(** What a call is meant to produce: the cells of its rectangle, once each. *)
Definition covers (c : call) (l : list cell) : Prop :=
  Z.of_nat (length l) = cw c * ch c /\ NoDup l /\
  forall p, p ∈ l <-> in_rect c p.

(** Where the walk of a call starts and where it is meant to end. *)
Definition start (c : call) : cell := (cx c, cy c).
Definition finish (c : call) : cell :=
  (cx c + (cax c - Z.sgn (cax c)), cy c + (cay c - Z.sgn (cay c))).

(** A walk by unit steps from [(x, y)] to the far end of the major axis. *)
Definition walks (c : call) (l : list cell) : Prop :=
  head l = Some (start c) /\ last l = Some (finish c) /\ unit_steps l.

(** The calls on which the walk has no diagonal step: both vectors point
    the same way, and either they point forward with [w] even or [h] odd,
    or they point backward with [w] even (or the call is a single cell). *)
Definition same_way (c : call) : Prop :=
  let a := cax c + cay c in
  let b := cbx c + cby c in
  (0 < a /\ 0 < b /\ (a mod 2 = 0 \/ b mod 2 = 1) /\ (a = 1 -> b = 1)) \/
  (a < 0 /\ b < 0 /\ (a mod 2 = 0 \/ (a = -1 /\ b = -1))).

(** The class of calls whose walk has no diagonal step. *)
Definition sound (c : call) : Prop := aligned c /\ same_way c.

(** The largest of the two coordinate differences. *)
Definition chebyshev (p q : cell) : Z :=
  Z.max (Z.abs (fst p - fst q)) (Z.abs (snd p - snd q)).

(** Every two consecutive cells touch, by a side or by a corner. *)
Fixpoint king_steps (l : list cell) : Prop :=
  match l with
  | p :: ((q :: _) as l') => chebyshev p q = 1 /\ king_steps l'
  | _ => True
  end.

(** [l] leads from [s] to [f]. *)
Definition route (l : list cell) (s f : cell) : Prop :=
  head l = Some s /\ last l = Some f.

(** The calls with forward vectors, an odd [w >= 3] and an even [h >= 4]:
    their walk reaches the far end with one diagonal step. *)
Definition diag_call (c : call) : Prop :=
  aligned c /\
  let a := cax c + cay c in
  let b := cbx c + cby c in
  3 <= a /\ a mod 2 = 1 /\ 4 <= b /\ b mod 2 = 0.

(** The calls with forward vectors, an odd [w >= 3] and [h = 2]: their walk
    stops one cell before the far end. *)
Definition short_call (c : call) : Prop :=
  aligned c /\ 3 <= cax c + cay c /\ (cax c + cay c) mod 2 = 1 /\
  cbx c + cby c = 2.

(** The backward 1 x 2 calls: a column of two cells. *)
Definition stub_call (c : call) : Prop :=
  aligned c /\ cax c + cay c = -1 /\ cbx c + cby c = -2.

(** Where the walks of the last two kinds end. *)
Definition goal_short (c : call) : cell :=
  (cx c + (cax c - 2 * Z.sgn (cax c)), cy c + (cay c - 2 * Z.sgn (cay c))).
Definition goal_stub (c : call) : cell :=
  (cx c + Z.sgn (cbx c), cy c + Z.sgn (cby c)).

(** The calls that [gilbert2d] makes on a grid with both sides >= 1. *)
Definition known (c : call) : Prop :=
  sound c \/ diag_call c \/ short_call c \/ stub_call c.

(** What each kind of call produces. *)
Definition fares (c : call) (l : list cell) : Prop :=
  (sound c -> route l (start c) (finish c) /\ unit_steps l) /\
  (diag_call c -> route l (start c) (finish c) /\ king_steps l) /\
  (short_call c -> route l (start c) (goal_short c) /\ unit_steps l) /\
  (stub_call c -> route l (start c) (goal_stub c) /\ unit_steps l).

(** [fares], and a call of the diagonal kind takes a step that is not a
    unit step. *)
Definition bends (c : call) (l : list cell) : Prop :=
  fares c l /\ (diag_call c -> ~ unit_steps l).

(** The calls made while [gilbert2d(width, height)] runs. *)
Inductive reachable (width height : Z) : call -> Prop :=
  | reach_top : reachable width height (top_call width height)
  | reach_sub c c' :
      reachable width height c -> ch c <> 1 -> cw c <> 1 ->
      c' ∈ subcalls c -> reachable width height c'.

(** *** The two axes exchanged *)

(** The cell mirrored in the diagonal. *)
Definition transpose (p : cell) : cell := (snd p, fst p).

(** The call with [x] and [y] exchanged in its corner and its vectors. *)
Definition transpose_call (c : call) : call :=
  Call (cy c) (cx c) (cay c) (cax c) (cby c) (cbx c).

End Gilbert.

(** ** Numbers of the script *)

Module Js.

(** The Number of an integer of the script (exact below 2^53). *)
Definition of_Z (z : Z) : float :=
  if z <? 0 then (- PrimFloat.of_uint63 (Uint63.of_Z (- z)))%float
  else PrimFloat.of_uint63 (Uint63.of_Z z).

Definition signed (s : bool) (m : positive) : Z :=
  if s then Z.neg m else Z.pos m.

(** [Math.floor(x)] of a finite [x = m * 2^e]; [None] for NaN and the
    infinities. *)
Definition floor (x : float) : option Z :=
  match Prim2SF x with
  | S754_zero _ => Some 0
  | S754_finite s m e =>
      Some (if 0 <=? e then signed s m * 2 ^ e else signed s m / 2 ^ (- e))
  | _ => None
  end.

(** [Math.round(x)]: the integer closest to [x], ties towards +infinity,
    that is the floor of [x + 1/2] computed exactly; [None] for NaN and
    the infinities. *)
Definition round (x : float) : option Z :=
  match Prim2SF x with
  | S754_zero _ => Some 0
  | S754_finite s m e =>
      Some (if 0 <=? e then signed s m * 2 ^ e
            else (2 * signed s m + 2 ^ (- e)) / 2 ^ (- e + 1))
  | _ => None
  end.

(** Storing [Math.floor(x)] into a [Uint8ClampedArray]: NaN becomes 0, the
    rest is clamped to [0, 255]. *)
Definition floor_clamped (x : float) : Z :=
  match Prim2SF x with
  | S754_nan => 0
  | S754_infinity s => if s then 0 else 255
  | _ => Z.max 0 (Z.min 255 (default 0 (floor x)))
  end.

(** [a[i]] on an array: [undefined] ([None]) out of range. *)
Definition at_index {A} (a : list A) (i : Z) : option A :=
  if i <? 0 then None else a !! Z.to_nat i.

(** [a[i] = v] on a typed array: ignored out of range. *)
Definition store {A} (a : list A) (i : Z) (v : A) : list A :=
  if i <? 0 then a else <[Z.to_nat i := v]> a.

(** The Number read from a typed array: [undefined] becomes NaN in
    arithmetic. *)
Definition num (v : option Z) : float :=
  match v with Some z => of_Z z | None => nan end.

(** The value kept by a [Uint8Array] when [v] is stored in it. *)
Definition to_uint8 (v : option Z) : Z :=
  match v with Some z => z mod 256 | None => 0 end.

(** [a.slice(from, to)]: negative positions count from the end, and both
    are clamped to the array. *)
Definition slice {A} (a : list A) (from to : Z) : list A :=
  let len := Z.of_nat (length a) in
  let clamp k := if k <? 0 then Z.max (len + k) 0 else Z.min k len in
  take (Z.to_nat (clamp to - clamp from)) (drop (Z.to_nat (clamp from)) a).

(** [target.set(source, offset)]: a RangeError ([None]) when the source
    does not fit. *)
Definition set {A} (target source : list A) (offset : Z) : option (list A) :=
  if (offset <? 0) || (Z.of_nat (length target) <? offset + Z.of_nat (length source))
  then None
  else Some (take (Z.to_nat offset) target ++ source ++
             drop (Z.to_nat offset + length source) target).

(** [for (let i = 0; i < n; i++) body] on a state. *)
Definition for_loop {St} (n : Z) (body : Z -> St -> St) (s : St) : St :=
  fold_left (fun s i => body (Z.of_nat i) s) (seq 0 (Z.to_nat n)) s.

(** The same loop with a body that may throw. *)
Definition for_loop_opt {St} (n : Z) (body : Z -> St -> option St) (s : St)
    : option St :=
  fold_left (fun s i => s ≫= body (Z.of_nat i)) (seq 0 (Z.to_nat n)) (Some s).

(** [for (let i = from; i < stop; i += step) body]; [fuel] bounds the
    number of iterations, [None] is a loop that has not ended by then. *)
Fixpoint stride_loop {St} (fuel : nat) (i stop step : Z)
    (body : Z -> St -> option St) (s : St) : option St :=
  match fuel with
  | O => None
  | S fuel' =>
      if i <? stop
      then s ← body i s; stride_loop fuel' (i + step) stop step body s
      else Some s
  end.

(** A Number that is finite and not negative, with a binary exponent of at
    most [E]. *)
Definition small (x : float) (E : Z) : Prop :=
  match Prim2SF x with
  | S754_zero _ => True
  | S754_finite false _ e => e <= E
  | _ => False
  end.

End Js.

(** ** The confusion engine ([TomatoImageConfusion]) *)

Module Confusion.

Import Js.

(** [Math.round((Math.sqrt(5) - 1) / 2 * width * height * strength)]. *)
Definition golden_offset (width height : Z) (strength : float) : option Z :=
  round ((sqrt 5 - 1) / 2 * of_Z width * of_Z height * strength)%float.

(** The offset of [decrypt], which has no strength:
    [Math.round((Math.sqrt(5) - 1) / 2 * width * height)]. *)
Definition golden_offset_decrypt (width height : Z) : option Z :=
  round ((sqrt 5 - 1) / 2 * of_Z width * of_Z height)%float.

(** [4 * (pos[0] + pos[1] * width)]. *)
Definition pixel_index (width : Z) (pos : Gilbert.cell) : Z :=
  4 * (fst pos + snd pos * width).

(** [new ImageData(width, height).data]. *)
Definition new_image_data (width height : Z) : list Z :=
  replicate (Z.to_nat (4 * width * height)) 0.

(** The loop shared by [applyGilbertConfusion] and [decrypt]:
    [forward] copies the pixel at [old_p] to [new_p], the other direction
    the pixel at [new_p] to [old_p].  Reading a component of an undefined
    curve entry throws. *)
Definition permute (forward : bool) (curve : list Gilbert.cell) (offset : Z)
    (width height : Z) (data data2 : list Z) : option (list Z) :=
  for_loop_opt (width * height) (fun i data2 =>
    old_pos ← at_index curve i;
    new_pos ← at_index curve (Z.rem (i + offset) (width * height));
    let old_p := pixel_index width old_pos in
    let new_p := pixel_index width new_pos in
    if forward then set data2 (slice data old_p (old_p + 4)) new_p
    else set data2 (slice data new_p (new_p + 4)) old_p) data2.

(** [applyGilbertConfusion(ctx, width, height, strength)] on the pixels
    [data] of the canvas; the result is what [putImageData] writes back. *)
Definition applyGilbertConfusion (fuel : nat) (data : list Z)
    (width height : Z) (strength : float) : option (list Z) :=
  curve ← Gilbert.gilbert2d fuel width height;
  offset ← golden_offset width height strength;
  permute true curve offset width height data (new_image_data width height).

(** The pixel work of [decrypt(img)]: an image without width or height is
    refused, then the pixels are moved back along the curve. *)
Definition decrypt_pixels (fuel : nat) (data : list Z) (width height : Z)
    : option (list Z) :=
  if (width =? 0) || (height =? 0) then None
  else
    curve ← Gilbert.gilbert2d fuel width height;
    offset ← golden_offset_decrypt width height;
    permute false curve offset width height data (new_image_data width height).

(** [smoothFactor] of the pixel at [(dx, dy)] of a tile; [x ** 2] is
    computed as [x * x]. *)
Definition smoothFactor (dx dy blockWidth blockHeight : Z) (strength : float)
    : float :=
  let sq (x : float) := (x * x)%float in
  let distance :=
    sqrt (sq (of_Z dx - of_Z blockWidth / 2)
          + sq (of_Z dy - of_Z blockHeight / 2))%float in
  let maxDistance :=
    sqrt (sq (of_Z blockWidth / 2) + sq (of_Z blockHeight / 2))%float in
  (1 - (distance / maxDistance) * strength)%float.

(** [Math.floor(current * smoothFactor + original * (1 - smoothFactor))]
    as stored in the pixel array. *)
Definition blend (smooth : float) (current original : option Z) : Z :=
  floor_clamped (num current * smooth + num original * (1 - smooth))%float.

(** The first loop nest of [processBlockSmooth]: the copy of the tile into
    the fresh [Uint8Array] [originalData]. *)
Definition capture_tile (data : list Z)
    (startX startY blockWidth blockHeight width : Z) : list Z :=
  let originalData := replicate (Z.to_nat (blockWidth * blockHeight * 4)) 0 in
  for_loop blockHeight (fun dy =>
    for_loop blockWidth (fun dx originalData =>
      let index := ((startY + dy) * width + (startX + dx)) * 4 in
      let tempIndex := (dy * blockWidth + dx) * 4 in
      let originalData :=
        store originalData tempIndex (to_uint8 (at_index data index)) in
      let originalData :=
        store originalData (tempIndex + 1) (to_uint8 (at_index data (index + 1))) in
      let originalData :=
        store originalData (tempIndex + 2) (to_uint8 (at_index data (index + 2))) in
      store originalData (tempIndex + 3) (to_uint8 (at_index data (index + 3)))))
    originalData.

(** The second loop nest: the rewrite of [data] in place. *)
Definition rewrite_tile (originalData data : list Z)
    (startX startY blockWidth blockHeight width : Z) (strength : float)
    : list Z :=
  for_loop blockHeight (fun dy =>
    for_loop blockWidth (fun dx data =>
      let index := ((startY + dy) * width + (startX + dx)) * 4 in
      let tempIndex := (dy * blockWidth + dx) * 4 in
      let smooth := smoothFactor dx dy blockWidth blockHeight strength in
      let data :=
        store data index
          (blend smooth (at_index data index) (at_index originalData tempIndex)) in
      let data :=
        store data (index + 1)
          (blend smooth (at_index data (index + 1))
             (at_index originalData (tempIndex + 1))) in
      store data (index + 2)
        (blend smooth (at_index data (index + 2))
           (at_index originalData (tempIndex + 2)))))
    data.

(** [processBlockSmooth(data, startX, startY, blockWidth, blockHeight,
    width, strength)]. *)
Definition processBlockSmooth (data : list Z)
    (startX startY blockWidth blockHeight width : Z) (strength : float)
    : list Z :=
  let originalData :=
    capture_tile data startX startY blockWidth blockHeight width in
  rewrite_tile originalData data startX startY blockWidth blockHeight width
    strength.

(** [applyBlockConfusion(ctx, width, height, blockSize, strength)]. *)
Definition applyBlockConfusion (fuel : nat) (data : list Z)
    (width height blockSize : Z) (strength : float) : option (list Z) :=
  stride_loop fuel 0 height blockSize (fun y data =>
    stride_loop fuel 0 width blockSize (fun x data =>
      Some (processBlockSmooth data x y (Z.min blockSize (width - x))
              (Z.min blockSize (height - y)) width strength)) data) data.

(** The pixel work of [encrypt(img)]: an image without width or height is
    refused, then [blockSize] selects the transform. *)
Definition encrypt_pixels (fuel : nat) (data : list Z) (width height : Z)
    (confusionStrength : float) (blockSize : Z) : option (list Z) :=
  if (width =? 0) || (height =? 0) then None
  else if blockSize <? 8
  then applyGilbertConfusion fuel data width height confusionStrength
  else applyBlockConfusion fuel data width height blockSize confusionStrength.

(** *** The block-smooth transform as a map over the samples *)

(** The smooth factor of the pixel [(px, py)] of the image, read off the
    tile it lies in. *)
Definition smooth_at (width height blockSize : Z) (strength : float)
    (px py : Z) : float :=
  let startX := px / blockSize * blockSize in
  let startY := py / blockSize * blockSize in
  smoothFactor (px - startX) (py - startY)
    (Z.min blockSize (width - startX)) (Z.min blockSize (height - startY))
    strength.

(** [v ↦ floor(v * smoothFactor + v * (1 - smoothFactor))] on the colour
    samples, the alpha samples kept. *)
Definition smooth_map (data : list Z) (width height blockSize : Z)
    (strength : float) : list Z :=
  imap (fun k v =>
    let p := Z.of_nat k / 4 in
    if Z.of_nat k mod 4 =? 3 then v
    else blend (smooth_at width height blockSize strength
                  (p mod width) (p / width)) (Some v) (Some v)) data.

(** Whether the transform keeps every byte at every pixel of a tile of
    8 x 8 pixels: the value written,
    [floor(v * smoothFactor + v * (1 - smoothFactor))], is compared with
    [v]. *)
Definition tile_keeps_bytes (strength : float) : bool :=
  forallb (fun dx => forallb (fun dy =>
    let smooth := smoothFactor (Z.of_nat dx) (Z.of_nat dy) 8 8 strength in
    forallb (fun v =>
      blend smooth (Some (Z.of_nat v)) (Some (Z.of_nat v)) =? Z.of_nat v)
      (seq 0 256))
    (seq 0 8)) (seq 0 8).

(** *** Loop invariants of the block-smooth transform *)

(** The copy [od] holds the samples of the pixels of the tile visited
    before [(dx_c, dy_c)]. *)
Definition captured (data : list Z) (sx sy bw bh width : Z)
    (dy_c dx_c : Z) (od : list Z) : Prop :=
  Z.of_nat (length od) = bw * bh * 4 /\
  forall dx dy c, 0 <= dx < bw -> 0 <= dy < bh -> 0 <= c < 4 ->
    dy < dy_c \/ (dy = dy_c /\ dx < dx_c) ->
    at_index od ((dy * bw + dx) * 4 + c) =
    at_index data (((sy + dy) * width + (sx + dx)) * 4 + c).

(** The pixels of the tile rewritten before [(dx_c, dy_c)]. *)
Definition tile_done (sx sy bw : Z) (dy_c dx_c X Y : Z) : Prop :=
  sx <= X < sx + bw /\
  (sy <= Y < sy + dy_c \/ (Y = sy + dy_c /\ X < sx + dx_c)).

(** The state [s] of [data] when the rewrite has reached [(dx_c, dy_c)]. *)
Definition rewritten (data : list Z) (sx sy bw bh width : Z)
    (strength : float) (dy_c dx_c : Z) (s : list Z) : Prop :=
  length s = length data /\
  forall X Y c, 0 <= X < width -> 0 <= c < 4 ->
    let k := (Y * width + X) * 4 + c in
    (tile_done sx sy bw dy_c dx_c X Y -> c < 3 ->
     at_index s k =
     Some (blend (smoothFactor (X - sx) (Y - sy) bw bh strength)
             (at_index data k) (at_index data k))) /\
    (~ (tile_done sx sy bw dy_c dx_c X Y /\ c < 3) ->
     at_index s k = at_index data k).

(** The pixels of the tiles processed before the tile at [(x_c, y_c)]. *)
Definition tiles_done (blockSize : Z) (y_c x_c X Y : Z) : Prop :=
  Y < y_c \/ (y_c <= Y < y_c + blockSize /\ X < x_c).

(** The state [s] of the image when the tile loop has reached
    [(x_c, y_c)]. *)
Definition tiled (data : list Z) (width height blockSize : Z)
    (strength : float) (y_c x_c : Z) (s : list Z) : Prop :=
  length s = length data /\
  forall X Y c, 0 <= X < width -> 0 <= Y < height -> 0 <= c < 4 ->
    let k := (Y * width + X) * 4 + c in
    (tiles_done blockSize y_c x_c X Y -> c < 3 ->
     at_index s k =
     Some (blend (smooth_at width height blockSize strength X Y)
             (at_index data k) (at_index data k))) /\
    (~ (tiles_done blockSize y_c x_c X Y /\ c < 3) ->
     at_index s k = at_index data k).

(** *** Loop invariants of the permutation *)

(** The array [data2] after [i] rounds of the loop of the confusion. *)
Definition confused (width height : Z) (curve : list Gilbert.cell)
    (offset : Z) (data : list Z) (i : Z) (data2 : list Z) : Prop :=
  Z.of_nat (length data2) = 4 * (width * height) /\
  forall j p q c, 0 <= j < i ->
    at_index curve j = Some p ->
    at_index curve (Z.rem (j + offset) (width * height)) = Some q ->
    0 <= c < 4 ->
    at_index data2 (pixel_index width q + c) =
    at_index data (pixel_index width p + c).

(** The array [data2] after [i] rounds of the loop of [decrypt]. *)
Definition restored (width height : Z) (curve : list Gilbert.cell)
    (offset : Z) (data : list Z) (i : Z) (data2 : list Z) : Prop :=
  Z.of_nat (length data2) = 4 * (width * height) /\
  forall j p q c, 0 <= j < i ->
    at_index curve j = Some p ->
    at_index curve (Z.rem (j + offset) (width * height)) = Some q ->
    0 <= c < 4 ->
    at_index data2 (pixel_index width p + c) =
    at_index data (pixel_index width q + c).

(** *** [invert] *)

(** [255 - v] as stored in the pixel array; [255 - undefined] is NaN,
    stored as 0. *)
Definition inverted (v : option Z) : Z :=
  match v with
  | Some z => Z.max 0 (Z.min 255 (255 - z))
  | None => 0
  end.

(** The pixel loop of [invert(img)]:
    [for (let i = 0; i < data.length; i += 4)
       { data[i] = 255 - data[i]; data[i + 1] = ...; data[i + 2] = ...; }]. *)
Definition invert_pixels (fuel : nat) (data : list Z) : option (list Z) :=
  stride_loop fuel 0 (Z.of_nat (length data)) 4 (fun i data =>
    let data := store data i (inverted (at_index data i)) in
    let data := store data (i + 1) (inverted (at_index data (i + 1))) in
    Some (store data (i + 2) (inverted (at_index data (i + 2))))) data.

(** [v ↦ 255 - v] on the colour samples, the alpha samples kept. *)
Definition invert_map (data : list Z) : list Z :=
  imap (fun k v => if Z.of_nat k mod 4 =? 3 then v else inverted (Some v)) data.

(** The state [s] of [data] when the loop of [invert] has reached the
    sample [i]. *)
Definition inverting (data : list Z) (i : Z) (s : list Z) : Prop :=
  0 <= i /\ i mod 4 = 0 /\ length s = length data /\
  forall k, at_index s k =
    if k <? i then at_index (invert_map data) k else at_index data k.

End Confusion.

(** ** The engine of [script.js] *)

Module Script.

Import Js Confusion.

(** The pixel loop of [encrypt(img)]: the offset has no strength. *)
Definition encrypt_pixels (fuel : nat) (data : list Z) (width height : Z)
    : option (list Z) :=
  curve ← Gilbert.gilbert2d fuel width height;
  offset ← golden_offset_decrypt width height;
  permute true curve offset width height data (new_image_data width height).

(** The pixel loop of [decrypt(img)]. *)
Definition decrypt_pixels (fuel : nat) (data : list Z) (width height : Z)
    : option (list Z) :=
  curve ← Gilbert.gilbert2d fuel width height;
  offset ← golden_offset_decrypt width height;
  permute false curve offset width height data (new_image_data width height).

End Script.

(** ** The PNG checks and repairs *)

Module Png.

Import Js.

(** [89 50 4E 47 0D 0A 1A 0A]. *)
Definition pngHeader : list Z := [0x89; 0x50; 0x4E; 0x47; 0x0D; 0x0A; 0x1A; 0x0A].

Definition pngSignature : list Z := pngHeader.

Definition iendSignature : list Z :=
  [0x49; 0x45; 0x4E; 0x44; 0xAE; 0x42; 0x60; 0x82].

(** ["IHDR"]. *)
Definition ihdrPattern : list Z := [0x49; 0x48; 0x44; 0x52].

(** The loop
    [for (let i = 0; i < signature.length; i++)
       if (bytes[i] !== signature[i]) { ok = false; break; }]
    from its round [i] on, [n] rounds being left; the result is [ok]. *)
Fixpoint signature_loop (bytes signature : list Z) (i : Z) (n : nat) : bool :=
  match n with
  | O => true
  | S n' =>
      if decide (at_index bytes i = at_index signature i)
      then signature_loop bytes signature (i + 1) n'
      else false
  end.

Definition has_signature (bytes signature : list Z) : bool :=
  signature_loop bytes signature 0 (length signature).

(** [checkPngHeader(file)] on the bytes of the file: the pair
    [(isValidPng, hasValidEnd)]; the error toast is shown when the first is
    false, the warning toast when the second is. *)
Definition checkPngHeader (file : list Z) : bool * bool :=
  let uint8Array := slice file 0 100 in
  let isValidPng := has_signature uint8Array pngSignature in
  let fileEnd := slice uint8Array (-8) (Z.of_nat (length uint8Array)) in
  let hasValidEnd := has_signature fileEnd iendSignature in
  (isValidPng, hasValidEnd).

(** The array [fixedArray] that [tryAlternativePngFix(uint8Array, file)]
    puts in the Blob. *)
Definition tryAlternativePngFix (uint8Array : list Z) : list Z :=
  let fixedArray :=
    replicate (length pngHeader + length uint8Array) 0 in
  let fixedArray :=
    for_loop (Z.of_nat (length pngHeader)) (fun i fixedArray =>
      store fixedArray i (to_uint8 (at_index pngHeader i))) fixedArray in
  for_loop (Z.of_nat (length uint8Array)) (fun i fixedArray =>
    store fixedArray (Z.of_nat (length pngHeader) + i)
      (to_uint8 (at_index uint8Array i))) fixedArray.

(** [new Uint8Array(n)] for a Number [n]: the length is [n] truncated, 0
    for NaN; a negative or infinite length is a RangeError ([None]). *)
Definition new_Uint8Array (n : float) : option (list Z) :=
  match Prim2SF n with
  | S754_nan => Some []
  | S754_infinity _ => None
  | S754_zero _ => Some []
  | S754_finite s m e =>
      let k := if 0 <=? e then signed s m * 2 ^ e
               else Z.quot (signed s m) (2 ^ (- e)) in
      if k <? 0 then None else Some (replicate (Z.to_nat k) 0)
  end.

(** The search
    [for (let i = 0; i < uint8Array.length - 4; i++)
       if (uint8Array[i] === 0x49 && ... ) { ihdrIndex = i; break; }]
    from its round [i] on, [n] rounds being left; -1 when nothing is
    found. *)
Fixpoint ihdr_loop (uint8Array : list Z) (i : Z) (n : nat) : Z :=
  match n with
  | O => -1
  | S n' =>
      if bool_decide (at_index uint8Array i = at_index ihdrPattern 0)
         && bool_decide (at_index uint8Array (i + 1) = at_index ihdrPattern 1)
         && bool_decide (at_index uint8Array (i + 2) = at_index ihdrPattern 2)
         && bool_decide (at_index uint8Array (i + 3) = at_index ihdrPattern 3)
      then i
      else ihdr_loop uint8Array (i + 1) n'
  end.

(** The array that the [onload] handler of [fixPngHeader(file)] puts in
    the first Blob it tries, from the bytes [uint8Array] of the file.
    [arrayBuffer] is an ArrayBuffer, which has a [byteLength] and no
    [length]: [arrayBuffer.length + 8] is [undefined + 8]. *)
Definition fixPngHeader (uint8Array : list Z) : option (list Z) :=
  fixedArray ← new_Uint8Array (num None + 8)%float;
  let fixedArray :=
    for_loop (Z.of_nat (length pngHeader)) (fun i fixedArray =>
      store fixedArray i (to_uint8 (at_index pngHeader i))) fixedArray in
  let existingHeader := slice uint8Array 0 8 in
  let isPngHeader :=
    bool_decide (at_index existingHeader 0 = Some 0x89)
    && bool_decide (at_index existingHeader 1 = Some 0x50) in
  if isPngHeader then Some (tryAlternativePngFix uint8Array)
  else
    let ihdrIndex :=
      ihdr_loop uint8Array 0 (Z.to_nat (Z.of_nat (length uint8Array) - 4)) in
    let startIndex := if ihdrIndex >? 0 then ihdrIndex - 8 else 0 in
    (* for (let i = startIndex; i < uint8Array.length; i++), with
       i = startIndex + j *)
    Some (for_loop (Z.of_nat (length uint8Array) - startIndex) (fun j fixedArray =>
            let i := startIndex + j in
            store fixedArray (8 + (i - startIndex))
              (to_uint8 (at_index uint8Array i))) fixedArray).

End Png.


(** * Theorems *)

Import Gilbert.

(** ** Facts about the curve generator *)

Section Fill.

Lemma fill_app n : forall x y dx dy acc,
  fill n x y dx dy acc = acc ++ fill n x y dx dy [].
Proof.
  induction n as [|n IH]; intros x y dx dy acc; simpl.
  - now rewrite app_nil_r.
  - rewrite (IH _ _ _ _ (acc ++ [(x, y)])), (IH _ _ _ _ [(x, y)]).
    now rewrite <- app_assoc.
Qed.

Lemma fill_cons n x y dx dy :
  fill (S n) x y dx dy [] = (x, y) :: fill n (x + dx) (y + dy) dx dy [].
Proof. simpl. now rewrite fill_app. Qed.

Lemma fill_length n : forall x y dx dy, length (fill n x y dx dy []) = n.
Proof.
  induction n as [|n IH]; intros; [reflexivity|].
  rewrite fill_cons. simpl. now rewrite IH.
Qed.

Lemma elem_of_fill n : forall x y dx dy (p : cell),
  p ∈ fill n x y dx dy [] <->
  exists i, 0 <= i < Z.of_nat n /\ p = (x + i * dx, y + i * dy).
Proof.
  induction n as [|n IH]; intros x y dx dy p.
  - simpl. rewrite elem_of_nil. split; [tauto | intros (i & ? & _); lia].
  - rewrite fill_cons, elem_of_cons, IH. split.
    + intros [-> | (i & Hi & ->)].
      * exists 0. split; [lia | f_equal; lia].
      * exists (i + 1). split; [lia | f_equal; lia].
    + intros (i & Hi & ->). destruct (Z.eq_dec i 0) as [-> | Hne].
      * left. f_equal; lia.
      * right. exists (i - 1). split; [lia | f_equal; lia].
Qed.

Lemma fill_NoDup n : forall x y dx dy,
  dx <> 0 \/ dy <> 0 -> NoDup (fill n x y dx dy []).
Proof.
  induction n as [|n IH]; intros x y dx dy Hd.
  - constructor.
  - rewrite fill_cons. constructor; [| now apply IH].
    rewrite elem_of_fill. intros (i & Hi & Heq). injection Heq as Hx Hy.
    destruct Hd; nia.
Qed.

End Fill.




Lemma bind_Some_r {A} (m : option A) : (m ≫= Some) = m.
Proof. now destruct m. Qed.

(** One call of [generate2d] is a base case or the sequence of its
    [subcalls]. *)
Lemma run_unfold fuel c acc :
  run (S fuel) c acc =
  if ch c =? 1 then Some (acc ++ row c)
  else if cw c =? 1 then Some (acc ++ col c)
  else run_all fuel (subcalls c) acc.
Proof.
  destruct c as [x y ax ay bx by'].
  unfold run, row, col, cw, ch, subcalls.
  cbn [cx cy cax cay cbx cby generate2d].
  destruct (Z.abs (bx + by') =? 1); [now rewrite fill_app|].
  destruct (Z.abs (ax + ay) =? 1); [now rewrite fill_app|].
  destruct (2 * Z.abs (ax + ay) >? 3 * Z.abs (bx + by'));
    cbv [run_all run]; cbn [cx cy cax cay cbx cby].
  - destruct (generate2d _ _ _ _ _ _ _ acc) as [l1|];
      cbn [mbind option_bind]; [|reflexivity].
    now rewrite bind_Some_r.
  - destruct (generate2d _ _ _ _ _ _ _ acc) as [l1|];
      cbn [mbind option_bind]; [|reflexivity].
    destruct (generate2d _ _ _ _ _ _ _ l1) as [l2|];
      cbn [mbind option_bind]; [|reflexivity].
    now rewrite bind_Some_r.
Qed.

Lemma run_0 c acc : run 0 c acc = None.
Proof. reflexivity. Qed.

Lemma run_all_mono f f' cs :
  (forall c acc l, run f c acc = Some l -> run f' c acc = Some l) ->
  forall acc l, run_all f cs acc = Some l -> run_all f' cs acc = Some l.
Proof.
  intros Hrun. induction cs as [|c cs IH]; intros acc l; cbn [run_all]; [easy|].
  destruct (run f c acc) as [acc'|] eqn:E; cbn; [|easy].
  rewrite (Hrun _ _ _ E). cbn. apply IH.
Qed.

(** More stack never changes the result of a call that returned. *)
Lemma run_mono f : forall f' c acc l,
  (f <= f')%nat -> run f c acc = Some l -> run f' c acc = Some l.
Proof.
  induction f as [|f IH]; intros f' c acc l Hle; [easy|].
  destruct f' as [|f']; [lia|].
  rewrite !run_unfold.
  destruct (ch c =? 1); [easy|]. destruct (cw c =? 1); [easy|].
  apply run_all_mono. intros c' acc' l'. apply IH. lia.
Qed.



Lemma odd_and_gt2_true w2 w :
  odd_and_gt2 w2 w = true <-> Z.rem w2 2 <> 0 /\ 2 < w.
Proof.
  unfold odd_and_gt2. rewrite andb_true_iff, negb_true_iff, Z.eqb_neq.
  rewrite Z.gtb_lt. tauto.
Qed.

Lemma odd_and_gt2_false w2 w :
  odd_and_gt2 w2 w = false <-> Z.rem w2 2 = 0 \/ w <= 2.
Proof.
  unfold odd_and_gt2. rewrite andb_false_iff, negb_false_iff, Z.eqb_eq.
  rewrite Z.gtb_ltb, Z.ltb_ge. tauto.
Qed.

(** Case analysis on the three tests of the recursive branch, leaving
    their outcome as arithmetic facts. *)
Ltac split_tests :=
  repeat match goal with
  | |- context [?a >? ?b] =>
      let E := fresh "E" in
      destruct (a >? b) eqn:E;
      [apply Z.gtb_lt in E | rewrite Z.gtb_ltb in E; apply Z.ltb_ge in E]
  end;
  repeat match goal with
  | |- context [odd_and_gt2 ?a ?b] =>
      let E := fresh "E" in
      destruct (odd_and_gt2 a b) eqn:E;
      [apply odd_and_gt2_true in E | apply odd_and_gt2_false in E]
  end.

Lemma aligned_pos c : aligned c -> 1 <= cw c /\ 1 <= ch c.
Proof. unfold aligned, cw, ch. lia. Qed.

(** Names the quotient and the remainder of [a / 2]. *)
Ltac name_half a :=
  let q := fresh "q" in
  let r := fresh "r" in
  let Hq := fresh "Hq" in
  let Hr := fresh "Hr" in
  pose proof (Z.div_mod a 2 ltac:(lia)) as Hq;
  pose proof (Z.mod_pos_bound a 2 ltac:(lia)) as Hr;
  set (q := a / 2) in *; set (r := a mod 2) in *; clearbody q r.

(** Rewrites [Z.abs], [Z.sgn], [Z.min] and [Z.max] away once the signs of
    their arguments follow from the context. *)
Ltac norm_signs :=
  repeat first
  [ progress change (Z.sgn 0) with 0 in *
  | progress change (0 / 2) with 0 in *
  | progress rewrite ?Z.add_0_r, ?Z.add_0_l, ?Z.sub_0_r, ?Z.opp_0 in *
  | match goal with
    | |- context [Z.sgn ?e] =>
        first [rewrite (Z.sgn_pos e) by lia | rewrite (Z.sgn_neg e) by lia
              | rewrite (Z.sgn_null e) by lia]
    | |- context [Z.abs ?e] =>
        first [rewrite (Z.abs_eq e) by lia | rewrite (Z.abs_neq e) by lia]
    | |- context [Z.min ?e ?f] =>
        first [rewrite (Z.min_l e f) by lia | rewrite (Z.min_r e f) by lia]
    | |- context [Z.max ?e ?f] =>
        first [rewrite (Z.max_l e f) by lia | rewrite (Z.max_r e f) by lia]
    | H : context [Z.sgn ?e] |- _ =>
        first [rewrite (Z.sgn_pos e) in H by lia
              | rewrite (Z.sgn_neg e) in H by lia
              | rewrite (Z.sgn_null e) in H by lia]
    | H : context [Z.abs ?e] |- _ =>
        first [rewrite (Z.abs_eq e) in H by lia
              | rewrite (Z.abs_neq e) in H by lia]
    | H : context [Z.min ?e ?f] |- _ =>
        first [rewrite (Z.min_l e f) in H by lia
              | rewrite (Z.min_r e f) in H by lia]
    | H : context [Z.max ?e ?f] |- _ =>
        first [rewrite (Z.max_l e f) in H by lia
              | rewrite (Z.max_r e f) in H by lia]
    end ].

(** Turns the parity facts left by [split_tests] into linear ones. *)
Ltac name_rems :=
  repeat match goal with
  | H : context [Z.rem ?e 2] |- _ =>
      rewrite (Z.rem_mod_nonneg e 2) in H by lia; name_half e
  end.

(** Splits an aligned call into its orientation and the signs of its two
    vectors, and names the halves. *)
Ltac orient Hal :=
  let Ha := fresh "Ha" in
  let Hb := fresh "Hb" in
  destruct Hal as [(-> & -> & Ha & Hb) | (-> & -> & Ha & Hb)];
  (apply Z.lt_gt_cases in Ha; destruct Ha as [Ha | Ha]);
  (apply Z.lt_gt_cases in Hb; destruct Hb as [Hb | Hb]);
  rewrite ?Z.add_0_r, ?Z.add_0_l in *;
  match goal with
  | _ : ?a < 0, _ : ?b < 0 |- _ => name_half a; name_half b
  | _ : ?a < 0, _ : 0 < ?b |- _ => name_half a; name_half b
  | _ : 0 < ?a, _ : ?b < 0 |- _ => name_half a; name_half b
  | _ : 0 < ?a, _ : 0 < ?b |- _ => name_half a; name_half b
  end.

(** Each recursive call is on a smaller rectangle: [w + h] decreases. *)
Lemma subcalls_decrease c :
  aligned c -> ch c <> 1 -> cw c <> 1 ->
  Forall (fun c' => aligned c' /\ cw c' + ch c' < cw c + ch c) (subcalls c).
Proof.
  destruct c as [x y ax ay bx by'].
  unfold aligned, cw, ch, subcalls; cbn [cx cy cax cay cbx cby].
  intros Hal Hh Hw. orient Hal.
  all: split_tests.
  all: repeat match goal with
       | |- Forall _ (_ :: _) => constructor
       | |- Forall _ [] => constructor
       end; cbn [cx cy cax cay cbx cby]; norm_signs; name_rems.
  all: split; [first [left; lia | right; lia] | lia].
Qed.


(** *** Coverage of the rectangle *)

Lemma covers_row c : aligned c -> ch c = 1 -> covers c (row c).
Proof.
  destruct c as [x y ax ay bx by'].
  unfold aligned, covers, row, cw, ch, in_rect, far_x, far_y;
    cbn [cx cy cax cay cbx cby].
  intros Hal Hh. rewrite fill_length.
  split; [lia|]. split; [apply fill_NoDup; lia|].
  intros [px py]. rewrite elem_of_fill. cbn [fst snd].
  orient Hal; norm_signs.
  all: split; [intros (i & Hi & [= -> ->]); lia|].
  all: intros Hp; exists (Z.abs (px - x) + Z.abs (py - y)).
  all: split; [lia | f_equal; lia].
Qed.

Lemma covers_col c : aligned c -> cw c = 1 -> covers c (col c).
Proof.
  destruct c as [x y ax ay bx by'].
  unfold aligned, covers, col, cw, ch, in_rect, far_x, far_y;
    cbn [cx cy cax cay cbx cby].
  intros Hal Hh. rewrite fill_length.
  split; [lia|]. split; [apply fill_NoDup; lia|].
  intros [px py]. rewrite elem_of_fill. cbn [fst snd].
  orient Hal; norm_signs.
  all: split; [intros (i & Hi & [= -> ->]); lia|].
  all: intros Hp; exists (Z.abs (px - x) + Z.abs (py - y)).
  all: split; [lia | f_equal; lia].
Qed.

Lemma covers_app2 c c1 c2 l1 l2 :
  covers c1 l1 -> covers c2 l2 ->
  cw c1 * ch c1 + cw c2 * ch c2 = cw c * ch c ->
  (forall p, in_rect c p <-> in_rect c1 p \/ in_rect c2 p) ->
  (forall p, in_rect c1 p -> ~ in_rect c2 p) ->
  covers c (l1 ++ l2).
Proof.
  intros (L1 & N1 & M1) (L2 & N2 & M2) HL HM HD. split; [|split].
  - rewrite length_app. lia.
  - apply NoDup_app. repeat split; [exact N1 | | exact N2].
    intros p. rewrite M1, M2. apply HD.
  - intros p. rewrite elem_of_app, M1, M2, HM. tauto.
Qed.

Lemma covers_app3 c c1 c2 c3 l1 l2 l3 :
  covers c1 l1 -> covers c2 l2 -> covers c3 l3 ->
  cw c1 * ch c1 + cw c2 * ch c2 + cw c3 * ch c3 = cw c * ch c ->
  (forall p, in_rect c p <-> in_rect c1 p \/ in_rect c2 p \/ in_rect c3 p) ->
  (forall p, in_rect c1 p -> ~ in_rect c2 p /\ ~ in_rect c3 p) ->
  (forall p, in_rect c2 p -> ~ in_rect c3 p) ->
  covers c (l1 ++ l2 ++ l3).
Proof.
  intros (L1 & N1 & M1) (L2 & N2 & M2) (L3 & N3 & M3) HL HM HD1 HD2.
  split; [|split].
  - rewrite !length_app. lia.
  - apply NoDup_app. repeat split; [exact N1 | | ].
    + intros p. rewrite elem_of_app, M1, M2, M3. intros H1. specialize (HD1 p H1). tauto.
    + apply NoDup_app. repeat split; [exact N2 | | exact N3].
      intros p. rewrite M2, M3. apply HD2.
  - intros p. rewrite !elem_of_app, M1, M2, M3, HM. tauto.
Qed.

Ltac rect_goal :=
  try (intros [px py]);
  unfold in_rect, far_x, far_y, cw, ch; cbn [cx cy cax cay cbx cby fst snd];
  norm_signs; lia.

Lemma covers_rec c ls :
  aligned c -> ch c <> 1 -> cw c <> 1 ->
  Forall2 covers (subcalls c) ls -> covers c (concat ls).
Proof.
  destruct c as [x y ax ay bx by'].
  unfold aligned, cw, ch, subcalls; cbn [cx cy cax cay cbx cby].
  intros Hal Hh Hw. orient Hal.
  all: split_tests; norm_signs; name_rems.
  all: intros HF;
    repeat match goal with
    | H : Forall2 _ (_ :: _) _ |- _ =>
        apply Forall2_cons_inv_l in H; destruct H as (? & ? & ? & H & ->)
    | H : Forall2 _ [] _ |- _ => apply Forall2_nil_inv_l in H; rewrite H
    end; cbn [concat]; rewrite ?app_nil_r.
  all: match goal with
       | H1 : covers _ ?l1, H2 : covers _ ?l2, H3 : covers _ ?l3
         |- covers _ (?l1 ++ ?l2 ++ ?l3) =>
           apply (covers_app3 _ _ _ _ _ _ _ H1 H2 H3); clear H1 H2 H3
       | H1 : covers _ ?l1, H2 : covers _ ?l2 |- covers _ (?l1 ++ ?l2) =>
           apply (covers_app2 _ _ _ _ _ H1 H2); clear H1 H2
       end.
  all: rect_goal.
Qed.

(** An induction principle for [generate2d]: a property [P] of the cells
    pushed by a call holds for every call in a class [G] of aligned calls
    closed under [subcalls], as soon as it holds for the two base cases and
    passes from the recursive calls to their concatenation.  The call
    returns whenever the stack allows [w + h] nested calls. *)
Section Run_induction.

Variable G : call -> Prop.
Variable P : call -> list cell -> Prop.
Hypothesis G_aligned : forall c, G c -> aligned c.
Hypothesis G_sub :
  forall c, G c -> ch c <> 1 -> cw c <> 1 -> Forall G (subcalls c).
Hypothesis P_row : forall c, G c -> ch c = 1 -> P c (row c).
Hypothesis P_col : forall c, G c -> ch c <> 1 -> cw c = 1 -> P c (col c).
Hypothesis P_rec :
  forall c ls, G c -> ch c <> 1 -> cw c <> 1 ->
  Forall2 P (subcalls c) ls -> P c (concat ls).

Lemma run_all_concat fuel cs ls :
  Forall2 (fun c l => forall acc, run fuel c acc = Some (acc ++ l)) cs ls ->
  forall acc, run_all fuel cs acc = Some (acc ++ concat ls).
Proof.
  induction 1 as [|c l cs ls Hc _ IH]; intros acc; cbn [run_all concat].
  - now rewrite app_nil_r.
  - rewrite Hc. cbn. rewrite IH. now rewrite <- app_assoc.
Qed.

Lemma run_inv_measure (n : nat) :
  forall c, G c -> cw c + ch c <= Z.of_nat n ->
  exists l, P c l /\
    forall fuel acc, cw c + ch c <= Z.of_nat fuel ->
      run fuel c acc = Some (acc ++ l).
Proof.
  induction n as [|n IH]; intros c Hg Hn.
  { pose proof (aligned_pos c (G_aligned c Hg)). lia. }
  pose proof (aligned_pos c (G_aligned c Hg)) as [Hw1 Hh1].
  destruct (Z.eq_dec (ch c) 1) as [Hh | Hh].
  { exists (row c). split; [now apply P_row|]. intros [|fuel] acc Hf; [lia|].
    rewrite run_unfold. now rewrite (proj2 (Z.eqb_eq _ _) Hh). }
  destruct (Z.eq_dec (cw c) 1) as [Hw | Hw].
  { exists (col c). split; [now apply P_col|]. intros [|fuel] acc Hf; [lia|].
    rewrite run_unfold.
    rewrite (proj2 (Z.eqb_neq _ _) Hh). now rewrite (proj2 (Z.eqb_eq _ _) Hw). }
  assert (Hsub : exists ls, Forall2 P (subcalls c) ls /\
            Forall2 (fun c' l => forall fuel acc,
              cw c + ch c <= Z.of_nat (S fuel) ->
              run fuel c' acc = Some (acc ++ l)) (subcalls c) ls).
  { pose proof (G_sub c Hg Hh Hw) as HG.
    pose proof (subcalls_decrease c (G_aligned c Hg) Hh Hw) as HD.
    induction (subcalls c) as [|c' cs IHcs].
    - exists []. split; constructor.
    - inversion HG as [|? ? Hg' HG']; subst.
      inversion HD as [|? ? [_ Hd'] HD']; subst.
      destruct (IHcs HG' HD') as (ls & HP & HR).
      destruct (IH c' Hg' ltac:(lia)) as (l & Hl & Hrun).
      exists (l :: ls). split; constructor; auto.
      intros fuel acc Hf. apply Hrun. lia. }
  destruct Hsub as (ls & HP & HR).
  exists (concat ls). split; [now apply P_rec|].
  intros [|fuel] acc Hf; [lia|].
  rewrite run_unfold.
  rewrite (proj2 (Z.eqb_neq _ _) Hh), (proj2 (Z.eqb_neq _ _) Hw).
  apply run_all_concat.
  eapply Forall2_impl; [exact HR|]. cbn. intros c' l H acc'. now apply H.
Qed.

Lemma run_inv c :
  G c ->
  exists l, P c l /\
    forall fuel acc, cw c + ch c <= Z.of_nat fuel ->
      run fuel c acc = Some (acc ++ l).
Proof.
  intros Hg. apply (run_inv_measure (Z.to_nat (cw c + ch c))); [exact Hg|].
  pose proof (aligned_pos c (G_aligned c Hg)). lia.
Qed.

End Run_induction.

(** Every aligned call returns the cells of its rectangle, once each. *)
Lemma run_covers c :
  aligned c ->
  exists l, covers c l /\
    forall fuel acc, cw c + ch c <= Z.of_nat fuel ->
      run fuel c acc = Some (acc ++ l).
Proof.
  apply (run_inv aligned covers); auto.
  - intros c' Hal Hh Hw. eapply Forall_impl.
    + apply subcalls_decrease; assumption.
    + cbn. tauto.
  - intros. now apply covers_row.
  - intros. now apply covers_col.
  - intros. now apply covers_rec.
Qed.

Lemma gilbert2d_run fuel width height :
  gilbert2d fuel width height = run fuel (top_call width height) [].
Proof. unfold gilbert2d, top_call. now destruct (width >=? height). Qed.

Lemma top_call_aligned width height :
  1 <= width -> 1 <= height -> aligned (top_call width height).
Proof.
  intros Hw Hh. unfold top_call, aligned.
  destruct (width >=? height); cbn; lia.
Qed.

Lemma top_call_measure width height :
  1 <= width -> 1 <= height ->
  cw (top_call width height) + ch (top_call width height) = width + height.
Proof.
  intros Hw Hh. unfold top_call, cw, ch.
  destruct (width >=? height); cbn [cax cay cbx cby]; lia.
Qed.

Lemma top_call_rect width height p :
  1 <= width -> 1 <= height ->
  in_rect (top_call width height) p <-> in_grid width height p.
Proof.
  intros Hw Hh. unfold top_call, in_rect, in_grid, far_x, far_y.
  destruct (width >=? height); cbn [cx cy cax cay cbx cby]; lia.
Qed.

Lemma top_call_area width height :
  cw (top_call width height) * ch (top_call width height)
  = Z.abs width * Z.abs height.
Proof.
  unfold top_call, cw, ch.
  destruct (width >=? height); cbn [cax cay cbx cby];
    rewrite ?Z.add_0_r, ?Z.add_0_l; lia.
Qed.

(** The curve of a grid with both sides >= 1 is returned whenever the stack
    allows width + height nested calls. *)
Lemma gilbert2d_curve width height :
  1 <= width -> 1 <= height ->
  exists l, covers (top_call width height) l /\
    forall fuel, width + height <= Z.of_nat fuel ->
      gilbert2d fuel width height = Some l.
Proof.
  intros Hw Hh.
  destruct (run_covers _ (top_call_aligned _ _ Hw Hh)) as (l & Hl & Hrun).
  exists l. split; [exact Hl|].
  intros fuel Hf. rewrite gilbert2d_run. apply (Hrun fuel []).
  rewrite top_call_measure; assumption.
Qed.

(** C2: for width, height >= 1 the curve has exactly width * height cells,
    pairwise distinct, and they are exactly the cells of the grid
    [0,width) x [0,height). *)
Theorem gilbert2d_coverage width height :
  1 <= width -> 1 <= height ->
  exists l,
    (forall fuel, width + height <= Z.of_nat fuel ->
       gilbert2d fuel width height = Some l) /\
    Z.of_nat (length l) = width * height /\
    NoDup l /\
    forall p, p ∈ l <-> in_grid width height p.
Proof.
  intros Hw Hh.
  destruct (gilbert2d_curve width height Hw Hh) as (l & (HL & HN & HM) & Hrun).
  exists l. split; [exact Hrun|]. split; [|split].
  - rewrite HL, top_call_area. lia.
  - exact HN.
  - intros p. rewrite HM. now apply top_call_rect.
Qed.

Lemma gilbert2d_coverage_witness :
  exists l,
    (forall fuel, 3 + 2 <= Z.of_nat fuel -> gilbert2d fuel 3 2 = Some l) /\
    Z.of_nat (length l) = 3 * 2 /\
    NoDup l /\
    forall p, p ∈ l <-> in_grid 3 2 p.
Proof. apply (gilbert2d_coverage 3 2); lia. Defined.

(** *** Walks by unit steps *)

Lemma fill_last n : forall x y dx dy,
  last (fill (S n) x y dx dy []) = Some (x + Z.of_nat n * dx, y + Z.of_nat n * dy).
Proof.
  induction n as [|n IH]; intros x y dx dy.
  - cbn. do 2 f_equal; lia.
  - rewrite fill_cons, last_cons, IH. do 2 f_equal; lia.
Qed.

Lemma fill_unit_steps n : forall x y dx dy,
  Z.abs dx + Z.abs dy = 1 -> unit_steps (fill n x y dx dy []).
Proof.
  induction n as [|n IH]; intros x y dx dy Hd; [exact I|].
  rewrite fill_cons. specialize (IH (x + dx) (y + dy) dx dy Hd).
  destruct n as [|n]; [exact I|].
  rewrite fill_cons in IH |- *. split; [|exact IH].
  unfold manhattan; cbn [fst snd]. lia.
Qed.

Lemma unit_steps_app l1 l2 :
  unit_steps l1 -> unit_steps l2 ->
  (forall p q, last l1 = Some p -> head l2 = Some q -> manhattan p q = 1) ->
  unit_steps (l1 ++ l2).
Proof.
  intros H1 H2 Hj. induction l1 as [|p [|q l1] IH].
  - exact H2.
  - destruct l2 as [|q l2]; [exact I|]. split; [|exact H2].
    now apply Hj.
  - destruct H1 as [Hpq H1]. split; [exact Hpq|].
    apply IH; [exact H1|]. intros p' q' Hl. apply Hj.
    now rewrite last_cons, Hl.
Qed.

Lemma unit_steps_lookup l :
  unit_steps l <->
  forall (i : nat) p q, l !! i = Some p -> l !! S i = Some q -> manhattan p q = 1.
Proof.
  induction l as [|p [|q l] IH].
  - split; [intros _ i p q H; discriminate | intros; exact I].
  - split; [intros _ [|i] p' q' H1 H2; discriminate | intros; exact I].
  - split.
    + intros [Hpq Hl] [|i] p' q' H1 H2.
      * cbn in H1, H2. congruence.
      * apply (proj1 IH Hl i); assumption.
    + intros H. split.
      * apply (H 0%nat); reflexivity.
      * apply IH. intros i p' q' H1 H2. apply (H (S i)); assumption.
Qed.

Lemma walks_app2 c c1 c2 l1 l2 :
  walks c1 l1 -> walks c2 l2 ->
  start c1 = start c -> finish c2 = finish c ->
  manhattan (finish c1) (start c2) = 1 ->
  walks c (l1 ++ l2).
Proof.
  intros (S1 & F1 & U1) (S2 & F2 & U2) HS HF HJ. split; [|split].
  - destruct l1; [discriminate|]. cbn in *. congruence.
  - rewrite last_app, F2. congruence.
  - apply unit_steps_app; auto. intros p q Hp Hq. congruence.
Qed.

Lemma walks_app3 c c1 c2 c3 l1 l2 l3 :
  walks c1 l1 -> walks c2 l2 -> walks c3 l3 ->
  start c1 = start c -> finish c3 = finish c ->
  manhattan (finish c1) (start c2) = 1 ->
  manhattan (finish c2) (start c3) = 1 ->
  walks c (l1 ++ l2 ++ l3).
Proof.
  intros (S1 & F1 & U1) (S2 & F2 & U2) (S3 & F3 & U3) HS HF HJ1 HJ2.
  split; [|split].
  - destruct l1; [discriminate|]. cbn in *. congruence.
  - rewrite !last_app, F3. congruence.
  - apply unit_steps_app; [exact U1 | |].
    + apply unit_steps_app; auto. intros p q Hp Hq. congruence.
    + intros p q Hp Hq. destruct l2; [discriminate|]. cbn in *. congruence.
Qed.

Lemma walks_row c : aligned c -> ch c = 1 -> walks c (row c).
Proof.
  intros Hal Hh. pose proof (aligned_pos c Hal) as [Hw _].
  unfold walks, row, start, finish.
  destruct (Z.to_nat (cw c)) as [|n] eqn:En; [lia|].
  split; [|split].
  - now rewrite fill_cons.
  - rewrite fill_last. do 2 f_equal.
    all: unfold aligned, cw in *; destruct c; cbn [cx cy cax cay cbx cby] in *; nia.
  - apply fill_unit_steps. unfold aligned in Hal. lia.
Qed.

Lemma sound_col c : sound c -> ch c <> 1 -> cw c = 1 -> False.
Proof.
  unfold sound, aligned, same_way, cw, ch. intros [Hal Hsw] Hh Hw.
  assert (forall a, a mod 2 = 0 -> Z.abs a <> 1) as Hev.
  { intros a Ha. pose proof (Z.div_mod a 2 ltac:(lia)). lia. }
  destruct Hsw as [(? & ? & ? & ?) | (? & ? & [He | ?])]; try lia.
  apply Hev in He. lia.
Qed.

Lemma sound_sub c :
  sound c -> ch c <> 1 -> cw c <> 1 -> Forall sound (subcalls c).
Proof.
  intros [Hal Hsw] Hh Hw.
  pose proof (subcalls_decrease c Hal Hh Hw) as HD.
  revert Hal Hsw Hh Hw HD.
  destruct c as [x y ax ay bx by'].
  unfold sound, aligned, same_way, cw, ch, subcalls; cbn [cx cy cax cay cbx cby].
  intros Hal Hsw Hh Hw. orient Hal.
  all: (destruct Hsw as [(? & ? & ? & ?) | (? & ? & ?)]; try lia).
  all: (split_tests; norm_signs; name_rems).
  all: intros HD;
    repeat match goal with
    | H : Forall _ (_ :: _) |- _ =>
        apply Forall_cons in H; destruct H as [[? _] H]
    | H : Forall _ [] |- _ => clear H
    end.
  all: (repeat match goal with
       | |- Forall _ (_ :: _) => constructor
       | |- Forall _ [] => constructor
       end; (split; [assumption|]); cbn [cx cy cax cay cbx cby]; norm_signs).
  all: (repeat match goal with
       | |- context [?e mod 2] => name_half e
       end).
  all: (first [ left; split; [lia|]; (split; [|split]); [lia | try lia | try lia]
               | right; (split; [|split]); [lia | lia | try lia] ]).
Qed.

Ltac walk_goal :=
  unfold start, finish, manhattan; cbn [cx cy cax cay cbx cby fst snd];
  norm_signs; first [lia | f_equal; lia].

Lemma walks_rec c ls :
  sound c -> ch c <> 1 -> cw c <> 1 ->
  Forall2 walks (subcalls c) ls -> walks c (concat ls).
Proof.
  destruct c as [x y ax ay bx by'].
  unfold sound, aligned, same_way, cw, ch, subcalls; cbn [cx cy cax cay cbx cby].
  intros [Hal Hsw] Hh Hw. orient Hal.
  all: destruct Hsw as [(? & ? & ? & ?) | (? & ? & ?)]; try lia.
  all: split_tests; norm_signs; name_rems.
  all: intros HF;
    repeat match goal with
    | H : Forall2 _ (_ :: _) _ |- _ =>
        apply Forall2_cons_inv_l in H; destruct H as (? & ? & ? & H & ->)
    | H : Forall2 _ [] _ |- _ => apply Forall2_nil_inv_l in H; rewrite H
    end; cbn [concat]; rewrite ?app_nil_r.
  all: match goal with
       | H1 : walks _ ?l1, H2 : walks _ ?l2, H3 : walks _ ?l3
         |- walks _ (?l1 ++ ?l2 ++ ?l3) =>
           apply (walks_app3 _ _ _ _ _ _ _ H1 H2 H3); clear H1 H2 H3
       | H1 : walks _ ?l1, H2 : walks _ ?l2 |- walks _ (?l1 ++ ?l2) =>
           apply (walks_app2 _ _ _ _ _ H1 H2); clear H1 H2
       end.
  all: walk_goal.
Qed.

Lemma top_call_sound width height :
  1 <= width -> 1 <= height ->
  Z.max width height mod 2 = 0 \/ Z.min width height mod 2 = 1 ->
  sound (top_call width height).
Proof.
  intros Hw Hh Hp. split; [now apply top_call_aligned|].
  unfold top_call, same_way.
  destruct (width >=? height) eqn:E; cbn [cax cay cbx cby];
    rewrite ?Z.add_0_r, ?Z.add_0_l; left.
  - apply Z.geb_le in E.
    rewrite Z.max_l, Z.min_r in Hp by lia. repeat split; try lia.
  - rewrite Z.geb_leb in E. apply Z.leb_gt in E.
    rewrite Z.max_r, Z.min_l in Hp by lia. repeat split; try lia.
Qed.

(** *** Walks with a diagonal step *)

Lemma unit_steps_king l : unit_steps l -> king_steps l.
Proof.
  induction l as [|p [|q l] IH]; try exact (fun _ => I).
  intros [Hpq Hl]. split; [|now apply IH].
  unfold manhattan in Hpq. unfold chebyshev. lia.
Qed.

Lemma king_steps_app l1 l2 :
  king_steps l1 -> king_steps l2 ->
  (forall p q, last l1 = Some p -> head l2 = Some q -> chebyshev p q = 1) ->
  king_steps (l1 ++ l2).
Proof.
  intros H1 H2 Hj. induction l1 as [|p [|q l1] IH].
  - exact H2.
  - destruct l2 as [|q l2]; [exact I|]. split; [|exact H2].
    now apply Hj.
  - destruct H1 as [Hpq H1]. split; [exact Hpq|].
    apply IH; [exact H1|]. intros p' q' Hl. apply Hj.
    now rewrite last_cons, Hl.
Qed.

Lemma king_steps_lookup l :
  king_steps l <->
  forall (i : nat) p q, l !! i = Some p -> l !! S i = Some q -> chebyshev p q = 1.
Proof.
  induction l as [|p [|q l] IH].
  - split; [intros _ i p q H; discriminate | intros; exact I].
  - split; [intros _ [|i] p' q' H1 H2; discriminate | intros; exact I].
  - split.
    + intros [Hpq Hl] [|i] p' q' H1 H2.
      * cbn in H1, H2. congruence.
      * apply (proj1 IH Hl i); assumption.
    + intros H. split.
      * apply (H 0%nat); reflexivity.
      * apply IH. intros i p' q' H1 H2. apply (H (S i)); assumption.
Qed.

Lemma route_app l1 l2 s1 f1 s2 f2 :
  route l1 s1 f1 -> route l2 s2 f2 -> route (l1 ++ l2) s1 f2.
Proof.
  intros [S1 F1] [S2 F2]. split.
  - destruct l1; [discriminate | exact S1].
  - now rewrite last_app, F2.
Qed.

Lemma unit_route_app l1 l2 s1 f1 s2 f2 :
  route l1 s1 f1 /\ unit_steps l1 -> route l2 s2 f2 /\ unit_steps l2 ->
  manhattan f1 s2 = 1 ->
  route (l1 ++ l2) s1 f2 /\ unit_steps (l1 ++ l2).
Proof.
  intros [R1 U1] [R2 U2] HJ. split; [eapply route_app; eauto|].
  apply unit_steps_app; auto. intros p q Hp Hq.
  destruct R1 as [_ F1], R2 as [S2 _]. congruence.
Qed.

Lemma king_route_app l1 l2 s1 f1 s2 f2 :
  route l1 s1 f1 /\ king_steps l1 -> route l2 s2 f2 /\ king_steps l2 ->
  chebyshev f1 s2 = 1 ->
  route (l1 ++ l2) s1 f2 /\ king_steps (l1 ++ l2).
Proof.
  intros [R1 U1] [R2 U2] HJ. split; [eapply route_app; eauto|].
  apply king_steps_app; auto. intros p q Hp Hq.
  destruct R1 as [_ F1], R2 as [S2 _]. congruence.
Qed.

Lemma unit_route_king l s f :
  route l s f /\ unit_steps l -> route l s f /\ king_steps l.
Proof. intros [R U]. split; [exact R | now apply unit_steps_king]. Qed.

Lemma known_aligned c : known c -> aligned c.
Proof. intros [[H _] | [[H _] | [[H _] | [H _]]]]; exact H. Qed.

(** Proves that a call is of a given kind, its alignment being at hand. *)
Ltac kind_facts :=
  split; [assumption|];
  unfold same_way; cbn [cx cy cax cay cbx cby]; norm_signs;
  repeat match goal with
  | |- context [?e mod 2] => name_half e
  end.

Ltac be_sound :=
  left; kind_facts;
  first [ left; split; [lia|]; (split; [|split]); lia
        | right; (split; [|split]); lia ].
Ltac be_diag := right; left; kind_facts; lia.
Ltac be_short := right; right; left; kind_facts; lia.
Ltac be_stub := right; right; right; kind_facts; lia.

Ltac sub_setup :=
  split_tests; norm_signs; name_rems;
  intros HD;
  repeat match goal with
  | H : Forall _ (_ :: _) |- _ =>
      apply Forall_cons in H; destruct H as [[? _] H]
  | H : Forall _ [] |- _ => clear H
  end;
  repeat match goal with
  | |- Forall _ (_ :: _) => constructor
  | |- Forall _ [] => constructor
  end.

Lemma diag_sub c :
  diag_call c -> ch c <> 1 -> cw c <> 1 -> Forall known (subcalls c).
Proof.
  intros Hk Hh Hw.
  assert (Hal : aligned c) by apply Hk.
  pose proof (subcalls_decrease c Hal Hh Hw) as HD.
  revert Hal Hk Hh Hw HD.
  destruct c as [x y ax ay bx by'].
  unfold diag_call, aligned, cw, ch, subcalls; cbn [cx cy cax cay cbx cby].
  intros Hal Hk Hh Hw. orient Hal.
  all: destruct Hk as (_ & ? & ? & ? & ?); try lia.
  all: sub_setup.
  all: (match goal with
       | |- known (Call _ _ _ _ _ _) =>
         first [ be_sound
               | match goal with
                 | |- known ?c =>
                   let Eb := fresh "Eb" in
                   destruct (Z.eq_dec (cbx c + cby c) 2) as [Eb | Eb];
                   cbn [cbx cby] in Eb; rewrite ?Z.add_0_r, ?Z.add_0_l in Eb;
                   [be_short | be_diag]
                 end ]
       end).
Qed.

Lemma short_sub c :
  short_call c -> ch c <> 1 -> cw c <> 1 -> Forall known (subcalls c).
Proof.
  intros Hk Hh Hw.
  assert (Hal : aligned c) by apply Hk.
  pose proof (subcalls_decrease c Hal Hh Hw) as HD.
  revert Hal Hk Hh Hw HD.
  destruct c as [x y ax ay bx by'].
  unfold short_call, aligned, cw, ch, subcalls; cbn [cx cy cax cay cbx cby].
  intros Hal Hk Hh Hw. orient Hal.
  all: destruct Hk as (_ & ? & ? & ?); try lia.
  all: sub_setup.
  all: first [be_sound | be_short | be_stub].
Qed.

Lemma known_sub c :
  known c -> ch c <> 1 -> cw c <> 1 -> Forall known (subcalls c).
Proof.
  intros [Hs | [Hd | [Hs | Hs]]] Hh Hw.
  - eapply Forall_impl; [apply sound_sub; assumption|]. intros c' H. now left.
  - now apply diag_sub.
  - now apply short_sub.
  - destruct Hs as (_ & Ha & _). unfold cw in Hw. lia.
Qed.

Lemma unit_route_app2 l1 l2 s1 f1 s2 f2 s f :
  route l1 s1 f1 /\ unit_steps l1 -> route l2 s2 f2 /\ unit_steps l2 ->
  s1 = s -> f2 = f -> manhattan f1 s2 = 1 ->
  route (l1 ++ l2) s f /\ unit_steps (l1 ++ l2).
Proof. intros H1 H2 <- <-. now apply unit_route_app. Qed.

Lemma unit_route_app3 l1 l2 l3 s1 f1 s2 f2 s3 f3 s f :
  route l1 s1 f1 /\ unit_steps l1 -> route l2 s2 f2 /\ unit_steps l2 ->
  route l3 s3 f3 /\ unit_steps l3 ->
  s1 = s -> f3 = f -> manhattan f1 s2 = 1 -> manhattan f2 s3 = 1 ->
  route (l1 ++ l2 ++ l3) s f /\ unit_steps (l1 ++ l2 ++ l3).
Proof.
  intros H1 H2 H3 <- <- J1 J2.
  eapply unit_route_app; [exact H1 | | exact J1].
  eapply unit_route_app; eauto.
Qed.

Lemma king_route_app2 l1 l2 s1 f1 s2 f2 s f :
  route l1 s1 f1 /\ king_steps l1 -> route l2 s2 f2 /\ king_steps l2 ->
  s1 = s -> f2 = f -> chebyshev f1 s2 = 1 ->
  route (l1 ++ l2) s f /\ king_steps (l1 ++ l2).
Proof. intros H1 H2 <- <-. now apply king_route_app. Qed.

Lemma king_route_app3 l1 l2 l3 s1 f1 s2 f2 s3 f3 s f :
  route l1 s1 f1 /\ king_steps l1 -> route l2 s2 f2 /\ king_steps l2 ->
  route l3 s3 f3 /\ king_steps l3 ->
  s1 = s -> f3 = f -> chebyshev f1 s2 = 1 -> chebyshev f2 s3 = 1 ->
  route (l1 ++ l2 ++ l3) s f /\ king_steps (l1 ++ l2 ++ l3).
Proof.
  intros H1 H2 H3 <- <- J1 J2.
  eapply king_route_app; [exact H1 | | exact J1].
  eapply king_route_app; eauto.
Qed.

Ltac is_sound :=
  kind_facts;
  first [ left; split; [lia|]; (split; [|split]); lia
        | right; (split; [|split]); lia ].

(** The outcome of a child whose kind is known from its place. *)
Ltac as_sound H :=
  let K := fresh "K" in
  destruct H as (K & _ & _ & _);
  specialize (K ltac:(is_sound)).
Ltac as_diag H :=
  let K := fresh "K" in
  destruct H as (_ & K & _ & _);
  specialize (K ltac:(kind_facts; lia)).
Ltac as_short H :=
  let K := fresh "K" in
  destruct H as (_ & _ & K & _);
  specialize (K ltac:(kind_facts; lia)).
Ltac as_stub H :=
  let K := fresh "K" in
  destruct H as (_ & _ & _ & K);
  specialize (K ltac:(kind_facts; lia)).

Ltac ends_goal :=
  unfold start, finish, goal_short, goal_stub, manhattan, chebyshev;
  cbn [cx cy cax cay cbx cby fst snd];
  norm_signs; first [lia | f_equal; lia].

Ltac rec_setup :=
  split_tests; norm_signs; name_rems;
  intros HD HF;
  repeat match goal with
  | H : Forall _ (_ :: _) |- _ =>
      apply Forall_cons in H; destruct H as [[? _] H]
  | H : Forall _ [] |- _ => clear H
  end;
  repeat match goal with
  | H : Forall2 _ (_ :: _) _ |- _ =>
      apply Forall2_cons_inv_l in H; destruct H as (? & ? & ? & H & ->)
  | H : Forall2 _ [] _ |- _ => apply Forall2_nil_inv_l in H; rewrite H
  end; cbn [concat]; rewrite ?app_nil_r.

Lemma short_rec c ls :
  short_call c -> ch c <> 1 -> cw c <> 1 ->
  Forall2 fares (subcalls c) ls ->
  route (concat ls) (start c) (goal_short c) /\ unit_steps (concat ls).
Proof.
  intros Hk Hh Hw.
  assert (Hal : aligned c) by apply Hk.
  pose proof (subcalls_decrease c Hal Hh Hw) as HD.
  revert Hal Hk Hh Hw HD.
  destruct c as [x y ax ay bx by'].
  unfold short_call, aligned, cw, ch, subcalls; cbn [cx cy cax cay cbx cby].
  intros Hal Hk Hh Hw. orient Hal.
  all: destruct Hk as (_ & ? & ? & ?); try lia.
  all: rec_setup.
  all: match goal with
       | H1 : fares _ ?l1, H2 : fares _ ?l2, H3 : fares _ ?l3
         |- _ /\ unit_steps (?l1 ++ ?l2 ++ ?l3) =>
           as_sound H1; as_sound H2; as_stub H3;
           eapply unit_route_app3; [eassumption | eassumption | eassumption | ..]
       | H1 : fares _ ?l1, H2 : fares _ ?l2 |- _ /\ unit_steps (?l1 ++ ?l2) =>
           as_sound H1; as_short H2;
           eapply unit_route_app2; [eassumption | eassumption | ..]
       end.
  all: ends_goal.
Qed.

Lemma diag_rec c ls :
  diag_call c -> ch c <> 1 -> cw c <> 1 ->
  Forall2 fares (subcalls c) ls ->
  route (concat ls) (start c) (finish c) /\ king_steps (concat ls).
Proof.
  intros Hk Hh Hw.
  assert (Hal : aligned c) by apply Hk.
  pose proof (subcalls_decrease c Hal Hh Hw) as HD.
  revert Hal Hk Hh Hw HD.
  destruct c as [x y ax ay bx by'].
  unfold diag_call, aligned, cw, ch, subcalls; cbn [cx cy cax cay cbx cby].
  intros Hal Hk Hh Hw. orient Hal.
  all: destruct Hk as (_ & ? & ? & ? & ?); try lia.
  all: rec_setup.
  all: match goal with
       | H1 : fares _ ?l1, H2 : fares ?c2 ?l2, H3 : fares _ ?l3
         |- _ /\ king_steps (?l1 ++ ?l2 ++ ?l3) =>
           as_sound H1; as_sound H3;
           let Eb := fresh "Eb" in
           destruct (Z.eq_dec (cbx c2 + cby c2) 2) as [Eb | Eb];
           cbn [cbx cby] in Eb; rewrite ?Z.add_0_r, ?Z.add_0_l in Eb;
           [as_short H2 | as_diag H2];
           (eapply king_route_app3;
             [ apply unit_route_king; eassumption
             | first [eassumption | apply unit_route_king; eassumption]
             | apply unit_route_king; eassumption | ..])
       | H1 : fares _ ?l1, H2 : fares _ ?l2 |- _ /\ king_steps (?l1 ++ ?l2) =>
           as_sound H1; as_diag H2;
           eapply king_route_app2;
             [apply unit_route_king; eassumption | eassumption | ..]
       end.
  all: ends_goal.
Qed.

Lemma walks_route c l : walks c l <-> route l (start c) (finish c) /\ unit_steps l.
Proof. unfold walks, route. tauto. Qed.

Lemma fares_row c : known c -> ch c = 1 -> fares c (row c).
Proof.
  intros Hk Hh. unfold fares. repeat split.
  1-2: apply (walks_row c (known_aligned c Hk) Hh).
  1: apply (walks_row c (known_aligned c Hk) Hh).
  all: unfold diag_call, short_call, stub_call, ch in *; lia.
Qed.

Lemma fares_col c : known c -> ch c <> 1 -> cw c = 1 -> fares c (col c).
Proof.
  intros Hk Hh Hw. unfold fares. split; [|split; [|split]].
  - intros Hs. destruct (sound_col c Hs Hh Hw).
  - unfold diag_call, cw in *. lia.
  - unfold short_call, cw in *. lia.
  - intros (Hal & Ha & Hb). unfold col, ch. rewrite Hb.
    change (Z.to_nat (Z.abs (-2))) with 2%nat. cbn [fill app].
    unfold route, start, goal_stub. cbn [head last]. repeat split.
    unfold manhattan; cbn [fst snd]. unfold aligned in Hal. lia.
Qed.

Lemma fares_rec c ls :
  known c -> ch c <> 1 -> cw c <> 1 ->
  Forall2 fares (subcalls c) ls -> fares c (concat ls).
Proof.
  intros Hk Hh Hw HF. unfold fares. split; [|split; [|split]].
  - intros Hs. apply walks_route. apply walks_rec; auto.
    pose proof (sound_sub c Hs Hh Hw) as HS.
    revert HS HF. generalize (subcalls c). intros cs HS HF.
    induction HF as [|c' l' cs ls Hc _ IH]; [constructor|].
    apply Forall_cons in HS as [Hs' HS].
    constructor; [|now apply IH]. apply walks_route. now apply Hc.
  - intros Hd. now apply diag_rec.
  - intros Hs. now apply short_rec.
  - intros (_ & Ha & _). unfold cw in Hw. lia.
Qed.

(** Every call made by [gilbert2d] fares as its kind says. *)
Lemma run_fares c :
  known c ->
  exists l, fares c l /\
    forall fuel acc, cw c + ch c <= Z.of_nat fuel ->
      run fuel c acc = Some (acc ++ l).
Proof.
  apply (run_inv known fares).
  - apply known_aligned.
  - apply known_sub.
  - apply fares_row.
  - apply fares_col.
  - apply fares_rec.
Qed.

Lemma top_call_known width height :
  1 <= width -> 1 <= height -> known (top_call width height).
Proof.
  intros Hw Hh.
  pose proof (top_call_aligned width height Hw Hh) as Hal.
  destruct (decide (Z.max width height mod 2 = 0 \/ Z.min width height mod 2 = 1))
    as [Hp | Hp].
  { left. now apply top_call_sound. }
  right. revert Hal. unfold top_call, known, diag_call, short_call.
  pose proof (Z.mod_pos_bound width 2 ltac:(lia)).
  pose proof (Z.mod_pos_bound height 2 ltac:(lia)).
  pose proof (Z.div_mod width 2 ltac:(lia)).
  pose proof (Z.div_mod height 2 ltac:(lia)).
  destruct (width >=? height) eqn:E; cbn [cax cay cbx cby];
    rewrite ?Z.add_0_r, ?Z.add_0_l; intros Hal.
  - apply Z.geb_le in E. rewrite Z.max_l, Z.min_r in Hp by lia.
    destruct (Z.eq_dec height 2) as [Heq | Hne].
    + right. left. split; [exact Hal|]. repeat split; lia.
    + left. split; [exact Hal|]. repeat split; lia.
  - rewrite Z.geb_leb in E. apply Z.leb_gt in E.
    rewrite Z.max_r, Z.min_l in Hp by lia.
    destruct (Z.eq_dec width 2) as [Heq | Hne].
    + right. left. split; [exact Hal|]. repeat split; lia.
    + left. split; [exact Hal|]. repeat split; lia.
Qed.

Lemma fares_king c l : known c -> fares c l -> king_steps l.
Proof.
  intros [Hs | [Hd | [Hs | Hs]]] (F1 & F2 & F3 & F4).
  - apply unit_steps_king, F1, Hs.
  - apply F2, Hd.
  - apply unit_steps_king, F3, Hs.
  - apply unit_steps_king, F4, Hs.
Qed.

(** *** Locality (C3) *)

Example gilbert2d_5_4 :
  gilbert2d 9 5 4 =
  Some [(0,0);(1,0);(1,1);(0,1);(0,2);(0,3);(1,3);(1,2);(2,2);(2,3);(3,3);
        (4,3);(4,2);(3,2);(4,1);(3,1);(2,1);(2,0);(3,0);(4,0)].
Proof. vm_compute. reflexivity. Qed.

(** C3, as stated, fails: on the 5 x 4 grid the curve steps diagonally from
    (3,2) to (4,1), its cells of index 13 and 14. *)
Lemma gilbert2d_locality_counterexample :
  ~ (forall width height, 1 <= width -> 1 <= height ->
       forall fuel l, gilbert2d fuel width height = Some l ->
       forall (i : nat) p q, (Z.of_nat i < width * height - 1) ->
         l !! i = Some p -> l !! S i = Some q -> manhattan p q = 1).
Proof.
  intros H.
  specialize (H 5 4 ltac:(lia) ltac:(lia) 9%nat _ gilbert2d_5_4
                13%nat (3, 2) (4, 1) ltac:(lia) eq_refl eq_refl).
  vm_compute in H. discriminate.
Qed.

Lemma unit_steps_app_inv l1 l2 :
  unit_steps (l1 ++ l2) ->
  unit_steps l1 /\ unit_steps l2 /\
  (forall p q, last l1 = Some p -> head l2 = Some q -> manhattan p q = 1).
Proof.
  induction l1 as [|p [|q l1] IH]; intros H.
  - split; [exact I|]. split; [exact H|]. intros p q Hl. discriminate Hl.
  - split; [exact I|]. destruct l2 as [|q l2].
    + split; [exact I|]. intros p' q' _ Hq. discriminate Hq.
    + destruct H as [Hpq H]. split; [exact H|].
      intros p' q' Hp' Hq'. cbn in Hp', Hq'. congruence.
  - destruct H as [Hpq H]. destruct (IH H) as (H1 & H2 & Hj).
    split; [split; assumption|]. split; [exact H2|].
    intros p' q' Hl. apply Hj. exact Hl.
Qed.

Lemma diag_bends_rec c ls :
  diag_call c -> ch c <> 1 -> cw c <> 1 ->
  Forall2 bends (subcalls c) ls -> ~ unit_steps (concat ls).
Proof.
  intros Hk Hh Hw.
  assert (Hal : aligned c) by apply Hk.
  pose proof (subcalls_decrease c Hal Hh Hw) as HD.
  revert Hal Hk Hh Hw HD.
  destruct c as [x y ax ay bx by'].
  unfold diag_call, aligned, cw, ch, subcalls; cbn [cx cy cax cay cbx cby].
  intros Hal Hk Hh Hw. orient Hal.
  all: destruct Hk as (_ & ? & ? & ? & ?); try lia.
  all: rec_setup.
  all: intros Hu.
  all: match goal with
       | H1 : bends _ ?l1, H2 : bends ?c2 ?l2, H3 : bends _ ?l3,
         Hu : unit_steps (?l1 ++ ?l2 ++ ?l3) |- _ =>
           apply unit_steps_app_inv in Hu as (_ & Hu & _);
           apply unit_steps_app_inv in Hu as (Hu2 & _ & Hj);
           destruct H2 as [F2 B2]; destruct H3 as [F3 _];
           as_sound F3;
           let Eb := fresh "Eb" in
           destruct (Z.eq_dec (cbx c2 + cby c2) 2) as [Eb | Eb];
           cbn [cbx cby] in Eb; rewrite ?Z.add_0_r, ?Z.add_0_l in Eb;
           [ as_short F2
           | exact (B2 ltac:(kind_facts; lia) Hu2) ]
       | H1 : bends _ ?l1, H2 : bends _ ?l2, Hu : unit_steps (?l1 ++ ?l2) |- _ =>
           apply unit_steps_app_inv in Hu as (_ & Hu2 & _);
           destruct H2 as [_ B2];
           exact (B2 ltac:(kind_facts; lia) Hu2)
       end.
  all: match goal with
       | K2 : route _ _ (goal_short _) /\ _, K3 : route _ (start _) _ /\ _,
         Hj : forall p q, last _ = Some p -> head _ = Some q -> _ |- _ =>
           destruct K2 as [[_ L2] _]; destruct K3 as [[S3 _] _];
           specialize (Hj _ _ L2 S3); revert Hj
       end.
  all: unfold start, goal_short, manhattan; cbn [cx cy cax cay cbx cby fst snd];
       norm_signs; lia.
Qed.

Lemma bends_fares cs ls : Forall2 bends cs ls -> Forall2 fares cs ls.
Proof.
  intros H. eapply Forall2_impl; [exact H|]. now intros c l [F _].
Qed.

(** Every call made by [gilbert2d] fares as its kind says, and a call of
    the diagonal kind takes a step that is not a unit step. *)
Lemma run_bends c :
  known c ->
  exists l, bends c l /\
    forall fuel acc, cw c + ch c <= Z.of_nat fuel ->
      run fuel c acc = Some (acc ++ l).
Proof.
  apply (run_inv known bends).
  - apply known_aligned.
  - apply known_sub.
  - intros c' Hk Hh. split; [now apply fares_row|].
    unfold diag_call, ch in *. lia.
  - intros c' Hk Hh Hw. split; [now apply fares_col|].
    unfold diag_call, cw in *. lia.
  - intros c' ls Hk Hh Hw HF. split.
    + apply fares_rec; auto. now apply bends_fares.
    + intros Hd. now apply (diag_bends_rec c' ls).
Qed.

(** A walk that is not made of unit steps has a step that is not one. *)
Lemma unit_steps_fails l :
  ~ unit_steps l ->
  exists (i : nat) p q, l !! i = Some p /\ l !! S i = Some q /\ manhattan p q <> 1.
Proof.
  induction l as [|p [|q l] IH]; intros H.
  - destruct H. exact I.
  - destruct H. exact I.
  - destruct (Z.eq_dec (manhattan p q) 1) as [E | E].
    + destruct IH as (i & p' & q' & Hp & Hq & Hm).
      { intros Hu. apply H. split; assumption. }
      exists (S i), p', q'. auto.
    + exists 0%nat, p, q. auto.
Qed.

Lemma king_not_unit p q : chebyshev p q = 1 -> manhattan p q <> 1 -> manhattan p q = 2.
Proof. unfold chebyshev, manhattan. lia. Qed.

(** C3, amended: two consecutive cells of the curve always touch, by a
    side or by a corner (they differ by at most 1 in each coordinate).
    They are at Manhattan distance 1 on every grid except those whose
    larger side is odd and whose smaller side is even and at least 4, and
    on each of these the curve has a step of Manhattan distance 2. *)
Theorem gilbert2d_locality width height :
  1 <= width -> 1 <= height ->
  exists l,
    (forall fuel, width + height <= Z.of_nat fuel ->
       gilbert2d fuel width height = Some l) /\
    (forall (i : nat) p q,
       l !! i = Some p -> l !! S i = Some q -> chebyshev p q = 1) /\
    (~ (Z.max width height mod 2 = 1 /\ Z.min width height mod 2 = 0 /\
        4 <= Z.min width height) ->
     forall (i : nat) p q,
       l !! i = Some p -> l !! S i = Some q -> manhattan p q = 1) /\
    (Z.max width height mod 2 = 1 /\ Z.min width height mod 2 = 0 /\
     4 <= Z.min width height ->
     exists (i : nat) p q,
       l !! i = Some p /\ l !! S i = Some q /\ manhattan p q = 2).
Proof.
  intros Hw Hh.
  pose proof (top_call_known _ _ Hw Hh) as Hk.
  destruct (run_bends _ Hk) as (l & [Hl Hbend] & Hrun).
  assert (Hking : forall (i : nat) p q,
            l !! i = Some p -> l !! S i = Some q -> chebyshev p q = 1)
    by (apply king_steps_lookup; now apply (fares_king _ _ Hk)).
  exists l. split; [|split; [exact Hking|split]].
  - intros fuel Hf. rewrite gilbert2d_run. apply (Hrun fuel []).
    rewrite top_call_measure; assumption.
  - intros Hp. apply unit_steps_lookup.
    destruct Hl as (Hs & _ & Hsh & _).
    pose proof (Z.mod_pos_bound (Z.max width height) 2 ltac:(lia)) as Ha.
    pose proof (Z.mod_pos_bound (Z.min width height) 2 ltac:(lia)) as Hb.
    destruct (Z.eq_dec (Z.max width height mod 2) 0) as [He | Ho];
      [now apply Hs, top_call_sound; auto|].
    destruct (Z.eq_dec (Z.min width height mod 2) 1) as [Ho' | He'];
      [now apply Hs, top_call_sound; auto|].
    (* the smaller side is 2 and the larger side is odd *)
    assert (Z.min width height <> 1) as Hn1
      by (intros E; rewrite E in He'; apply He'; reflexivity).
    assert (Z.min width height <> 3) as Hn3
      by (intros E; rewrite E in He'; apply He'; reflexivity).
    assert (Z.min width height = 2) as H2 by lia.
    assert (Z.max width height <> 2) as Hm2
      by (intros E; rewrite E in Ho; apply Ho; reflexivity).
    apply Hsh. split; [now apply top_call_aligned|].
    revert Ho H2 Hm2 Ha. unfold top_call.
    destruct (Z.geb_spec width height); cbn [cax cay cbx cby];
      rewrite ?Z.add_0_r, ?Z.add_0_l.
    + rewrite Z.max_l, Z.min_r by lia. lia.
    + rewrite Z.max_r, Z.min_l by lia. lia.
  - intros (Ho & He & H4).
    assert (diag_call (top_call width height)) as Hd.
    { split; [now apply top_call_aligned|].
      revert Ho He H4. unfold top_call.
      destruct (Z.geb_spec width height); cbn [cax cay cbx cby];
        rewrite ?Z.add_0_r, ?Z.add_0_l.
      - rewrite Z.max_l, Z.min_r by lia. cbv zeta. lia.
      - rewrite Z.max_r, Z.min_l by lia. cbv zeta. lia. }
    destruct (unit_steps_fails l (Hbend Hd)) as (i & p & q & Hp & Hq & Hm).
    exists i, p, q. split; [exact Hp|]. split; [exact Hq|].
    apply king_not_unit; [|exact Hm]. now apply (Hking i).
Qed.

Lemma gilbert2d_locality_witness :
  exists l,
    (forall fuel, 5 + 2 <= Z.of_nat fuel -> gilbert2d fuel 5 2 = Some l) /\
    (forall (i : nat) p q,
       l !! i = Some p -> l !! S i = Some q -> chebyshev p q = 1) /\
    (forall (i : nat) p q,
       l !! i = Some p -> l !! S i = Some q -> manhattan p q = 1).
Proof.
  destruct (gilbert2d_locality 5 2 ltac:(lia) ltac:(lia))
    as (l & H1 & H2 & H3 & _).
  exists l. split; [exact H1|]. split; [exact H2|].
  apply H3. cbn. lia.
Defined.

(** *** Termination (C4) *)

Lemma reachable_aligned width height c :
  1 <= width -> 1 <= height -> reachable width height c -> aligned c.
Proof.
  intros Hw Hh. induction 1 as [|c c' _ IH Hch Hcw Hin].
  - now apply top_call_aligned.
  - pose proof (subcalls_decrease c IH Hch Hcw) as HD.
    rewrite Forall_forall in HD. now apply HD.
Qed.

(** C4, as stated, fails in its reason: the first call of gilbert2d(3, 2)
    has max(w, h) = 3 and so has its second recursive call. *)
Lemma max_not_reduced_counterexample :
  ~ (forall width height, 1 <= width -> 1 <= height ->
       forall c, reachable width height c -> ch c <> 1 -> cw c <> 1 ->
       forall c', c' ∈ subcalls c ->
         Z.max (cw c') (ch c') < Z.max (cw c) (ch c)).
Proof.
  intros H.
  specialize (H 3 2 ltac:(lia) ltac:(lia) _ (reach_top 3 2)
                ltac:(vm_compute; discriminate) ltac:(vm_compute; discriminate)
                (Call 0 1 3 0 0 1)).
  vm_compute in H. specialize (H ltac:(right; left)). discriminate.
Qed.

(** C4, amended: for width, height >= 1 the call returns as soon as the
    stack allows width + height nested calls, because every recursive call
    is on a rectangle with both sides >= 1 and a strictly smaller [w + h],
    and a call with [h = 1] or [w = 1] does not recur. *)
Theorem generate2d_terminates width height :
  1 <= width -> 1 <= height ->
  (forall fuel, width + height <= Z.of_nat fuel ->
     is_Some (gilbert2d fuel width height)) /\
  (forall c, reachable width height c ->
     1 <= cw c /\ 1 <= ch c /\
     (ch c <> 1 -> cw c <> 1 ->
      forall c', c' ∈ subcalls c -> cw c' + ch c' < cw c + ch c) /\
     (ch c = 1 \/ cw c = 1 ->
      forall fuel acc, is_Some (run (S fuel) c acc))).
Proof.
  intros Hw Hh. split.
  - intros fuel Hf.
    destruct (gilbert2d_curve width height Hw Hh) as (l & _ & Hl).
    rewrite (Hl fuel Hf). now exists l.
  - intros c Hc. pose proof (reachable_aligned _ _ _ Hw Hh Hc) as Hal.
    pose proof (aligned_pos c Hal) as [H1 H2].
    repeat split; try assumption.
    + intros Hch Hcw c' Hin.
      pose proof (subcalls_decrease c Hal Hch Hcw) as HD.
      rewrite Forall_forall in HD. now apply HD.
    + intros Hb fuel acc. rewrite run_unfold.
      destruct (ch c =? 1) eqn:E1; [eauto|].
      destruct (cw c =? 1) eqn:E2; [eauto|].
      apply Z.eqb_neq in E1, E2. lia.
Qed.

Lemma generate2d_terminates_witness :
  (forall fuel, 3 + 2 <= Z.of_nat fuel -> is_Some (gilbert2d fuel 3 2)) /\
  (forall c, reachable 3 2 c ->
     1 <= cw c /\ 1 <= ch c /\
     (ch c <> 1 -> cw c <> 1 ->
      forall c', c' ∈ subcalls c -> cw c' + ch c' < cw c + ch c) /\
     (ch c = 1 \/ cw c = 1 ->
      forall fuel acc, is_Some (run (S fuel) c acc))).
Proof. apply (generate2d_terminates 3 2); lia. Defined.

(** *** Degenerate dimensions, determinism and effects (C7) *)

(** [generate2d] only appends to [coordinates]. *)
Lemma run_all_appends fuel cs :
  (forall c acc l, run fuel c acc = Some l -> exists l', l = acc ++ l') ->
  forall acc l, run_all fuel cs acc = Some l -> exists l', l = acc ++ l'.
Proof.
  intros Hrun. induction cs as [|c cs IH]; intros acc l; cbn [run_all].
  - intros [= <-]. exists []. now rewrite app_nil_r.
  - destruct (run fuel c acc) as [acc'|] eqn:E; cbn; [|discriminate].
    intros Hl. destruct (Hrun _ _ _ E) as (l1 & ->).
    destruct (IH _ _ Hl) as (l2 & ->). exists (l1 ++ l2).
    now rewrite app_assoc.
Qed.

Lemma run_appends fuel : forall c acc l,
  run fuel c acc = Some l -> exists l', l = acc ++ l'.
Proof.
  induction fuel as [|fuel IH]; intros c acc l; [discriminate|].
  rewrite run_unfold.
  destruct (ch c =? 1); [intros [= <-]; eauto|].
  destruct (cw c =? 1); [intros [= <-]; eauto|].
  now apply run_all_appends.
Qed.

(** Two runs that return agree, whatever the stack they were given. *)
Lemma gilbert2d_deterministic fuel fuel' width height l l' :
  gilbert2d fuel width height = Some l ->
  gilbert2d fuel' width height = Some l' -> l = l'.
Proof.
  rewrite !gilbert2d_run. intros H H'.
  destruct (Nat.le_ge_cases fuel fuel') as [Hle | Hle].
  - apply (run_mono _ _ _ _ _ Hle) in H. congruence.
  - apply (run_mono _ _ _ _ _ Hle) in H'. congruence.
Qed.

(** gilbert2d(0, 0) recurs on itself for ever. *)
Lemma gilbert2d_0_0 fuel : gilbert2d fuel 0 0 = None.
Proof.
  rewrite gilbert2d_run. change (top_call 0 0) with (Call 0 0 0 0 0 0).
  generalize (@nil cell).
  induction fuel as [|fuel IH]; intros acc; [reflexivity|].
  rewrite run_unfold.
  change (ch (Call 0 0 0 0 0 0) =? 1) with false.
  change (cw (Call 0 0 0 0 0 0) =? 1) with false.
  change (subcalls (Call 0 0 0 0 0 0))
    with [Call 0 0 0 0 0 0; Call 0 0 0 0 0 0; Call 0 0 0 0 0 0].
  cbn [run_all]. now rewrite IH.
Qed.

(** A call with an empty minor side and a forward major vector pushes
    nothing. *)
Lemma run_flat (n : nat) : forall c fuel acc,
  (cay c = 0 \/ cax c = 0) -> cbx c = 0 -> cby c = 0 ->
  0 < cax c + cay c <= Z.of_nat n -> (n <= fuel)%nat ->
  run fuel c acc = Some acc.
Proof.
  induction n as [|n IH]; intros c fuel acc Ha Hbx Hby Hn Hf; [lia|].
  destruct fuel as [|fuel]; [lia|].
  rewrite run_unfold.
  destruct c as [x y ax ay bx by']; cbn [cx cy cax cay cbx cby] in *.
  subst bx by'. unfold ch, cw, col; cbn [cx cy cax cay cbx cby].
  change (Z.abs (0 + 0) =? 1) with false. cbv iota.
  destruct (Z.abs (ax + ay) =? 1) eqn:E.
  { cbn. now rewrite app_nil_r. }
  apply Z.eqb_neq in E. unfold subcalls.
  change (Z.abs (0 + 0)) with 0.
  destruct (2 * Z.abs (ax + ay) >? 3 * 0) eqn:E2; [|rewrite Z.gtb_ltb in E2; apply Z.ltb_ge in E2; lia].
  clear E2. cbn [run_all].
  destruct Ha as [-> | ->]; rewrite ?Z.add_0_r, ?Z.add_0_l in *;
    change (0 / 2) with 0; change (Z.sgn 0) with 0;
    rewrite ?Z.add_0_r, ?Z.add_0_l in *;
    rewrite (Z.sgn_pos _ (proj1 Hn)), (Z.abs_eq _ (Z.lt_le_incl _ _ (proj1 Hn))) in *.
  all: match goal with
       | |- context [odd_and_gt2 (Z.abs (?a / 2)) ?a] =>
           name_half a; norm_signs
       end.
  all: split_tests; name_rems.
  all: rewrite IH by (cbn [cx cy cax cay cbx cby]; auto; lia);
       cbn [mbind option_bind];
       rewrite IH by (cbn [cx cy cax cay cbx cby]; auto; lia); reflexivity.
Qed.

Lemma gilbert2d_flat n fuel :
  1 <= n -> n <= Z.of_nat fuel ->
  gilbert2d fuel n 0 = Some [] /\ gilbert2d fuel 0 n = Some [].
Proof.
  intros Hn Hf. rewrite !gilbert2d_run. unfold top_call.
  rewrite (proj2 (Z.geb_le n 0)) by lia.
  destruct (0 >=? n) eqn:E; [apply Z.geb_le in E; lia|].
  split; apply (run_flat (Z.to_nat n)); cbn [cx cy cax cay cbx cby]; auto; lia.
Qed.

(** C7, as stated, fails: gilbert2d(0, 0) never returns, and
    gilbert2d(-1, -2) returns two cells. *)
Lemma gilbert2d_degenerate_counterexample :
  ~ (forall width height, width <= 0 \/ height <= 0 ->
       exists fuel, gilbert2d fuel width height = Some []).
Proof.
  intros H. destruct (H 0 0 ltac:(lia)) as (fuel & Hf).
  rewrite gilbert2d_0_0 in Hf. discriminate.
Qed.

Example gilbert2d_negative fuel :
  gilbert2d (S fuel) (-1) (-2) = Some [(0, 0); (0, -1)].
Proof. reflexivity. Qed.

(** C7, amended: for width, height >= 1 the call succeeds with one result
    whatever the stack, and it only appends to the array it is given; when
    one dimension is 0 and the other is >= 1 it returns the empty
    sequence. *)
Theorem gilbert2d_total width height :
  1 <= width -> 1 <= height ->
  (exists l, forall fuel, width + height <= Z.of_nat fuel ->
     gilbert2d fuel width height = Some l) /\
  (forall fuel fuel' l l',
     gilbert2d fuel width height = Some l ->
     gilbert2d fuel' width height = Some l' -> l = l') /\
  (forall fuel c acc l, run fuel c acc = Some l -> exists l', l = acc ++ l') /\
  (forall fuel, width <= Z.of_nat fuel ->
     gilbert2d fuel width 0 = Some [] /\ gilbert2d fuel 0 width = Some []).
Proof.
  intros Hw Hh. split; [|split; [|split]].
  - destruct (gilbert2d_curve width height Hw Hh) as (l & _ & Hl). eauto.
  - intros fuel fuel' l l'. apply gilbert2d_deterministic.
  - intros fuel c acc l. apply run_appends.
  - intros fuel Hf. now apply gilbert2d_flat.
Qed.

Lemma gilbert2d_total_witness :
  (exists l, forall fuel, 3 + 2 <= Z.of_nat fuel ->
     gilbert2d fuel 3 2 = Some l) /\
  (forall fuel fuel' l l',
     gilbert2d fuel 3 2 = Some l ->
     gilbert2d fuel' 3 2 = Some l' -> l = l') /\
  (forall fuel c acc l, run fuel c acc = Some l -> exists l', l = acc ++ l') /\
  (forall fuel, 3 <= Z.of_nat fuel ->
     gilbert2d fuel 3 0 = Some [] /\ gilbert2d fuel 0 3 = Some []).
Proof. apply (gilbert2d_total 3 2); lia. Defined.

(** C9: the three stated vectors. *)
Theorem gilbert2d_vectors fuel :
  gilbert2d (S fuel) 4 1 = Some [(0,0); (1,0); (2,0); (3,0)] /\
  gilbert2d (S fuel) 1 4 = Some [(0,0); (0,1); (0,2); (0,3)] /\
  gilbert2d (S (S fuel)) 2 2 = Some [(0,0); (0,1); (1,1); (1,0)].
Proof.
  split; [reflexivity | split; [reflexivity|]].
  rewrite gilbert2d_run. apply (run_mono 2); [lia | reflexivity].
Qed.

Lemma gilbert2d_1_1 fuel : gilbert2d (S fuel) 1 1 = Some [(0, 0)].
Proof. reflexivity. Qed.


Import Js Confusion.

(** ** Facts about the loops and the arrays *)

Lemma for_loop_ind {St} (I : Z -> St -> Prop) n (body : Z -> St -> St) s :
  0 <= n ->
  I 0 s ->
  (forall i s, 0 <= i < n -> I i s -> I (i + 1) (body i s)) ->
  I n (for_loop n body s).
Proof.
  intros Hn H0 Hstep. unfold for_loop.
  assert (forall m : nat, (m <= Z.to_nat n)%nat ->
            I (Z.of_nat m) (fold_left (fun s i => body (Z.of_nat i) s) (seq 0 m) s))
    as Hm.
  { induction m as [|m IH]; intros Hle; [exact H0|].
    rewrite seq_S, fold_left_app. cbn [fold_left Nat.add].
    replace (Z.of_nat (S m)) with (Z.of_nat m + 1) by lia.
    apply Hstep; [lia|]. apply IH. lia. }
  replace n with (Z.of_nat (Z.to_nat n)) at 1 by lia.
  now apply Hm.
Qed.

Lemma for_loop_opt_ind {St} (I : Z -> St -> Prop) n
    (body : Z -> St -> option St) s :
  0 <= n ->
  I 0 s ->
  (forall i s, 0 <= i < n -> I i s ->
     exists s', body i s = Some s' /\ I (i + 1) s') ->
  exists s', for_loop_opt n body s = Some s' /\ I n s'.
Proof.
  intros Hn H0 Hstep. unfold for_loop_opt.
  assert (forall m : nat, (m <= Z.to_nat n)%nat ->
            exists s', fold_left (fun s i => s ≫= body (Z.of_nat i)) (seq 0 m) (Some s)
                       = Some s' /\ I (Z.of_nat m) s')
    as Hm.
  { induction m as [|m IH]; intros Hle; [now exists s|].
    rewrite seq_S, fold_left_app. cbn [fold_left Nat.add].
    destruct (IH ltac:(lia)) as (s1 & -> & H1). cbn [mbind option_bind].
    replace (Z.of_nat (S m)) with (Z.of_nat m + 1) by lia.
    apply Hstep; [lia | exact H1]. }
  destruct (Hm (Z.to_nat n) ltac:(lia)) as (s' & Hs' & HI).
  exists s'. split; [exact Hs'|]. now replace n with (Z.of_nat (Z.to_nat n)) by lia.
Qed.

Lemma stride_loop_ind {St} (I : Z -> St -> Prop) stop step
    (body : Z -> St -> option St) :
  0 < step ->
  (forall i s, i < stop -> I i s -> exists s', body i s = Some s' /\ I (i + step) s') ->
  forall fuel i s, I i s -> Z.max 0 (stop - i) < Z.of_nat fuel ->
  exists s' j, stride_loop fuel i stop step body s = Some s' /\ I j s' /\ stop <= j.
Proof.
  intros Hstep Hbody. induction fuel as [|fuel IH]; intros i s Hi Hf.
  - lia.
  - cbn [stride_loop]. destruct (i <? stop) eqn:E.
    + apply Z.ltb_lt in E. destruct (Hbody i s E Hi) as (s1 & -> & H1).
      cbn [mbind option_bind]. apply IH; [exact H1 | lia].
    + apply Z.ltb_ge in E. exists s, i. auto.
Qed.

Lemma at_index_lookup {A} (a : list A) (k : nat) :
  at_index a (Z.of_nat k) = a !! k.
Proof.
  unfold at_index. destruct (Z.of_nat k <? 0) eqn:E; [apply Z.ltb_lt in E; lia|].
  now rewrite Nat2Z.id.
Qed.

Lemma store_lookup {A} (a : list A) (i : nat) (v : A) (k : nat) :
  (i < length a)%nat ->
  store a (Z.of_nat i) v !! k = if decide (k = i) then Some v else a !! k.
Proof.
  intros Hi. unfold store.
  destruct (Z.of_nat i <? 0) eqn:E; [apply Z.ltb_lt in E; lia|].
  rewrite Nat2Z.id. destruct (decide (k = i)) as [-> | Hne].
  - now apply list_lookup_insert_eq.
  - apply list_lookup_insert_ne. congruence.
Qed.

Lemma store_length {A} (a : list A) i (v : A) : length (store a i v) = length a.
Proof. unfold store. destruct (i <? 0); [reflexivity | apply length_insert]. Qed.

Lemma at_index_store {A} (a : list A) i (v : A) k :
  0 <= i < Z.of_nat (length a) ->
  at_index (store a i v) k = if decide (k = i) then Some v else at_index a k.
Proof.
  intros Hi. unfold at_index, store.
  destruct (i <? 0) eqn:Ei; [apply Z.ltb_lt in Ei; lia|].
  destruct (k <? 0) eqn:Ek.
  - apply Z.ltb_lt in Ek. destruct (decide (k = i)); [lia | reflexivity].
  - apply Z.ltb_ge in Ek. destruct (decide (k = i)) as [-> | Hne].
    + apply list_lookup_insert_eq. lia.
    + apply list_lookup_insert_ne. lia.
Qed.

Lemma at_index_Some {A} (a : list A) k :
  0 <= k < Z.of_nat (length a) -> exists v, at_index a k = Some v.
Proof.
  intros Hk. unfold at_index.
  destruct (k <? 0) eqn:Ek; [apply Z.ltb_lt in Ek; lia|].
  apply lookup_lt_is_Some_2. lia.
Qed.

(** Positions [b * n + a] with [0 <= a < n] determine [b] and [a]. *)
Lemma lin_inj n a b a' b' :
  0 <= a < n -> 0 <= a' < n -> b * n + a = b' * n + a' -> b = b' /\ a = a'.
Proof.
  intros Ha Ha' H.
  assert (b = b') as -> by nia. lia.
Qed.

Lemma sample_inj width X Y c X' Y' c' :
  0 <= X < width -> 0 <= X' < width -> 0 <= c < 4 -> 0 <= c' < 4 ->
  (Y * width + X) * 4 + c = (Y' * width + X') * 4 + c' ->
  X = X' /\ Y = Y' /\ c = c'.
Proof.
  intros HX HX' Hc Hc' H.
  destruct (lin_inj 4 c (Y * width + X) c' (Y' * width + X') Hc Hc' H) as [H1 ->].
  destruct (lin_inj width X Y X' Y' HX HX' H1) as [-> ->]. auto.
Qed.

(** ** The block-smooth transform (C6) *)

Section Tile.

Variables (data : list Z) (sx sy bw bh width : Z) (strength : float).
Hypothesis Hwidth : 0 < width.
Hypothesis Hsx : 0 <= sx.
Hypothesis Hsy : 0 <= sy.
Hypothesis Hbw : 0 <= bw.
Hypothesis Hbh : 0 <= bh.
Hypothesis Hfit_x : sx + bw <= width.
Hypothesis Hfit_y : 4 * width * (sy + bh) <= Z.of_nat (length data).
Hypothesis Hbytes : forall k v, at_index data k = Some v -> 0 <= v < 256.

Local Abbreviation captured := (Confusion.captured data sx sy bw bh width).
Local Abbreviation tile_done := (Confusion.tile_done sx sy bw).
Local Abbreviation rewritten :=
  (Confusion.rewritten data sx sy bw bh width strength).

Lemma tile_sample_in_range dx dy c :
  0 <= dx < bw -> 0 <= dy < bh -> 0 <= c < 4 ->
  0 <= ((sy + dy) * width + (sx + dx)) * 4 + c < Z.of_nat (length data).
Proof. intros Hdx Hdy Hc. nia. Qed.

Lemma temp_in_range dx dy c :
  0 <= dx < bw -> 0 <= dy < bh -> 0 <= c < 4 ->
  0 <= (dy * bw + dx) * 4 + c < bw * bh * 4.
Proof. intros Hdx Hdy Hc. nia. Qed.

Lemma temp_inj dx dy c dx' dy' c' :
  0 <= dx < bw -> 0 <= dx' < bw -> 0 <= c < 4 -> 0 <= c' < 4 ->
  (dy * bw + dx) * 4 + c = (dy' * bw + dx') * 4 + c' ->
  dx = dx' /\ dy = dy' /\ c = c'.
Proof. apply sample_inj. Qed.

Lemma to_uint8_byte k :
  0 <= k < Z.of_nat (length data) -> Some (to_uint8 (at_index data k)) = at_index data k.
Proof.
  intros Hk. destruct (at_index_Some data k Hk) as (v & Hv).
  rewrite Hv. cbn. rewrite Z.mod_small; [reflexivity|]. eauto.
Qed.

Lemma capture_tile_spec :
  captured bh 0 (capture_tile data sx sy bw bh width).
Proof.
  unfold capture_tile.
  apply (for_loop_ind (fun dy od => captured dy 0 od)); [exact Hbh | |].
  - split; [rewrite length_replicate; lia|]. intros; lia.
  - intros dy od Hdy Hod.
    assert (captured dy bw
      (for_loop bw (fun dx originalData =>
        let index := ((sy + dy) * width + (sx + dx)) * 4 in
        let tempIndex := (dy * bw + dx) * 4 in
        let originalData :=
          store originalData tempIndex (to_uint8 (at_index data index)) in
        let originalData :=
          store originalData (tempIndex + 1) (to_uint8 (at_index data (index + 1))) in
        let originalData :=
          store originalData (tempIndex + 2) (to_uint8 (at_index data (index + 2))) in
        store originalData (tempIndex + 3) (to_uint8 (at_index data (index + 3)))) od))
      as [HL HC].
    { apply (for_loop_ind (fun dx od => captured dy dx od));
        [exact Hbw | exact Hod |].
      clear od Hod. intros dx od Hdx [HL HC]. cbv zeta. split.
      { now rewrite !store_length. }
      intros dx' dy' c Hdx' Hdy' Hc Hdone.
      pose proof (temp_in_range dx dy 0 Hdx Hdy ltac:(lia)).
      pose proof (temp_in_range dx dy 3 Hdx Hdy ltac:(lia)).
      pose proof (tile_sample_in_range dx dy 0 Hdx Hdy ltac:(lia)).
      pose proof (tile_sample_in_range dx dy 3 Hdx Hdy ltac:(lia)).
      rewrite !at_index_store by (rewrite ?store_length; lia).
      destruct (decide (dx' = dx /\ dy' = dy)) as [[-> ->] | Hother].
      - (* the pixel just copied *)
        repeat match goal with
        | |- context [decide (?a = ?b)] =>
            destruct (decide (a = b)); [|]
        end; try lia;
        rewrite to_uint8_byte by lia; f_equal; lia.
      - (* a pixel copied earlier *)
        assert (Hne : forall c', 0 <= c' < 4 ->
                  (dy' * bw + dx') * 4 + c <> (dy * bw + dx) * 4 + c').
        { intros c' Hc' E.
          apply (temp_inj dx' dy' c dx dy c' Hdx' Hdx Hc Hc') in E. lia. }
        repeat match goal with
        | |- context [decide (?a = ?b)] =>
            destruct (decide (a = b)) as [E | _]; [exfalso|]
        end.
        5: { apply HC; auto. lia. }
        all: first [ apply (Hne 0 ltac:(lia)); lia | apply (Hne 1 ltac:(lia)); lia
                   | apply (Hne 2 ltac:(lia)); lia | apply (Hne 3 ltac:(lia)); lia ]. }
    split; [exact HL|]. intros dx' dy' c Hdx' Hdy' Hc Hdone.
    apply HC; auto. lia.
Qed.

Lemma rewrite_pixel od dy dx s :
  captured bh 0 od -> 0 <= dy < bh -> 0 <= dx < bw ->
  rewritten dy dx s ->
  rewritten dy (dx + 1)
    (let index := ((sy + dy) * width + (sx + dx)) * 4 in
     let tempIndex := (dy * bw + dx) * 4 in
     let smooth := smoothFactor dx dy bw bh strength in
     let data :=
       store s index
         (blend smooth (at_index s index) (at_index od tempIndex)) in
     let data :=
       store data (index + 1)
         (blend smooth (at_index data (index + 1)) (at_index od (tempIndex + 1))) in
     store data (index + 2)
       (blend smooth (at_index data (index + 2)) (at_index od (tempIndex + 2)))).
Proof.
  intros [_ Hod] Hdy Hdx [HL HS]. cbv zeta.
  set (idx := ((sy + dy) * width + (sx + dx)) * 4).
  set (sf := smoothFactor dx dy bw bh strength).
  pose proof (tile_sample_in_range dx dy 0 Hdx Hdy ltac:(lia)) as R0.
  pose proof (tile_sample_in_range dx dy 3 Hdx Hdy ltac:(lia)) as R3.
  fold idx in R0, R3.
  (* what the three reads see *)
  assert (Hcur : forall c, 0 <= c < 3 ->
            at_index s (idx + c) = at_index data (idx + c) /\
            at_index od ((dy * bw + dx) * 4 + c) = at_index data (idx + c)).
  { intros c Hc. split.
    - apply (HS (sx + dx) (sy + dy) c); [lia | lia|].
      unfold Confusion.tile_done. lia.
    - apply Hod; auto; lia. }
  destruct (Hcur 0 ltac:(lia)) as [C0 O0].
  destruct (Hcur 1 ltac:(lia)) as [C1 O1].
  destruct (Hcur 2 ltac:(lia)) as [C2 O2].
  rewrite Z.add_0_r in C0, O0.
  rewrite !at_index_store by (rewrite ?store_length; lia).
  repeat match goal with
  | |- context [decide (?a = ?b)] =>
      destruct (decide (a = b)); [lia|]
  end.
  rewrite C0, C1, C2, O0, O1, O2.
  split; [now rewrite !store_length|].
  intros X Y c HX Hc k.
  rewrite !at_index_store by (rewrite ?store_length; lia).
  destruct (decide (X = sx + dx /\ Y = sy + dy)) as [[-> ->] | Hother].
  - subst k. fold idx.
    replace (sx + dx - sx) with dx by lia.
    replace (sy + dy - sy) with dy by lia. fold sf.
    repeat match goal with
    | |- context [decide (?a = ?b)] =>
        destruct (decide (a = b)) as [E | ?]
    end; try lia.
    + replace c with 2 by lia. split; [reflexivity | unfold Confusion.tile_done; lia].
    + replace c with 1 by lia. split; [reflexivity | unfold Confusion.tile_done; lia].
    + replace c with 0 by lia. rewrite Z.add_0_r.
      split; [reflexivity | unfold Confusion.tile_done; lia].
    + assert (c = 3) by lia. subst c. split; [lia|]. intros _.
      apply (HS (sx + dx) (sy + dy) 3); [lia | lia | lia].
  - assert (Hne : forall c', 0 <= c' < 4 -> k <> idx + c').
    { intros c' Hc' E. subst k idx.
      apply sample_inj in E; lia. }
    repeat match goal with
    | |- context [decide (?a = ?b)] =>
        destruct (decide (a = b)) as [E | _]; [exfalso|]
    end.
    4: { destruct (HS X Y c HX Hc) as [H1 H2]. fold k in H1, H2.
         split.
         - intros Hd Hc3. apply H1; [|exact Hc3]. unfold Confusion.tile_done in *. lia.
         - intros Hd. apply H2. unfold Confusion.tile_done in *. lia. }
    all: first [ apply (Hne 0 ltac:(lia)); lia | apply (Hne 1 ltac:(lia)); lia
               | apply (Hne 2 ltac:(lia)); lia ].
Qed.

Lemma rewrite_tile_spec od :
  captured bh 0 od ->
  rewritten bh 0 (rewrite_tile od data sx sy bw bh width strength).
Proof.
  intros Hod. unfold rewrite_tile.
  apply (for_loop_ind (fun dy s => rewritten dy 0 s)); [exact Hbh | |].
  - split; [reflexivity|]. intros X Y c HX Hc k. split.
    + unfold Confusion.tile_done. lia.
    + reflexivity.
  - intros dy s Hdy Hs.
    match goal with
    | |- rewritten _ _ (for_loop bw ?body s) =>
        assert (rewritten dy bw (for_loop bw body s)) as [HL HS]
    end.
    { apply (for_loop_ind (fun dx s => rewritten dy dx s));
        [exact Hbw | exact Hs |].
      intros dx s' Hdx Hs'. now apply rewrite_pixel. }
    split; [exact HL|]. intros X Y c HX Hc k.
    destruct (HS X Y c HX Hc) as [H1 H2]. fold k in H1, H2. split.
    + intros Hd Hc3. apply H1; [|exact Hc3]. unfold Confusion.tile_done in *. lia.
    + intros Hd. apply H2. unfold Confusion.tile_done in *. lia.
Qed.

(** What [processBlockSmooth] does to each sample. *)
Lemma processBlockSmooth_spec :
  rewritten bh 0 (processBlockSmooth data sx sy bw bh width strength).
Proof. apply rewrite_tile_spec, capture_tile_spec. Qed.

End Tile.

Lemma floor_clamped_byte x : 0 <= floor_clamped x < 256.
Proof.
  unfold floor_clamped. destruct (Prim2SF x) as [| [|] | |]; lia.
Qed.

Lemma blend_byte sf a b : 0 <= blend sf a b < 256.
Proof. apply floor_clamped_byte. Qed.

(** Every sample position is [(Y * width + X) * 4 + c] for the pixel
    [(X, Y)] and the channel [c] it decodes to. *)
Lemma sample_decode width k :
  0 < width -> 0 <= k ->
  let p := k / 4 in
  k = (p / width * width + p mod width) * 4 + k mod 4 /\
  0 <= p mod width < width /\ 0 <= p / width /\ 0 <= k mod 4 < 4.
Proof.
  intros Hw Hk p.
  pose proof (Z.div_mod k 4 ltac:(lia)).
  pose proof (Z.mod_pos_bound k 4 ltac:(lia)).
  pose proof (Z.div_mod p width ltac:(lia)).
  pose proof (Z.mod_pos_bound p width ltac:(lia)).
  assert (0 <= p) by (apply Z.div_pos; lia).
  assert (0 <= p / width) by (apply Z.div_pos; lia).
  fold p in H. lia.
Qed.

Lemma tile_start bs x X :
  0 < bs -> x mod bs = 0 -> x <= X < x + bs -> X / bs * bs = x.
Proof.
  intros Hbs Hx HX.
  pose proof (Z.div_mod x bs ltac:(lia)) as Hd. rewrite Hx in Hd.
  rewrite <- (Z.div_unique X bs (x / bs) (X - x)); lia.
Qed.

Section Tiles.

Variables (data : list Z) (width height blockSize : Z) (strength : float).
Hypothesis Hwidth : 0 < width.
Hypothesis Hheight : 0 < height.
Hypothesis Hbs : 0 < blockSize.
Hypothesis Hlen : Z.of_nat (length data) = 4 * width * height.
Hypothesis Hbytes : forall k v, at_index data k = Some v -> 0 <= v < 256.

Local Abbreviation tiles_done := (Confusion.tiles_done blockSize).
Local Abbreviation tiled :=
  (Confusion.tiled data width height blockSize strength).

Lemma tiled_bytes y_c x_c s :
  tiled y_c x_c s -> forall k v, at_index s k = Some v -> 0 <= v < 256.
Proof.
  intros [HL HS] k v Hv.
  assert (0 <= k < Z.of_nat (length s)) as Hk.
  { unfold at_index in Hv. destruct (k <? 0) eqn:E; [discriminate|].
    apply Z.ltb_ge in E. apply lookup_lt_Some in Hv. lia. }
  destruct (sample_decode width k Hwidth ltac:(lia)) as (Ek & HX & HY & Hc).
  set (X := (k / 4) mod width) in *. set (Y := k / 4 / width) in *.
  set (c := k mod 4) in *.
  assert (Y < height) by nia.
  destruct (HS X Y c HX ltac:(lia) Hc) as [H1 H2]. rewrite <- Ek in H1, H2.
  destruct (decide ((Y < y_c \/ (y_c <= Y < y_c + blockSize /\ X < x_c)) /\ c < 3))
    as [[Hd Hc3] | Hn].
  - rewrite (H1 Hd Hc3) in Hv. injection Hv as <-. apply blend_byte.
  - rewrite (H2 Hn) in Hv. eauto.
Qed.

Lemma tile_step y x s :
  0 <= y < height -> y mod blockSize = 0 ->
  0 <= x < width -> x mod blockSize = 0 ->
  tiled y x s ->
  tiled y (x + blockSize)
    (processBlockSmooth s x y (Z.min blockSize (width - x))
       (Z.min blockSize (height - y)) width strength).
Proof.
  intros Hy Hym Hx Hxm Hs.
  pose proof (tiled_bytes _ _ _ Hs) as Hb. destruct Hs as [HL HS].
  set (bw := Z.min blockSize (width - x)).
  set (bh := Z.min blockSize (height - y)).
  destruct (processBlockSmooth_spec s x y bw bh width strength)
    as [HL' HS']; try lia; [nia | exact Hb |].
  split; [congruence|].
  intros X Y c HX HY Hc k.
  destruct (HS' X Y c HX Hc) as [H1 H2]. fold k in H1, H2.
  destruct (HS X Y c HX HY Hc) as [G1 G2]. fold k in G1, G2.
  unfold Confusion.tile_done in H1, H2. unfold Confusion.tiles_done in *.
  destruct (decide (x <= X < x + bw /\ y <= Y < y + bh)) as [Hin | Hout].
  - (* a pixel of this tile *)
    assert (at_index s k = at_index data k) as Es by (apply G2; lia).
    split.
    + intros _ Hc3. rewrite H1 by lia. rewrite Es.
      unfold smooth_at.
      rewrite (tile_start blockSize x X), (tile_start blockSize y Y) by lia.
      reflexivity.
    + intros Hn. rewrite H2 by lia. exact Es.
  - (* any other pixel *)
    rewrite H2 by lia. split.
    + intros Hd Hc3. apply G1; lia.
    + intros Hn. apply G2. lia.
Qed.

Lemma tiles_row fuel y s :
  0 <= y < height -> y mod blockSize = 0 -> width < Z.of_nat fuel ->
  tiled y 0 s ->
  exists s',
    stride_loop fuel 0 width blockSize (fun x data =>
      Some (processBlockSmooth data x y (Z.min blockSize (width - x))
              (Z.min blockSize (height - y)) width strength)) s = Some s' /\
    tiled (y + blockSize) 0 s'.
Proof.
  intros Hy Hym Hf Hs.
  destruct (stride_loop_ind
    (fun x s => 0 <= x /\ x mod blockSize = 0 /\ tiled y x s)
    width blockSize
    (fun x data =>
      Some (processBlockSmooth data x y (Z.min blockSize (width - x))
              (Z.min blockSize (height - y)) width strength)) Hbs)
    with (fuel := fuel) (i := 0) (s := s) as (s' & j & Hrun & (Hj & _ & [HL HS]) & Hend).
  - intros x s0 Hx (Hx0 & Hxm & Hs0). eexists. split; [reflexivity|].
    split; [lia|]. split.
    + rewrite <- Zplus_mod_idemp_r, Z.mod_same, Z.add_0_r by lia. exact Hxm.
    + apply tile_step; auto; lia.
  - split; [lia|]. split; [apply Z.mod_0_l; lia | exact Hs].
  - lia.
  - exists s'. split; [exact Hrun|]. split; [exact HL|].
    intros X Y c HX HY Hc k.
    destruct (HS X Y c HX HY Hc) as [G1 G2]. fold k in G1, G2.
    unfold Confusion.tiles_done in *. split.
    + intros Hd Hc3. apply G1; lia.
    + intros Hn. apply G2. lia.
Qed.

Lemma tiles_all fuel :
  Z.max width height < Z.of_nat fuel ->
  exists s',
    applyBlockConfusion fuel data width height blockSize strength = Some s' /\
    tiled height 0 s'.
Proof.
  intros Hf. unfold applyBlockConfusion.
  destruct (stride_loop_ind
    (fun y s => 0 <= y /\ y mod blockSize = 0 /\ tiled y 0 s)
    height blockSize
    (fun y data =>
      stride_loop fuel 0 width blockSize (fun x data =>
        Some (processBlockSmooth data x y (Z.min blockSize (width - x))
                (Z.min blockSize (height - y)) width strength)) data) Hbs)
    with (fuel := fuel) (i := 0) (s := data) as (s' & j & Hrun & (Hj & _ & [HL HS]) & Hend).
  - intros y s0 Hy (Hy0 & Hym & Hs0).
    destruct (tiles_row fuel y s0) as (s1 & Hrun & Hs1); auto; try lia.
    exists s1. split; [exact Hrun|]. split; [lia|]. split; [|exact Hs1].
    rewrite <- Zplus_mod_idemp_r, Z.mod_same, Z.add_0_r by lia. exact Hym.
  - split; [lia|]. split; [apply Z.mod_0_l; lia|].
    split; [reflexivity|]. intros X Y c HX HY Hc k. unfold Confusion.tiles_done. split.
    + lia.
    + reflexivity.
  - lia.
  - exists s'. split; [exact Hrun|]. split; [exact HL|].
    intros X Y c HX HY Hc k.
    destruct (HS X Y c HX HY Hc) as [G1 G2]. fold k in G1, G2.
    unfold Confusion.tiles_done in *. split.
    + intros Hd Hc3. apply G1; lia.
    + intros Hn. apply G2. lia.
Qed.

End Tiles.

(** C6: on an image of bytes, the block-smooth transform is the map
    [v ↦ floor(v * smoothFactor + v * (1 - smoothFactor))] applied to each
    colour sample on its own: the snapshot and the current value of a
    sample are equal whenever the sample is rewritten. *)
Theorem block_smooth_is_sample_map fuel data width height blockSize strength :
  0 < width -> 0 < height -> 0 < blockSize ->
  Z.of_nat (length data) = 4 * width * height ->
  Forall (fun v => 0 <= v < 256) data ->
  Z.max width height < Z.of_nat fuel ->
  applyBlockConfusion fuel data width height blockSize strength =
  Some (smooth_map data width height blockSize strength).
Proof.
  intros Hw Hh Hbs Hlen Hbytes Hf.
  assert (Hb : forall k v, at_index data k = Some v -> 0 <= v < 256).
  { intros k v Hv. unfold at_index in Hv. destruct (k <? 0); [discriminate|].
    rewrite Forall_lookup in Hbytes. eauto. }
  destruct (tiles_all data width height blockSize strength Hw Hh Hbs Hlen Hb fuel Hf)
    as (s & -> & HL & HS).
  f_equal. apply list_eq. intros k. unfold smooth_map.
  rewrite list_lookup_imap.
  destruct (data !! k) as [v|] eqn:Ev.
  2: { cbn. apply lookup_ge_None. apply lookup_ge_None in Ev. lia. }
  cbn [fmap option_fmap option_map].
  pose proof (lookup_lt_Some _ _ _ Ev) as Hk.
  destruct (sample_decode width (Z.of_nat k) Hw ltac:(lia)) as (Ek & HX & HY & Hc).
  set (X := (Z.of_nat k / 4) mod width) in *.
  set (Y := Z.of_nat k / 4 / width) in *.
  set (c := Z.of_nat k mod 4) in *.
  assert (Y < height) by nia.
  destruct (HS X Y c HX ltac:(lia) Hc) as [H1 H2]. rewrite <- Ek in H1, H2.
  rewrite !at_index_lookup, Ev in H1, H2.
  destruct (c =? 3) eqn:E3.
  - apply Z.eqb_eq in E3. apply H2. lia.
  - apply Z.eqb_neq in E3. apply H1; [|lia]. unfold Confusion.tiles_done. lia.
Qed.

Lemma block_smooth_is_sample_map_witness :
  applyBlockConfusion 5 [1;2;3;4;5;6;7;8;9;10;11;12;13;14;15;16] 2 2 8 2 =
  Some (smooth_map [1;2;3;4;5;6;7;8;9;10;11;12;13;14;15;16] 2 2 8 2).
Proof.
  apply (block_smooth_is_sample_map 5 _ 2 2 8 2);
    [lia | lia | lia | reflexivity | repeat constructor; lia | cbn; lia].
Defined.

(** ** Mode selection (C8) *)

(** C8: for an image with a width and a height, a block size below 8
    selects the Gilbert permutation and a block size of 8 or more the
    block-smooth transform. *)
Theorem encrypt_mode_selection fuel data width height strength blockSize :
  1 <= width -> 1 <= height ->
  (blockSize < 8 ->
   encrypt_pixels fuel data width height strength blockSize =
   applyGilbertConfusion fuel data width height strength) /\
  (8 <= blockSize ->
   encrypt_pixels fuel data width height strength blockSize =
   applyBlockConfusion fuel data width height blockSize strength).
Proof.
  intros Hw Hh. unfold encrypt_pixels.
  rewrite (proj2 (Z.eqb_neq width 0)), (proj2 (Z.eqb_neq height 0)) by lia.
  cbn [orb]. split; intros Hb.
  - now rewrite (proj2 (Z.ltb_lt blockSize 8)).
  - now rewrite (proj2 (Z.ltb_ge blockSize 8)).
Qed.

Lemma encrypt_mode_selection_witness :
  (4 < 8 ->
   encrypt_pixels 5 [1;2;3;4] 1 1 1 4 = applyGilbertConfusion 5 [1;2;3;4] 1 1 1) /\
  (8 <= 4 ->
   encrypt_pixels 5 [1;2;3;4] 1 1 1 4 = applyBlockConfusion 5 [1;2;3;4] 1 1 4 1).
Proof. apply (encrypt_mode_selection 5 [1;2;3;4] 1 1 1 4); lia. Defined.

(** ** The permutation along the curve *)

Lemma at_index_app_l {A} (a b : list A) k :
  k < Z.of_nat (length a) -> at_index (a ++ b) k = at_index a k.
Proof.
  intros Hk. unfold at_index. destruct (k <? 0) eqn:E; [reflexivity|].
  apply Z.ltb_ge in E. apply lookup_app_l. lia.
Qed.

Lemma at_index_app_r {A} (a b : list A) k :
  Z.of_nat (length a) <= k ->
  at_index (a ++ b) k = at_index b (k - Z.of_nat (length a)).
Proof.
  intros Hk. unfold at_index.
  destruct (k <? 0) eqn:E; [apply Z.ltb_lt in E; lia|].
  destruct (k - Z.of_nat (length a) <? 0) eqn:E'; [apply Z.ltb_lt in E'; lia|].
  rewrite lookup_app_r by lia. f_equal. lia.
Qed.

Lemma at_index_take {A} (a : list A) (n : nat) k :
  k < Z.of_nat n -> at_index (take n a) k = at_index a k.
Proof.
  intros Hk. unfold at_index. destruct (k <? 0) eqn:E; [reflexivity|].
  apply Z.ltb_ge in E. apply lookup_take_lt. lia.
Qed.

Lemma at_index_drop {A} (a : list A) (n : nat) k :
  0 <= k -> at_index (drop n a) k = at_index a (Z.of_nat n + k).
Proof.
  intros Hk. unfold at_index.
  destruct (k <? 0) eqn:E; [apply Z.ltb_lt in E; lia|].
  destruct (Z.of_nat n + k <? 0) eqn:E'; [apply Z.ltb_lt in E'; lia|].
  rewrite lookup_drop. f_equal. lia.
Qed.

(** [slice] of four samples inside the array. *)
Lemma slice_pixel {A} (a : list A) p :
  0 <= p -> p + 4 <= Z.of_nat (length a) ->
  length (slice a p (p + 4)) = 4%nat /\
  forall j, 0 <= j < 4 -> at_index (slice a p (p + 4)) j = at_index a (p + j).
Proof.
  intros Hp Hfit. unfold slice.
  destruct (p <? 0) eqn:E1; [apply Z.ltb_lt in E1; lia|].
  destruct (p + 4 <? 0) eqn:E2; [apply Z.ltb_lt in E2; lia|].
  rewrite !Z.min_l by lia.
  replace (Z.to_nat (p + 4 - p)) with 4%nat by lia. split.
  - rewrite length_take, length_drop. lia.
  - intros j Hj. rewrite at_index_take by lia.
    rewrite at_index_drop by lia. f_equal. lia.
Qed.

(** [set] of a source that fits. *)
Lemma set_fits {A} (target source : list A) off :
  0 <= off -> off + Z.of_nat (length source) <= Z.of_nat (length target) ->
  exists t, set target source off = Some t /\
    length t = length target /\
    forall k, at_index t k =
      if decide (off <= k < off + Z.of_nat (length source))
      then at_index source (k - off) else at_index target k.
Proof.
  intros Hoff Hfit. unfold set.
  destruct (off <? 0) eqn:E1; [apply Z.ltb_lt in E1; lia|].
  destruct (Z.of_nat (length target) <? off + Z.of_nat (length source)) eqn:E2;
    [apply Z.ltb_lt in E2; lia|].
  cbn [orb]. eexists. split; [reflexivity|]. split.
  - rewrite !length_app, length_take, length_drop. lia.
  - intros k. destruct (decide (off <= k < off + Z.of_nat (length source))) as [Hin | Hout].
    + rewrite at_index_app_r by (rewrite length_take; lia).
      rewrite length_take, at_index_app_l by lia. f_equal. lia.
    + destruct (Z.lt_ge_cases k off) as [Hlt | Hge].
      * rewrite at_index_app_l by (rewrite length_take; lia).
        apply at_index_take. lia.
      * rewrite at_index_app_r by (rewrite length_take; lia).
        rewrite length_take, at_index_app_r by lia.
        rewrite at_index_drop by lia. f_equal. lia.
Qed.

Section Permutation.

Variables (width height : Z) (curve : list cell) (offset : Z).
Hypothesis Hwidth : 1 <= width.
Hypothesis Hheight : 1 <= height.
Hypothesis Hlen : Z.of_nat (length curve) = width * height.
Hypothesis Hnodup : NoDup curve.
Hypothesis Hgrid : forall p, p ∈ curve <-> in_grid width height p.
Hypothesis Hoffset : 0 <= offset.

Local Abbreviation N := (width * height).
Local Abbreviation confused := (Confusion.confused width height curve offset).
Local Abbreviation restored := (Confusion.restored width height curve offset).

Lemma cells_positive : 0 < N.
Proof. nia. Qed.

Lemma curve_at i :
  0 <= i < N -> exists p, at_index curve i = Some p /\ in_grid width height p.
Proof.
  intros Hi. destruct (at_index_Some curve i ltac:(lia)) as (p & Hp).
  exists p. split; [exact Hp|]. apply Hgrid.
  unfold at_index in Hp. destruct (i <? 0); [discriminate|].
  eapply list_elem_of_lookup_2. exact Hp.
Qed.

Lemma curve_inj i j p :
  at_index curve i = Some p -> at_index curve j = Some p -> i = j.
Proof.
  unfold at_index. destruct (i <? 0) eqn:Ei; [discriminate|].
  destruct (j <? 0) eqn:Ej; [discriminate|].
  apply Z.ltb_ge in Ei, Ej. intros Hi Hj.
  pose proof (NoDup_lookup _ _ _ _ Hnodup Hi Hj). lia.
Qed.

Lemma shifted_range i : 0 <= i -> 0 <= Z.rem (i + offset) N < N.
Proof.
  intros Hi. pose proof cells_positive.
  rewrite Z.rem_mod_nonneg by lia. apply Z.mod_pos_bound. lia.
Qed.

Lemma shifted_inj i j :
  0 <= i < N -> 0 <= j < N ->
  Z.rem (i + offset) N = Z.rem (j + offset) N -> i = j.
Proof.
  intros Hi Hj. pose proof cells_positive.
  rewrite !Z.rem_mod_nonneg by lia. intros E.
  pose proof (Z.div_mod (i + offset) N ltac:(lia)).
  pose proof (Z.div_mod (j + offset) N ltac:(lia)).
  assert ((i + offset) / N = (j + offset) / N \/
          (i + offset) / N <> (j + offset) / N) as [Eq | Ne] by lia; nia.
Qed.

Lemma pixel_range p :
  in_grid width height p ->
  0 <= pixel_index width p /\ pixel_index width p + 4 <= 4 * N.
Proof. unfold in_grid, pixel_index. intros [Hx Hy]. nia. Qed.

Lemma pixel_inj p q c c' :
  in_grid width height p -> in_grid width height q ->
  0 <= c < 4 -> 0 <= c' < 4 ->
  pixel_index width p + c = pixel_index width q + c' -> p = q /\ c = c'.
Proof.
  unfold in_grid, pixel_index. destruct p as [px py], q as [qx qy]. cbn [fst snd].
  intros [Hpx Hpy] [Hqx Hqy] Hc Hc' E.
  destruct (sample_inj width px py c qx qy c') as (-> & -> & ->); auto; lia.
Qed.

(** Every sample of the image belongs to one pixel of the curve. *)
Lemma sample_on_curve k :
  0 <= k < 4 * N ->
  exists i p c, 0 <= i < N /\ at_index curve i = Some p /\
    in_grid width height p /\ 0 <= c < 4 /\ k = pixel_index width p + c.
Proof.
  intros Hk.
  destruct (sample_decode width k ltac:(lia) ltac:(lia)) as (Ek & HX & HY & Hc).
  set (X := (k / 4) mod width) in *. set (Y := k / 4 / width) in *.
  set (c := k mod 4) in *.
  assert (Y < height) by nia.
  assert (Hg : in_grid width height (X, Y)) by (unfold in_grid; cbn; lia).
  apply Hgrid in Hg. apply list_elem_of_lookup in Hg as (i & Hi).
  pose proof (lookup_lt_Some _ _ _ Hi).
  exists (Z.of_nat i), (X, Y), c. rewrite at_index_lookup.
  repeat split; auto; try lia.
  - unfold in_grid; cbn; lia.
  - unfold in_grid; cbn; lia.
  - unfold pixel_index; cbn [fst snd]. lia.
Qed.

Lemma permute_forward data data2 :
  Z.of_nat (length data) = 4 * N -> Z.of_nat (length data2) = 4 * N ->
  exists out, permute true curve offset width height data data2 = Some out /\
    confused data N out.
Proof.
  intros Hd Hd2. pose proof cells_positive as HN. unfold permute.
  apply (for_loop_opt_ind (fun i s => confused data i s)); [lia | |].
  { split; [exact Hd2|]. intros; lia. }
  intros i s Hi [HL HS].
  destruct (curve_at i Hi) as (p & Hp & Hpg).
  destruct (curve_at _ (shifted_range i ltac:(lia))) as (q & Hq & Hqg).
  rewrite Hp, Hq. cbn [mbind option_bind].
  pose proof (pixel_range p Hpg) as Rp. pose proof (pixel_range q Hqg) as Rq.
  destruct (slice_pixel data (pixel_index width p)) as [SL SP]; [lia | lia|].
  destruct (set_fits s (slice data (pixel_index width p) (pixel_index width p + 4))
              (pixel_index width q)) as (t & -> & TL & TS); [lia | lia|].
  exists t. split; [reflexivity|]. split; [lia|].
  intros j p' q' c Hj Hp' Hq' Hc. rewrite TS, SL.
  destruct (Z.eq_dec j i) as [-> | Hne].
  - assert (p' = p) as -> by congruence. assert (q' = q) as -> by congruence.
    destruct (decide _) as [_ | Hn]; [|lia].
    rewrite SP by lia. f_equal. lia.
  - destruct (curve_at j ltac:(lia)) as (p2 & Hp2 & Hp2g).
    destruct (curve_at _ (shifted_range j ltac:(lia))) as (q2 & Hq2 & Hq2g).
    assert (p2 = p') as -> by congruence. assert (q2 = q') as -> by congruence.
    destruct (decide _) as [Hin | _]; [|apply HS with (j := j); auto; lia].
    exfalso.
    destruct (pixel_inj q' q c (pixel_index width q' + c - pixel_index width q))
      as [-> _]; auto; try lia.
    apply Hne. apply shifted_inj; [lia | lia|].
    eapply curve_inj; eauto.
Qed.

Lemma permute_backward data data2 :
  Z.of_nat (length data) = 4 * N -> Z.of_nat (length data2) = 4 * N ->
  exists out, permute false curve offset width height data data2 = Some out /\
    restored data N out.
Proof.
  intros Hd Hd2. pose proof cells_positive as HN. unfold permute.
  apply (for_loop_opt_ind (fun i s => restored data i s)); [lia | |].
  { split; [exact Hd2|]. intros; lia. }
  intros i s Hi [HL HS].
  destruct (curve_at i Hi) as (p & Hp & Hpg).
  destruct (curve_at _ (shifted_range i ltac:(lia))) as (q & Hq & Hqg).
  rewrite Hp, Hq. cbn [mbind option_bind].
  pose proof (pixel_range p Hpg) as Rp. pose proof (pixel_range q Hqg) as Rq.
  destruct (slice_pixel data (pixel_index width q)) as [SL SP]; [lia | lia|].
  destruct (set_fits s (slice data (pixel_index width q) (pixel_index width q + 4))
              (pixel_index width p)) as (t & -> & TL & TS); [lia | lia|].
  exists t. split; [reflexivity|]. split; [lia|].
  intros j p' q' c Hj Hp' Hq' Hc. rewrite TS, SL.
  destruct (Z.eq_dec j i) as [-> | Hne].
  - assert (p' = p) as -> by congruence. assert (q' = q) as -> by congruence.
    destruct (decide _) as [_ | Hn]; [|lia].
    rewrite SP by lia. f_equal. lia.
  - destruct (curve_at j ltac:(lia)) as (p2 & Hp2 & Hp2g).
    assert (p2 = p') as -> by congruence.
    destruct (decide _) as [Hin | _]; [|apply HS with (j := j); auto; lia].
    exfalso.
    destruct (pixel_inj p' p c (pixel_index width p' + c - pixel_index width p))
      as [-> _]; auto; try lia.
    apply Hne. eapply curve_inj; eauto.
Qed.

(** Confusion followed by its inverse with the same offset. *)
Lemma permute_round_trip data :
  Z.of_nat (length data) = 4 * N ->
  (permute true curve offset width height data (new_image_data width height)
     ≫= fun E => permute false curve offset width height E
                   (new_image_data width height)) = Some data.
Proof.
  intros Hd. pose proof cells_positive as HN.
  assert (Z.of_nat (length (new_image_data width height)) = 4 * N) as Hz.
  { unfold new_image_data. rewrite length_replicate. lia. }
  destruct (permute_forward data _ Hd Hz) as (E & -> & HEL & HE).
  cbn [mbind option_bind].
  destruct (permute_backward E _ HEL Hz) as (D & -> & HDL & HD).
  f_equal. apply list_eq. intros k.
  destruct (decide (k < length data)%nat) as [Hk | Hk].
  2: { rewrite !(proj2 (lookup_ge_None _ _)) by lia. reflexivity. }
  destruct (sample_on_curve (Z.of_nat k) ltac:(lia))
    as (i & p & c & Hi & Hp & Hpg & Hc & Ek).
  destruct (curve_at _ (shifted_range i ltac:(lia))) as (q & Hq & Hqg).
  rewrite <- !at_index_lookup, Ek.
  rewrite (HD i p q c) by (auto; lia). apply (HE i p q c); auto; lia.
Qed.

End Permutation.

(** The round trip holds whenever [decrypt] gets the offset of the
    confusion, as it does at strength 1. *)
Lemma round_trip_same_offset fuel data width height strength offset :
  1 <= width -> 1 <= height ->
  Z.of_nat (length data) = 4 * (width * height) ->
  width + height <= Z.of_nat fuel ->
  golden_offset width height strength = Some offset ->
  golden_offset_decrypt width height = Some offset ->
  0 <= offset ->
  (applyGilbertConfusion fuel data width height strength
     ≫= fun E => decrypt_pixels fuel E width height) = Some data.
Proof.
  intros Hw Hh Hd Hf Ho Ho' Hoff.
  destruct (gilbert2d_curve width height Hw Hh) as (curve & (HL & HN & HG) & Hc).
  unfold applyGilbertConfusion, decrypt_pixels.
  rewrite (proj2 (Z.eqb_neq width 0)), (proj2 (Z.eqb_neq height 0)) by lia.
  cbn [orb].
  rewrite (Hc fuel Hf), Ho, Ho'. cbn [mbind option_bind].
  apply permute_round_trip; auto.
  - rewrite HL, top_call_area. lia.
  - intros p. rewrite HG. now apply top_call_rect.
Qed.

Example round_trip_strength_1 (data : list Z) :
  length data = 16%nat ->
  (applyGilbertConfusion 4 data 2 2 1 ≫= fun E => decrypt_pixels 4 E 2 2)
  = Some data.
Proof.
  intros Hd. apply (round_trip_same_offset 4 data 2 2 1 2);
    try reflexivity; lia.
Qed.

(** ** The round trip (C1) *)

(** C1 fails on the code: [decrypt] computes its offset without the
    strength.  On a 2 x 2 image at strength 0.5 the offset of the
    confusion is 1 and that of [decrypt] is 2, and the image does not come
    back. *)
Theorem decrypt_ignores_strength :
  let X := [1;2;3;4; 5;6;7;8; 9;10;11;12; 13;14;15;16] in
  golden_offset 2 2 0.5 = Some 1 /\
  golden_offset_decrypt 2 2 = Some 2 /\
  applyGilbertConfusion 5 X 2 2 0.5 =
    Some [5;6;7;8; 13;14;15;16; 1;2;3;4; 9;10;11;12] /\
  (applyGilbertConfusion 5 X 2 2 0.5 ≫= fun E => decrypt_pixels 5 E 2 2) =
    Some [9;10;11;12; 1;2;3;4; 13;14;15;16; 5;6;7;8] /\
  (applyGilbertConfusion 5 X 2 2 1 ≫= fun E => decrypt_pixels 5 E 2 2) = Some X.
Proof. vm_compute. repeat split; reflexivity. Qed.

(** ** The block-smooth transform twice (C5) *)

Lemma tile_keeps_bytes_spec strength dx dy v :
  tile_keeps_bytes strength = true ->
  0 <= dx < 8 -> 0 <= dy < 8 -> 0 <= v < 256 ->
  blend (smoothFactor dx dy 8 8 strength) (Some v) (Some v) = v.
Proof.
  unfold tile_keeps_bytes. intros H Hdx Hdy Hv.
  rewrite forallb_forall in H.
  specialize (H (Z.to_nat dx) ltac:(apply in_seq; lia)).
  rewrite forallb_forall in H.
  specialize (H (Z.to_nat dy) ltac:(apply in_seq; lia)).
  cbv zeta in H. rewrite forallb_forall in H.
  specialize (H (Z.to_nat v) ltac:(apply in_seq; lia)).
  rewrite !Z2Nat.id in H by lia. now apply Z.eqb_eq in H.
Qed.

Lemma tile_keeps_bytes_1 : tile_keeps_bytes 1 = true.
Proof. vm_compute. reflexivity. Qed.

Lemma tile_keeps_bytes_half : tile_keeps_bytes 0.5 = true.
Proof. vm_compute. reflexivity. Qed.

(** When a tile of 8 x 8 pixels keeps every byte, the block-smooth
    transform with the block size 8 returns an image made of such
    tiles as it is given. *)
Lemma block_smooth_keeps fuel data width height strength :
  tile_keeps_bytes strength = true ->
  1 <= width -> 1 <= height ->
  width mod 8 = 0 -> height mod 8 = 0 ->
  Z.of_nat (length data) = 4 * width * height ->
  Forall (fun v => 0 <= v < 256) data ->
  Z.max width height < Z.of_nat fuel ->
  applyBlockConfusion fuel data width height 8 strength = Some data.
Proof.
  intros Hk Hw Hh Hw8 Hh8 Hlen Hbytes Hf.
  assert (Hb : forall k v, at_index data k = Some v -> 0 <= v < 256).
  { intros k v Hv. unfold at_index in Hv. destruct (k <? 0); [discriminate|].
    rewrite Forall_lookup in Hbytes. eauto. }
  destruct (tiles_all data width height 8 strength ltac:(lia) ltac:(lia)
              ltac:(lia) Hlen Hb fuel Hf) as (s & -> & HL & HS).
  f_equal. apply list_eq. intros k.
  destruct (data !! k) as [v|] eqn:Ev.
  2: { apply lookup_ge_None. apply lookup_ge_None in Ev. lia. }
  pose proof (lookup_lt_Some _ _ _ Ev) as Hlt.
  destruct (sample_decode width (Z.of_nat k) ltac:(lia) ltac:(lia))
    as (Ek & HX & HY & Hc).
  set (X := (Z.of_nat k / 4) mod width) in *.
  set (Y := Z.of_nat k / 4 / width) in *.
  set (c := Z.of_nat k mod 4) in *.
  assert (Y < height) by nia.
  destruct (HS X Y c HX ltac:(lia) Hc) as [H1 H2]. rewrite <- Ek in H1, H2.
  rewrite !at_index_lookup, Ev in H1, H2.
  destruct (decide (c < 3)) as [Hc3 | Hc3]; [|apply H2; lia].
  rewrite H1 by (unfold tiles_done; lia). f_equal.
  unfold smooth_at.
  pose proof (Z.div_mod X 8 ltac:(lia)) as HdX.
  pose proof (Z.mod_pos_bound X 8 ltac:(lia)) as HmX.
  pose proof (Z.div_mod Y 8 ltac:(lia)) as HdY.
  pose proof (Z.mod_pos_bound Y 8 ltac:(lia)) as HmY.
  pose proof (Z.div_mod width 8 ltac:(lia)) as Hdw.
  pose proof (Z.div_mod height 8 ltac:(lia)) as Hdh.
  rewrite (Z.min_l 8 (width - X / 8 * 8)) by lia.
  rewrite (Z.min_l 8 (height - Y / 8 * 8)) by lia.
  apply tile_keeps_bytes_spec; auto; try lia.
  eapply Hb. rewrite at_index_lookup. exact Ev.
Qed.

(** C5 fails on the code: [processBlockSmooth] blends every sample with
    the snapshot of the same sample, so that nothing is blended.  At the
    block size 8 and at the strengths 1 and 0.5 the transform returns every
    image of bytes whose width and height are multiples of 8 as it is,
    once and twice. *)
Theorem block_smooth_is_noop fuel data width height strength :
  strength = 1%float \/ strength = 0.5%float ->
  1 <= width -> 1 <= height ->
  width mod 8 = 0 -> height mod 8 = 0 ->
  Z.of_nat (length data) = 4 * width * height ->
  Forall (fun v => 0 <= v < 256) data ->
  Z.max width height < Z.of_nat fuel ->
  (0 <? strength)%float = true /\
  applyBlockConfusion fuel data width height 8 strength = Some data /\
  (applyBlockConfusion fuel data width height 8 strength
     ≫= fun once => applyBlockConfusion fuel once width height 8 strength)
  = Some data.
Proof.
  intros Hs Hw Hh Hw8 Hh8 Hlen Hbytes Hf.
  assert (tile_keeps_bytes strength = true) as Hk
    by (destruct Hs as [-> | ->];
        [apply tile_keeps_bytes_1 | apply tile_keeps_bytes_half]).
  split; [destruct Hs as [-> | ->]; reflexivity|].
  rewrite (block_smooth_keeps fuel data width height strength) by assumption.
  split; [reflexivity|]. cbn [mbind option_bind].
  now apply block_smooth_keeps.
Qed.

Lemma block_smooth_is_noop_witness :
  (0 <? 0.5)%float = true /\
  applyBlockConfusion 9 (map Z.of_nat (seq 0 256)) 8 8 8 0.5
  = Some (map Z.of_nat (seq 0 256)) /\
  (applyBlockConfusion 9 (map Z.of_nat (seq 0 256)) 8 8 8 0.5
     ≫= fun once => applyBlockConfusion 9 once 8 8 8 0.5)
  = Some (map Z.of_nat (seq 0 256)).
Proof.
  apply (block_smooth_is_noop 9 (map Z.of_nat (seq 0 256)) 8 8 0.5);
    [right; reflexivity | lia | lia | reflexivity | reflexivity | reflexivity
    | apply (bool_decide_unpack _); vm_compute; exact I | cbn; lia].
Defined.

(** ** A single pixel (C10) *)

Lemma permute_single forward offset data :
  length data = 4%nat ->
  permute forward [(0, 0)] offset 1 1 data (new_image_data 1 1) = Some data.
Proof.
  intros Hl. destruct data as [|a [|b [|c [|d [|e data]]]]]; try discriminate.
  unfold permute, for_loop_opt.
  change (Z.to_nat (1 * 1)) with 1%nat. cbn [seq fold_left mbind option_bind].
  change (at_index [(0, 0)] (Z.of_nat 0)) with (Some (0, 0)).
  cbn [mbind option_bind].
  change (1 * 1) with 1. rewrite Z.rem_1_r.
  change (at_index [(0, 0)] 0) with (Some (0, 0)).
  cbn [mbind option_bind]. now destruct forward.
Qed.

(** ** The offset of a strength between 0 and 1 is a number *)

Lemma digits2_pos_bounds p :
  2 ^ (Z.pos (digits2_pos p) - 1) <= Z.pos p < 2 ^ Z.pos (digits2_pos p).
Proof.
  induction p as [p IH | p IH |]; cbn [digits2_pos].
  - rewrite Pos2Z.inj_succ.
    replace (Z.succ (Z.pos (digits2_pos p)) - 1) with (Z.succ (Z.pos (digits2_pos p) - 1)) by lia.
    rewrite !Z.pow_succ_r by lia. lia.
  - rewrite Pos2Z.inj_succ.
    replace (Z.succ (Z.pos (digits2_pos p)) - 1) with (Z.succ (Z.pos (digits2_pos p) - 1)) by lia.
    rewrite !Z.pow_succ_r by lia. lia.
  - cbn. lia.
Qed.

Lemma Zdigits2_le m k : 0 <= m < 2 ^ k -> 0 <= k -> 0 <= Zdigits2 m <= k.
Proof.
  intros Hm Hk. destruct m as [|p|p]; cbn [Zdigits2]; [lia | | lia].
  pose proof (digits2_pos_bounds p) as [Hlo _].
  split; [lia|].
  destruct (Z.le_gt_cases (Z.pos (digits2_pos p)) k) as [|Hgt]; [assumption|].
  assert (2 ^ k <= 2 ^ (Z.pos (digits2_pos p) - 1)) by (apply Z.pow_le_mono_r; lia).
  lia.
Qed.

Lemma shr_1_bounds mrs : 0 <= shr_m mrs -> 0 <= shr_m (shr_1 mrs) <= shr_m mrs.
Proof.
  destruct mrs as [m r s]. cbn [shr_m]. intros Hm.
  destruct m as [|[p|p|]|p]; cbn; lia.
Qed.

Lemma iter_shr_1_bounds p : forall mrs,
  0 <= shr_m mrs -> 0 <= shr_m (SpecFloat.iter_pos shr_1 p mrs) <= shr_m mrs.
Proof.
  induction p as [p IH | p IH |]; intros mrs Hm; cbn [SpecFloat.iter_pos].
  - pose proof (shr_1_bounds mrs Hm).
    pose proof (IH (shr_1 mrs) ltac:(lia)).
    pose proof (IH (SpecFloat.iter_pos shr_1 p (shr_1 mrs)) ltac:(lia)). lia.
  - pose proof (IH mrs Hm).
    pose proof (IH (SpecFloat.iter_pos shr_1 p mrs) ltac:(lia)). lia.
  - now apply shr_1_bounds.
Qed.

Lemma shr_fexp_bounds m e l mrs e' :
  0 <= m -> shr_fexp prec emax m e l = (mrs, e') ->
  0 <= shr_m mrs <= m /\ e' <= Z.max e (fexp prec emax (Zdigits2 m + e)).
Proof.
  intros Hm. unfold shr_fexp, shr.
  assert (shr_m (shr_record_of_loc m l) = m) as Hrec
    by (destruct l as [|[ | | ]]; reflexivity).
  destruct (fexp prec emax (Zdigits2 m + e) - e) as [|p|p] eqn:En;
    intros [= <- <-].
  - rewrite Hrec. lia.
  - pose proof (iter_shr_1_bounds p (shr_record_of_loc m l) ltac:(lia)).
    rewrite Hrec in *. lia.
  - rewrite Hrec. lia.
Qed.

Lemma round_nearest_even_bounds m l :
  m <= round_nearest_even m l <= m + 1.
Proof.
  destruct l as [|[ | | ]]; cbn [round_nearest_even]; try lia.
  destruct (Z.even m); lia.
Qed.

(** Rounding a mantissa below 2^106 at an exponent of at most 864 does not
    overflow. *)
Lemma binary_round_aux_finite sx m e :
  0 <= m < 2 ^ 106 -> e <= 864 ->
  match binary_round_aux prec emax sx m e loc_Exact with
  | S754_zero _ | S754_finite _ _ _ => True
  | _ => False
  end.
Proof.
  intros Hm He. unfold binary_round_aux.
  destruct (shr_fexp prec emax m e loc_Exact) as [mrs1 e1] eqn:E1.
  destruct (shr_fexp_bounds m e loc_Exact mrs1 e1 ltac:(lia) E1) as [Hm1 He1].
  pose proof (round_nearest_even_bounds (shr_m mrs1) (loc_of_shr_record mrs1)) as Hr.
  set (m1 := round_nearest_even (shr_m mrs1) (loc_of_shr_record mrs1)) in *.
  destruct (shr_fexp prec emax m1 e1 loc_Exact) as [mrs2 e2] eqn:E2.
  destruct (shr_fexp_bounds m1 e1 loc_Exact mrs2 e2 ltac:(lia) E2) as [Hm2 He2].
  pose proof (Zdigits2_le m 106 Hm ltac:(lia)) as Hd.
  assert (0 <= m1 < 2 ^ 107) as Hm1b.
  { change (2 ^ 107) with (2 * 2 ^ 106). lia. }
  pose proof (Zdigits2_le m1 107 Hm1b ltac:(lia)) as Hd1.
  unfold fexp, emin in He1, He2. change prec with 53 in *. change emax with 1024 in *.
  destruct (shr_m mrs2) as [|p|p] eqn:Em; [exact I | | lia].
  destruct (e2 <=? 1024 - 53) eqn:El; [exact I|].
  apply Z.leb_gt in El. lia.
Qed.

Lemma golden_offset_unit s :
  (0 <=? s)%float = true -> (s <=? 1)%float = true ->
  exists z, golden_offset 1 1 s = Some z.
Proof.
  intros H0 H1. unfold golden_offset, round.
  set (c := ((sqrt 5 - 1) / 2 * of_Z 1 * of_Z 1)%float).
  rewrite mul_spec.
  assert (Prim2SF c = S754_finite false 5566755282872656 (-53)) as -> by (vm_compute; reflexivity).
  rewrite leb_spec in H0, H1.
  change (Prim2SF 0) with (S754_zero false) in H0.
  change (Prim2SF 1) with (S754_finite false 4503599627370496 (-52)) in H1.
  pose proof (Prim2SF_valid s) as Hv.
  destruct (Prim2SF s) as [sz | [|] | | [|] mx ex]; try discriminate.
  - cbn. eauto.
  - assert (ex <= -52) as Hex.
    { unfold SFleb, SFcompare in H1. destruct (Z.compare_spec ex (-52)); first [lia | discriminate]. }
    assert (Z.pos mx < 2 ^ 53) as Hmx.
    { cbn [valid_binary] in Hv. unfold bounded, canonical_mantissa in Hv.
      apply andb_true_iff in Hv as [Hc _]. apply Z.eqb_eq in Hc.
      unfold fexp, emin in Hc. change prec with 53 in Hc. change emax with 1024 in Hc.
      pose proof (digits2_pos_bounds mx) as [_ Hup].
      assert (Z.pos (digits2_pos mx) <= 53) by lia.
      assert (2 ^ Z.pos (digits2_pos mx) <= 2 ^ 53) by (apply Z.pow_le_mono_r; lia).
      lia. }
    unfold SF64mul, SFmul.
    pose proof (binary_round_aux_finite (xorb false false)
                  (Z.pos (5566755282872656 * mx)) (-53 + ex)) as Hfin.
    destruct (binary_round_aux prec emax (xorb false false)
                (Z.pos (5566755282872656 * mx)) (-53 + ex) loc_Exact);
      try (eexists; reflexivity).
    + exfalso. apply Hfin; [|lia]. rewrite Pos2Z.inj_mul.
      change (2 ^ 106) with (2 ^ 53 * 2 ^ 53).
      assert (Z.pos 5566755282872656 < 2 ^ 53) by reflexivity. nia.
    + exfalso. apply Hfin; [|lia]. rewrite Pos2Z.inj_mul.
      change (2 ^ 106) with (2 ^ 53 * 2 ^ 53).
      assert (Z.pos 5566755282872656 < 2 ^ 53) by reflexivity. nia.
Qed.

(** C10: the curve of the 1 x 1 grid is the single cell (0, 0), and on a
    single pixel the confusion, at any strength between 0 and 1, and
    [decrypt] return the pixel they are given. *)
Theorem single_pixel_identity fuel strength data :
  length data = 4%nat ->
  (0 <=? strength)%float = true -> (strength <=? 1)%float = true ->
  gilbert2d (S fuel) 1 1 = Some [(0, 0)] /\
  applyGilbertConfusion (S fuel) data 1 1 strength = Some data /\
  decrypt_pixels (S fuel) data 1 1 = Some data.
Proof.
  intros Hl H0 H1. split; [reflexivity|]. split.
  - destruct (golden_offset_unit strength H0 H1) as (offset & Hoff).
    unfold applyGilbertConfusion. rewrite gilbert2d_1_1, Hoff.
    cbn [mbind option_bind]. now apply permute_single.
  - unfold decrypt_pixels. change ((1 =? 0) || (1 =? 0)) with false. cbv iota.
    rewrite gilbert2d_1_1.
    change (golden_offset_decrypt 1 1) with (Some 1).
    cbn [mbind option_bind]. now apply permute_single.
Qed.

Lemma single_pixel_identity_witness :
  gilbert2d 1 1 1 = Some [(0, 0)] /\
  applyGilbertConfusion 1 [10; 20; 30; 255] 1 1 0.5 = Some [10; 20; 30; 255] /\
  decrypt_pixels 1 [10; 20; 30; 255] 1 1 = Some [10; 20; 30; 255].
Proof.
  apply (single_pixel_identity 0 0.5%float [10; 20; 30; 255]); reflexivity.
Defined.

(** Outside that range the same holds as long as the offset is a number;
    a strength that is not a number makes the script throw. *)
Lemma single_pixel_identity_any fuel strength offset data :
  length data = 4%nat ->
  golden_offset 1 1 strength = Some offset ->
  applyGilbertConfusion (S fuel) data 1 1 strength = Some data.
Proof.
  intros Hl Hoff. unfold applyGilbertConfusion. rewrite gilbert2d_1_1, Hoff.
  cbn [mbind option_bind]. now apply permute_single.
Qed.

Example single_pixel_nan data :
  applyGilbertConfusion 1 data 1 1 nan = None.
Proof. reflexivity. Qed.

(** * Further properties: the curve, the engine and the file checks *)

(** ** The curve: symmetry, ends and thin grids *)

Lemma fill_transpose n : forall x y dx dy,
  fill n y x dy dx [] = map transpose (fill n x y dx dy []).
Proof.
  induction n as [|n IH]; intros x y dx dy; [reflexivity|].
  rewrite !fill_cons. cbn [map]. now rewrite IH.
Qed.

Lemma subcalls_transpose_call c : subcalls (transpose_call c) = map transpose_call (subcalls c).
Proof.
  destruct c as [x y ax ay bx by']. unfold transpose_call, subcalls.
  cbn [cx cy cax cay cbx cby].
  rewrite (Z.add_comm ay ax), (Z.add_comm by' bx),
    (Z.add_comm (ay / 2) (ax / 2)), (Z.add_comm (by' / 2) (bx / 2)).
  destruct (2 * Z.abs (ax + ay) >? 3 * Z.abs (bx + by'));
    [destruct (odd_and_gt2 _ (Z.abs (ax + ay)))
    | destruct (odd_and_gt2 _ (Z.abs (bx + by')))]; reflexivity.
Qed.

Lemma run_transpose_call fuel : forall c acc,
  run fuel (transpose_call c) (map transpose acc) = map transpose <$> run fuel c acc.
Proof.
  induction fuel as [|fuel IH]; intros c acc; [reflexivity|].
  rewrite !run_unfold.
  assert (ch (transpose_call c) = ch c) as ->
    by (unfold ch, transpose_call; cbn [cbx cby]; f_equal; lia).
  assert (cw (transpose_call c) = cw c) as Hcw
    by (unfold cw, transpose_call; cbn [cax cay]; f_equal; lia).
  rewrite Hcw.
  destruct (ch c =? 1).
  { cbn. f_equal. rewrite map_app. f_equal. unfold row. rewrite Hcw.
    apply fill_transpose. }
  destruct (cw c =? 1).
  { cbn. f_equal. rewrite map_app. f_equal. unfold col.
    assert (ch (transpose_call c) = ch c) as ->
      by (unfold ch, transpose_call; cbn [cbx cby]; f_equal; lia).
    apply fill_transpose. }
  rewrite subcalls_transpose_call. generalize (subcalls c) as cs. intros cs. revert acc.
  induction cs as [|c' cs IHcs]; intros acc; [reflexivity|].
  cbn [map run_all]. rewrite IH.
  destruct (run fuel c' acc) as [l|]; [|reflexivity].
  cbn [fmap option_fmap option_map mbind option_bind]. apply IHcs.
Qed.

(** X1: the curve of a height x width grid is the curve of the
    width x height grid mirrored in the diagonal, whenever the two sides
    differ; this holds for every stack bound, the two calls failing
    together. *)
Theorem gilbert2d_transpose fuel width height :
  width <> height ->
  gilbert2d fuel height width = map transpose <$> gilbert2d fuel width height.
Proof.
  intros Hne. rewrite !gilbert2d_run. unfold top_call.
  destruct (Z.geb_spec width height), (Z.geb_spec height width); try lia.
  - apply (run_transpose_call fuel (Call 0 0 width 0 0 height) []).
  - apply (run_transpose_call fuel (Call 0 0 0 height width 0) []).
Qed.

Lemma gilbert2d_transpose_witness :
  gilbert2d 9 3 5 = map transpose <$> gilbert2d 9 5 3.
Proof. apply (gilbert2d_transpose 9 5 3). lia. Defined.

(** X2: for width, height >= 1 the curve starts at (0, 0).  It ends at the
    far end of the longer side, (width - 1, 0) when width >= height and
    (0, height - 1) otherwise, except when the shorter side is 2 and the
    longer side is odd: then it ends one cell before, at (width - 2, 0) or
    (0, height - 2). *)
Theorem gilbert2d_endpoints width height :
  1 <= width -> 1 <= height ->
  exists l,
    (forall fuel, width + height <= Z.of_nat fuel ->
       gilbert2d fuel width height = Some l) /\
    head l = Some (0, 0) /\
    last l =
    Some (let d := if (Z.min width height =? 2) && Z.odd (Z.max width height)
                   then 2 else 1 in
          if width >=? height then (width - d, 0) else (0, height - d)).
Proof.
  intros Hw Hh.
  destruct (run_fares _ (top_call_known width height Hw Hh))
    as (l & (Hs & Hd & Hsh & _) & Hrun).
  exists l. split.
  { intros fuel Hf. rewrite gilbert2d_run. apply (Hrun fuel []).
    rewrite top_call_measure; assumption. }
  pose proof (top_call_aligned width height Hw Hh) as Hal.
  destruct ((Z.min width height =? 2) && Z.odd (Z.max width height)) eqn:E.
  - apply andb_true_iff in E as [E2 Eo].
    apply Z.eqb_eq in E2. rewrite Zodd_mod in Eo. apply Z.eqb_eq in Eo.
    destruct Hsh as [[H1 H2] _].
    { split; [exact Hal|]. revert Eo E2. unfold top_call.
      destruct (Z.geb_spec width height); cbn [cax cay cbx cby];
        rewrite ?Z.add_0_r, ?Z.add_0_l.
      - rewrite Z.max_l, Z.min_r by lia. intros. repeat split; try lia.
        destruct (Z.eq_dec width 2); [subst; discriminate | lia].
      - rewrite Z.max_r, Z.min_l by lia. intros. repeat split; try lia. }
    split.
    + rewrite H1. unfold start, top_call.
      now destruct (width >=? height).
    + rewrite H2. unfold goal_short, top_call.
      destruct (Z.geb_spec width height); cbn [cx cy cax cay]; f_equal; f_equal; lia.
  - assert (sound (top_call width height) \/ diag_call (top_call width height))
      as Hk.
    { apply andb_false_iff in E.
      destruct (Z.eq_dec (Z.max width height mod 2) 0) as [He | Ho];
        [left; apply top_call_sound; auto|].
      destruct (Z.eq_dec (Z.min width height mod 2) 1) as [Ho' | He'];
        [left; apply top_call_sound; auto|].
      right. split; [exact Hal|].
      assert (Z.odd (Z.max width height) = true) as Hodd.
      { rewrite Zodd_mod. apply Z.eqb_eq.
        pose proof (Z.mod_pos_bound (Z.max width height) 2). lia. }
      assert (Z.min width height <> 2) as Hn2.
      { destruct E as [E | E]; [now apply Z.eqb_neq in E | congruence]. }
      pose proof (Z.mod_pos_bound (Z.max width height) 2 ltac:(lia)).
      pose proof (Z.mod_pos_bound (Z.min width height) 2 ltac:(lia)).
      revert Ho He' Hn2 H H0. unfold top_call.
      destruct (Z.geb_spec width height); cbn [cax cay cbx cby];
        rewrite ?Z.add_0_r, ?Z.add_0_l.
      - rewrite Z.max_l, Z.min_r by lia. intros Ho He' Hn2 Hb1 Hb2.
        assert (height <> 1) by (intros ->; apply He'; reflexivity).
        assert (height <> 3) by (intros ->; apply He'; reflexivity).
        cbv zeta. lia.
      - rewrite Z.max_r, Z.min_l by lia. intros Ho He' Hn2 Hb1 Hb2.
        assert (width <> 1) by (intros ->; apply He'; reflexivity).
        assert (width <> 3) by (intros ->; apply He'; reflexivity).
        cbv zeta. lia. }
    assert (route l (start (top_call width height)) (finish (top_call width height)))
      as [H1 H2] by (destruct Hk as [Hk | Hk]; [apply Hs | apply Hd]; exact Hk).
    split.
    + rewrite H1. unfold start, top_call. now destruct (width >=? height).
    + rewrite H2. unfold finish, top_call.
      destruct (Z.geb_spec width height); cbn [cx cy cax cay]; f_equal; f_equal; lia.
Qed.

Lemma gilbert2d_endpoints_witness :
  exists l,
    (forall fuel, 5 + 2 <= Z.of_nat fuel -> gilbert2d fuel 5 2 = Some l) /\
    head l = Some (0, 0) /\
    last l =
    Some (let d := if (Z.min 5 2 =? 2) && Z.odd (Z.max 5 2) then 2 else 1 in
          if 5 >=? 2 then (5 - d, 0) else (0, 2 - d)).
Proof. apply (gilbert2d_endpoints 5 2); lia. Defined.

Lemma fill_line n : forall x y dx dy,
  fill n x y dx dy [] =
  map (fun i : nat => (x + Z.of_nat i * dx, y + Z.of_nat i * dy)) (seq 0 n).
Proof.
  induction n as [|n IH]; intros x y dx dy; [reflexivity|].
  rewrite fill_cons, IH. cbn [seq map]. f_equal.
  - f_equal; lia.
  - rewrite <- seq_shift, map_map. apply map_ext. intros i. f_equal; lia.
Qed.

(** X3: on a grid one cell high or one cell wide the curve is the scan of
    the line, from (0, 0) on, and one call of [generate2d] gives it. *)
Theorem gilbert2d_line fuel n :
  1 <= n ->
  gilbert2d (S fuel) n 1 = Some (map (fun i : nat => (Z.of_nat i, 0)) (seq 0 (Z.to_nat n))) /\
  gilbert2d (S fuel) 1 n = Some (map (fun i : nat => (0, Z.of_nat i)) (seq 0 (Z.to_nat n))).
Proof.
  intros Hn. rewrite !gilbert2d_run. unfold top_call.
  rewrite (proj2 (Z.geb_le n 1)) by lia. split.
  - rewrite run_unfold. change (ch (Call 0 0 n 0 0 1) =? 1) with true. cbv iota.
    cbn [app]. f_equal. unfold row, cw. cbn [cx cy cax cay].
    rewrite Z.add_0_r, Z.abs_eq, (Z.sgn_pos n) by lia.
    change (Z.sgn 0) with 0.
    rewrite fill_line. apply map_ext. intros i. f_equal; lia.
  - destruct (Z.geb_spec 1 n) as [Hle | Hgt].
    + assert (n = 1) as -> by lia. reflexivity.
    + rewrite run_unfold. change (ch (Call 0 0 0 n 1 0) =? 1) with true. cbv iota.
      cbn [app]. f_equal. unfold row, cw. cbn [cx cy cax cay].
      rewrite Z.add_0_l, Z.abs_eq, (Z.sgn_pos n) by lia.
      change (Z.sgn 0) with 0.
      rewrite fill_line. apply map_ext. intros i. f_equal; lia.
Qed.

Lemma gilbert2d_line_witness :
  gilbert2d 1 3 1 = Some (map (fun i : nat => (Z.of_nat i, 0)) (seq 0 (Z.to_nat 3))) /\
  gilbert2d 1 1 3 = Some (map (fun i : nat => (0, Z.of_nat i)) (seq 0 (Z.to_nat 3))).
Proof. apply (gilbert2d_line 0 3). lia. Defined.


(** ** The offsets are numbers *)

Lemma small_le x E E' : small x E -> E <= E' -> small x E'.
Proof.
  unfold small. destruct (Prim2SF x) as [| | |[|] m e]; auto. lia.
Qed.

Lemma binary_round_aux_small m e :
  0 <= m < 2 ^ 106 -> e <= 864 ->
  match binary_round_aux prec emax false m e loc_Exact with
  | S754_zero _ => True
  | S754_finite false _ e' => e' <= Z.max (e + 107) (-1020)
  | _ => False
  end.
Proof.
  intros Hm He. unfold binary_round_aux.
  destruct (shr_fexp prec emax m e loc_Exact) as [mrs1 e1] eqn:E1.
  destruct (shr_fexp_bounds m e loc_Exact mrs1 e1 ltac:(lia) E1) as [Hm1 He1].
  pose proof (round_nearest_even_bounds (shr_m mrs1) (loc_of_shr_record mrs1)) as Hr.
  set (m1 := round_nearest_even (shr_m mrs1) (loc_of_shr_record mrs1)) in *.
  destruct (shr_fexp prec emax m1 e1 loc_Exact) as [mrs2 e2] eqn:E2.
  destruct (shr_fexp_bounds m1 e1 loc_Exact mrs2 e2 ltac:(lia) E2) as [Hm2 He2].
  pose proof (Zdigits2_le m 106 Hm ltac:(lia)) as Hd.
  assert (0 <= m1 < 2 ^ 107) as Hm1b.
  { change (2 ^ 107) with (2 * 2 ^ 106). lia. }
  pose proof (Zdigits2_le m1 107 Hm1b ltac:(lia)) as Hd1.
  unfold fexp, emin in He1, He2. change prec with 53 in *. change emax with 1024 in *.
  destruct (shr_m mrs2) as [|p|p] eqn:Em; [exact I | | lia].
  destruct (e2 <=? 1024 - 53) eqn:El; [lia|].
  apply Z.leb_gt in El. lia.
Qed.

Lemma valid_mantissa s m e :
  valid_binary (S754_finite s m e) = true -> Z.pos m < 2 ^ 53.
Proof.
  intros Hv. cbn [valid_binary] in Hv. unfold bounded, canonical_mantissa in Hv.
  apply andb_true_iff in Hv as [Hc _]. apply Z.eqb_eq in Hc.
  unfold fexp, emin in Hc. change prec with 53 in Hc. change emax with 1024 in Hc.
  pose proof (digits2_pos_bounds m) as [_ Hup].
  assert (Z.pos (digits2_pos m) <= 53) by lia.
  assert (2 ^ Z.pos (digits2_pos m) <= 2 ^ 53) by (apply Z.pow_le_mono_r; lia).
  lia.
Qed.

Lemma small_mul a b Ea Eb :
  small a Ea -> small b Eb -> Ea + Eb <= 864 ->
  small (a * b) (Z.max (Ea + Eb + 107) (-1020)).
Proof.
  unfold small. rewrite mul_spec.
  pose proof (Prim2SF_valid a) as Va. pose proof (Prim2SF_valid b) as Vb.
  destruct (Prim2SF a) as [sa| | |[|] ma ea]; try contradiction;
    destruct (Prim2SF b) as [sb| | |[|] mb eb]; try contradiction;
    intros Ha Hb HE; try exact I.
  unfold SF64mul, SFmul. change (xorb false false) with false.
  apply valid_mantissa in Va, Vb.
  pose proof (binary_round_aux_small (Z.pos (ma * mb)) (ea + eb)) as Hr.
  destruct (binary_round_aux prec emax false (Z.pos (ma * mb)) (ea + eb) loc_Exact)
    as [| | |[|] m e]; try exact I.
  1-3: apply Hr; [|lia]; rewrite Pos2Z.inj_mul;
       change (2 ^ 106) with (2 ^ 53 * 2 ^ 53); nia.
  assert (e <= Z.max (ea + eb + 107) (-1020)); [|lia].
  apply Hr; [|lia]. rewrite Pos2Z.inj_mul.
  change (2 ^ 106) with (2 ^ 53 * 2 ^ 53); nia.
Qed.

Lemma small_of_Z w : 0 <= w -> small (of_Z w) 107.
Proof.
  intros Hw. unfold small, of_Z.
  destruct (w <? 0) eqn:E; [apply Z.ltb_lt in E; lia|].
  rewrite of_uint63_spec.
  pose proof (Uint63.to_Z_bounded (Uint63.of_Z w)) as Hb.
  change Uint63.wB with (2 ^ 63) in Hb.
  destruct (Uint63.to_Z (Uint63.of_Z w)) as [|m|m]; [exact I | | lia].
  cbn [binary_normalize]. unfold binary_round, shl_align.
  pose proof (digits2_pos_bounds m) as [Hlo Hup].
  set (d := Z.pos (digits2_pos m)) in *.
  assert (d <= 63) as Hd.
  { destruct (Z.le_gt_cases d 63) as [|Hgt]; [assumption|].
    assert (2 ^ 63 <= 2 ^ (d - 1)) by (apply Z.pow_le_mono_r; lia). lia. }
  unfold fexp, emin. change prec with 53. change emax with 1024.
  rewrite Z.add_0_r, Z.sub_0_r.
  destruct (Z.max (d - 53) (3 - 1024 - 53)) as [|k|k] eqn:Ek.
  - pose proof (binary_round_aux_small (Z.pos m) 0) as Hr.
    destruct (binary_round_aux _ _ _ _ _ _) as [| | |[|] m' e']; try exact I;
      try (apply Hr; [|lia]; assert (2 ^ 63 < 2 ^ 106) by reflexivity; lia).
  - pose proof (binary_round_aux_small (Z.pos m) 0) as Hr.
    destruct (binary_round_aux _ _ _ _ _ _) as [| | |[|] m' e']; try exact I;
      try (apply Hr; [|lia]; assert (2 ^ 63 < 2 ^ 106) by reflexivity; lia).
  - assert (Z.pos (Pos.iter xO m k) < 2 ^ 106) as Hs.
    { change (Pos.iter xO m k) with (shift_pos k m).
      rewrite shift_pos_correct. change (Zpower_pos 2 k) with (2 ^ Z.pos k).
      assert (Z.pos k = 53 - d) as -> by lia.
      assert (2 ^ (53 - d) * 2 ^ d = 2 ^ 53) as Hp
        by (rewrite <- Z.pow_add_r by lia; f_equal; lia).
      assert (2 ^ 53 < 2 ^ 106) by reflexivity.
      assert (0 < 2 ^ (53 - d)) by (apply Z.pow_pos_nonneg; lia). nia. }
    pose proof (binary_round_aux_small (Z.pos (Pos.iter xO m k)) (Z.neg k)) as Hr.
    destruct (binary_round_aux _ _ _ _ _ _) as [| | |[|] m' e']; try exact I;
      try (apply Hr; lia).
    assert (e' <= Z.max (Z.neg k + 107) (-1020)); [|lia].
    apply Hr; lia.
Qed.

Lemma small_round x E : small x E -> exists z, round x = Some z /\ 0 <= z.
Proof.
  unfold small, round.
  destruct (Prim2SF x) as [| | |[|] m e]; try contradiction; intros _.
  - exists 0. split; [reflexivity | lia].
  - eexists. split; [reflexivity|]. cbn [signed].
    destruct (0 <=? e) eqn:Ee.
    + apply Z.leb_le in Ee. assert (0 < 2 ^ e) by (apply Z.pow_pos_nonneg; lia). lia.
    + apply Z.leb_gt in Ee.
      assert (0 < 2 ^ (- e)) by (apply Z.pow_pos_nonneg; lia).
      assert (0 < 2 ^ (- e + 1)) by (apply Z.pow_pos_nonneg; lia).
      apply Z.div_pos; lia.
Qed.

Lemma small_golden : small ((sqrt 5 - 1) / 2)%float (-53).
Proof.
  unfold small.
  assert (Prim2SF ((sqrt 5 - 1) / 2) = S754_finite false 5566755282872656 (-53))
    as -> by (vm_compute; reflexivity).
  lia.
Qed.

Lemma small_unit s :
  (0 <=? s)%float = true -> (s <=? 1)%float = true -> small s (-52).
Proof.
  intros H0 H1. unfold small.
  rewrite leb_spec in H0, H1.
  change (Prim2SF 0) with (S754_zero false) in H0.
  change (Prim2SF 1) with (S754_finite false 4503599627370496 (-52)) in H1.
  destruct (Prim2SF s) as [sz | [|] | | [|] mx ex]; try discriminate; [exact I|].
  unfold SFleb, SFcompare in H1. destruct (Z.compare_spec ex (-52)); first [lia | discriminate].
Qed.

Lemma golden_offset_decrypt_number width height :
  0 <= width -> 0 <= height ->
  exists offset, golden_offset_decrypt width height = Some offset /\ 0 <= offset.
Proof.
  intros Hw Hh. unfold golden_offset_decrypt.
  eapply small_round.
  apply small_mul; [|apply small_of_Z; exact Hh|].
  - apply small_mul; [apply small_golden | apply small_of_Z; exact Hw | lia].
  - lia.
Qed.

Lemma golden_offset_number width height strength :
  0 <= width -> 0 <= height ->
  (0 <=? strength)%float = true -> (strength <=? 1)%float = true ->
  exists offset, golden_offset width height strength = Some offset /\ 0 <= offset.
Proof.
  intros Hw Hh H0 H1. unfold golden_offset.
  eapply small_round.
  apply small_mul; [|apply small_unit; assumption|].
  - apply small_mul; [|apply small_of_Z; exact Hh|].
    + apply small_mul; [apply small_golden | apply small_of_Z; exact Hw | lia].
    + lia.
  - lia.
Qed.

(** ** [invert] *)

Lemma at_index_store_any {A} (a : list A) i (v : A) k :
  at_index (store a i v) k =
  if decide (k = i /\ 0 <= i < Z.of_nat (length a)) then Some v else at_index a k.
Proof.
  destruct (decide (0 <= i < Z.of_nat (length a))) as [Hi | Hi].
  - rewrite at_index_store by exact Hi.
    destruct (decide (k = i)), (decide (k = i /\ _)); tauto || reflexivity.
  - destruct (decide (k = i /\ _)) as [[_ ?] | _]; [tauto|].
    unfold store. destruct (i <? 0) eqn:E; [reflexivity|].
    apply Z.ltb_ge in E. rewrite list_insert_ge by lia. reflexivity.
Qed.

Lemma at_index_None {A} (a : list A) k :
  k < 0 \/ Z.of_nat (length a) <= k -> at_index a k = None.
Proof.
  intros Hk. unfold at_index. destruct (k <? 0) eqn:E; [reflexivity|].
  apply Z.ltb_ge in E. apply lookup_ge_None. lia.
Qed.

Lemma at_index_invert_map data k :
  at_index (invert_map data) k =
  (fun v => if k mod 4 =? 3 then v else inverted (Some v)) <$> at_index data k.
Proof.
  unfold at_index. destruct (k <? 0) eqn:E; [reflexivity|].
  apply Z.ltb_ge in E. unfold invert_map. rewrite list_lookup_imap.
  rewrite Z2Nat.id by lia. reflexivity.
Qed.

Lemma invert_map_length data : length (invert_map data) = length data.
Proof. apply length_imap. Qed.

Lemma at_index_eq {A} (a b : list A) :
  (forall k, at_index a k = at_index b k) -> a = b.
Proof.
  intros H. apply list_eq. intros k. rewrite <- !at_index_lookup. apply H.
Qed.

Lemma invert_step data i s :
  i < Z.of_nat (length data) -> inverting data i s ->
  inverting data (i + 4)
    (store (store (store s i (inverted (at_index s i)))
              (i + 1) (inverted (at_index (store s i (inverted (at_index s i))) (i + 1))))
       (i + 2)
       (inverted (at_index (store (store s i (inverted (at_index s i)))
              (i + 1) (inverted (at_index (store s i (inverted (at_index s i))) (i + 1))))
                    (i + 2)))).
Proof.
  intros Hi (H0 & Hm & HL & HS).
  set (s1 := store s i (inverted (at_index s i))).
  set (s2 := store s1 (i + 1) (inverted (at_index s1 (i + 1)))).
  split; [lia|]. split.
  { rewrite <- Zplus_mod_idemp_r. change (4 mod 4) with 0. now rewrite Z.add_0_r. }
  split. { unfold s2, s1. rewrite !store_length. exact HL. }
  assert (E0 : at_index s i = at_index data i).
  { rewrite HS. now rewrite (proj2 (Z.ltb_ge i i)) by lia. }
  assert (E1 : at_index s1 (i + 1) = at_index data (i + 1)).
  { unfold s1. rewrite at_index_store_any.
    destruct (decide _) as [[? _] | _]; [lia|].
    rewrite HS. now rewrite (proj2 (Z.ltb_ge (i + 1) i)) by lia. }
  assert (E2 : at_index s2 (i + 2) = at_index data (i + 2)).
  { unfold s2, s1. rewrite !at_index_store_any.
    destruct (decide _) as [[? _] | _]; [lia|].
    destruct (decide _) as [[? _] | _]; [lia|].
    rewrite HS. now rewrite (proj2 (Z.ltb_ge (i + 2) i)) by lia. }
  intros k. rewrite E2. unfold s2. rewrite E1. unfold s1. rewrite E0.
  rewrite !at_index_store_any, !store_length, HL, HS.
  rewrite !at_index_invert_map.
  assert (forall d, 0 <= d < 3 -> ((i + d) mod 4 =? 3) = false) as Hc.
  { intros d Hd. apply Z.eqb_neq.
    rewrite <- Zplus_mod_idemp_l, Hm, Z.add_0_l, Z.mod_small by lia. lia. }
  assert (forall d, Z.of_nat (length data) <= i + d ->
            at_index data (i + d) = None) as Hn.
  { intros d Hd. apply at_index_None. lia. }
  destruct (decide (k = i + 2 /\ _)) as [[-> Hr] | H2].
  { rewrite (proj2 (Z.ltb_lt _ _)) by lia.
    destruct (at_index_Some data (i + 2) ltac:(lia)) as (v & ->).
    cbn [fmap option_fmap option_map]. rewrite (Hc 2) by lia. reflexivity. }
  destruct (decide (k = i + 1 /\ _)) as [[-> Hr] | H1].
  { rewrite (proj2 (Z.ltb_lt _ _)) by lia.
    destruct (at_index_Some data (i + 1) ltac:(lia)) as (v & ->).
    cbn [fmap option_fmap option_map]. rewrite (Hc 1) by lia. reflexivity. }
  destruct (decide (k = i /\ _)) as [[-> Hr] | H3].
  { rewrite (proj2 (Z.ltb_lt _ _)) by lia.
    destruct (at_index_Some data i ltac:(lia)) as (v & ->).
    cbn [fmap option_fmap option_map].
    replace i with (i + 0) at 1 by lia. rewrite (Hc 0) by lia. reflexivity. }
  destruct (k <? i) eqn:Ek.
  { apply Z.ltb_lt in Ek. now rewrite (proj2 (Z.ltb_lt k (i + 4))) by lia. }
  apply Z.ltb_ge in Ek.
  destruct (k <? i + 4) eqn:Ek4; [|reflexivity].
  apply Z.ltb_lt in Ek4.
  destruct (decide (k = i + 3)) as [-> | Hk3].
  { destruct (at_index data (i + 3)); [|reflexivity].
    cbn [fmap option_fmap option_map].
    assert ((i + 3) mod 4 = 3) as ->; [|reflexivity].
    rewrite <- Zplus_mod_idemp_l, Hm. reflexivity. }
  assert (Z.of_nat (length data) <= k) as Hout by lia.
  rewrite (at_index_None data k) by lia. reflexivity.
Qed.

Lemma invert_pixels_map fuel data :
  Z.of_nat (length data) < Z.of_nat fuel ->
  invert_pixels fuel data = Some (invert_map data).
Proof.
  intros Hf. unfold invert_pixels.
  destruct (stride_loop_ind (inverting data) (Z.of_nat (length data)) 4
    (fun i data =>
      let data := store data i (inverted (at_index data i)) in
      let data := store data (i + 1) (inverted (at_index data (i + 1))) in
      Some (store data (i + 2) (inverted (at_index data (i + 2))))) ltac:(lia))
    with (fuel := fuel) (i := 0) (s := data)
    as (s' & j & Hrun & (Hj & _ & HL & HS) & Hend).
  - intros i s Hi Hs. eexists. split; [reflexivity|]. now apply invert_step.
  - split; [lia|]. split; [reflexivity|]. split; [reflexivity|].
    intros k. destruct (k <? 0) eqn:E; [|reflexivity].
    apply Z.ltb_lt in E. rewrite !at_index_None by lia. reflexivity.
  - lia.
  - etransitivity; [exact Hrun|].
    f_equal. apply at_index_eq. intros k. rewrite HS.
    destruct (k <? j) eqn:E; [reflexivity|]. apply Z.ltb_ge in E.
    rewrite !at_index_None; rewrite ?invert_map_length; auto; lia.
Qed.

Lemma inverted_byte v : 0 <= v < 256 -> inverted (Some (inverted (Some v))) = v.
Proof. intros Hv. cbn [inverted]. lia. Qed.

Lemma invert_map_twice data :
  Forall (fun v => 0 <= v < 256) data -> invert_map (invert_map data) = data.
Proof.
  intros Hb. apply at_index_eq. intros k. rewrite !at_index_invert_map.
  destruct (at_index data k) as [v|] eqn:Ev; [|reflexivity].
  cbn [fmap option_fmap option_map]. f_equal.
  destruct (k mod 4 =? 3); [reflexivity|].
  apply inverted_byte.
  unfold at_index in Ev. destruct (k <? 0); [discriminate|].
  rewrite Forall_lookup in Hb. eauto.
Qed.

(** X11: on an image of bytes, [invert] applied twice gives the image
    back. *)
Theorem invert_twice fuel data :
  Forall (fun v => 0 <= v < 256) data ->
  Z.of_nat (length data) < Z.of_nat fuel ->
  (invert_pixels fuel data ≫= invert_pixels fuel) = Some data.
Proof.
  intros Hb Hf. rewrite invert_pixels_map by exact Hf.
  cbn [mbind option_bind].
  rewrite invert_pixels_map by (rewrite invert_map_length; exact Hf).
  now rewrite invert_map_twice.
Qed.

Lemma invert_twice_witness :
  (invert_pixels 9 [10; 20; 30; 40; 0; 255; 128; 7] ≫= invert_pixels 9)
  = Some [10; 20; 30; 40; 0; 255; 128; 7].
Proof.
  apply (invert_twice 9 [10; 20; 30; 40; 0; 255; 128; 7]);
    [repeat constructor; lia | cbn; lia].
Defined.

(** X10: [invert] keeps the length of the array and every alpha sample,
    and replaces every colour sample [v] by [255 - v], clamped to a
    byte. *)
Theorem invert_samples fuel data :
  Z.of_nat (length data) < Z.of_nat fuel ->
  exists out, invert_pixels fuel data = Some out /\
    length out = length data /\
    forall k v, at_index data k = Some v ->
      at_index out k =
      Some (if k mod 4 =? 3 then v else Z.max 0 (Z.min 255 (255 - v))).
Proof.
  intros Hf. exists (invert_map data). split; [now apply invert_pixels_map|].
  split; [apply invert_map_length|].
  intros k v Hv. rewrite at_index_invert_map, Hv. reflexivity.
Qed.

Lemma invert_samples_witness :
  exists out, invert_pixels 5 [1; 2; 3; 4] = Some out /\
    length out = length [1; 2; 3; 4] /\
    forall k v, at_index [1; 2; 3; 4] k = Some v ->
      at_index out k =
      Some (if k mod 4 =? 3 then v else Z.max 0 (Z.min 255 (255 - v))).
Proof. apply (invert_samples 5 [1; 2; 3; 4]). cbn. lia. Defined.

(** ** The confusion and its inverse, on every image *)

(** The curve of an image, with what the permutation needs of it. *)
Lemma image_curve width height :
  1 <= width -> 1 <= height ->
  exists curve,
    (forall fuel, width + height <= Z.of_nat fuel ->
       gilbert2d fuel width height = Some curve) /\
    Z.of_nat (length curve) = width * height /\
    NoDup curve /\
    (forall p, p ∈ curve <-> in_grid width height p).
Proof.
  intros Hw Hh.
  destruct (gilbert2d_curve width height Hw Hh) as (curve & (HL & HN & HG) & Hc).
  exists curve. split; [exact Hc|]. split; [|split; [exact HN|]].
  - rewrite HL, top_call_area. lia.
  - intros p. rewrite HG. now apply top_call_rect.
Qed.

Lemma new_image_data_length width height :
  0 <= width * height ->
  Z.of_nat (length (new_image_data width height)) = 4 * (width * height).
Proof. intros H. unfold new_image_data. rewrite length_replicate. lia. Qed.

(** X4: for a width and a height below 2^53 and a strength between 0 and
    1, the offset of the confusion and the offset of [decrypt] are integers
    that are not negative: [Math.round] is never given NaN or an
    infinity. *)
Theorem golden_offset_is_count width height strength :
  0 <= width < 2 ^ 53 -> 0 <= height < 2 ^ 53 ->
  (0 <=? strength)%float = true -> (strength <=? 1)%float = true ->
  (exists offset, golden_offset width height strength = Some offset /\ 0 <= offset) /\
  (exists offset, golden_offset_decrypt width height = Some offset /\ 0 <= offset).
Proof.
  intros Hw Hh H0 H1. split.
  - apply golden_offset_number; auto; lia.
  - apply golden_offset_decrypt_number; lia.
Qed.

Lemma golden_offset_is_count_witness :
  (exists offset, golden_offset 640 480 0.5 = Some offset /\ 0 <= offset) /\
  (exists offset, golden_offset_decrypt 640 480 = Some offset /\ 0 <= offset).
Proof.
  apply (golden_offset_is_count 640 480 0.5);
    [cbn; lia | cbn; lia | reflexivity | reflexivity].
Defined.

(** X5: on an image with width, height >= 1 and a strength between 0 and
    1, [applyGilbertConfusion] returns an array of the same length in which
    the pixel at the curve position [(i + offset) % (width * height)] is
    the pixel that the input has at the curve position [i], for every
    [i]. *)
Theorem applyGilbertConfusion_moves_pixels fuel data width height strength :
  1 <= width -> 1 <= height ->
  Z.of_nat (length data) = 4 * (width * height) ->
  width + height <= Z.of_nat fuel ->
  (0 <=? strength)%float = true -> (strength <=? 1)%float = true ->
  exists curve offset out,
    gilbert2d fuel width height = Some curve /\
    golden_offset width height strength = Some offset /\
    applyGilbertConfusion fuel data width height strength = Some out /\
    length out = length data /\
    forall i p q c, 0 <= i < width * height ->
      at_index curve i = Some p ->
      at_index curve (Z.rem (i + offset) (width * height)) = Some q ->
      0 <= c < 4 ->
      at_index out (pixel_index width q + c) =
      at_index data (pixel_index width p + c).
Proof.
  intros Hw Hh Hd Hf H0 H1.
  destruct (image_curve width height Hw Hh) as (curve & Hc & HL & HN & HG).
  destruct (golden_offset_number width height strength) as (offset & Ho & Hoff);
    [lia | lia | assumption | assumption |].
  destruct (permute_forward width height curve offset Hw Hh HL HN HG Hoff data
              (new_image_data width height) Hd)
    as (out & Hout & HoL & HoS); [apply new_image_data_length; nia|].
  exists curve, offset, out. unfold applyGilbertConfusion.
  rewrite (Hc fuel Hf), Ho. cbn [mbind option_bind].
  split; [reflexivity|]. split; [reflexivity|]. split; [exact Hout|].
  split; [lia|]. intros i p q c Hi. now apply HoS.
Qed.

Lemma applyGilbertConfusion_moves_pixels_witness :
  exists curve offset out,
    gilbert2d 4 2 2 = Some curve /\
    golden_offset 2 2 0.5 = Some offset /\
    applyGilbertConfusion 4 [1;2;3;4; 5;6;7;8; 9;10;11;12; 13;14;15;16] 2 2 0.5
      = Some out /\
    length out = length [1;2;3;4; 5;6;7;8; 9;10;11;12; 13;14;15;16] /\
    forall i p q c, 0 <= i < 2 * 2 ->
      at_index curve i = Some p ->
      at_index curve (Z.rem (i + offset) (2 * 2)) = Some q ->
      0 <= c < 4 ->
      at_index out (pixel_index 2 q + c) =
      at_index [1;2;3;4; 5;6;7;8; 9;10;11;12; 13;14;15;16] (pixel_index 2 p + c).
Proof.
  apply (applyGilbertConfusion_moves_pixels 4
           [1;2;3;4; 5;6;7;8; 9;10;11;12; 13;14;15;16] 2 2 0.5);
    [lia | lia | reflexivity | cbn; lia | reflexivity | reflexivity].
Defined.

(** X6: on an image with width, height >= 1, the loop of [decrypt]
    returns an array of the same length in which the pixel at the curve
    position [i] is the pixel that the input has at the curve position
    [(i + offset) % (width * height)], with the offset computed without a
    strength. *)
Theorem decrypt_moves_pixels fuel data width height :
  1 <= width -> 1 <= height ->
  Z.of_nat (length data) = 4 * (width * height) ->
  width + height <= Z.of_nat fuel ->
  exists curve offset out,
    gilbert2d fuel width height = Some curve /\
    golden_offset_decrypt width height = Some offset /\
    decrypt_pixels fuel data width height = Some out /\
    length out = length data /\
    forall i p q c, 0 <= i < width * height ->
      at_index curve i = Some p ->
      at_index curve (Z.rem (i + offset) (width * height)) = Some q ->
      0 <= c < 4 ->
      at_index out (pixel_index width p + c) =
      at_index data (pixel_index width q + c).
Proof.
  intros Hw Hh Hd Hf.
  destruct (image_curve width height Hw Hh) as (curve & Hc & HL & HN & HG).
  destruct (golden_offset_decrypt_number width height) as (offset & Ho & Hoff);
    [lia | lia |].
  destruct (permute_backward width height curve offset Hw Hh HL HN HG Hoff data
              (new_image_data width height) Hd)
    as (out & Hout & HoL & HoS); [apply new_image_data_length; nia|].
  exists curve, offset, out. unfold decrypt_pixels.
  rewrite (proj2 (Z.eqb_neq width 0)), (proj2 (Z.eqb_neq height 0)) by lia.
  cbn [orb].
  rewrite (Hc fuel Hf), Ho. cbn [mbind option_bind].
  split; [reflexivity|]. split; [reflexivity|]. split; [exact Hout|].
  split; [lia|]. intros i p q c Hi. now apply HoS.
Qed.

Lemma decrypt_moves_pixels_witness :
  exists curve offset out,
    gilbert2d 4 2 2 = Some curve /\
    golden_offset_decrypt 2 2 = Some offset /\
    decrypt_pixels 4 [1;2;3;4; 5;6;7;8; 9;10;11;12; 13;14;15;16] 2 2 = Some out /\
    length out = length [1;2;3;4; 5;6;7;8; 9;10;11;12; 13;14;15;16] /\
    forall i p q c, 0 <= i < 2 * 2 ->
      at_index curve i = Some p ->
      at_index curve (Z.rem (i + offset) (2 * 2)) = Some q ->
      0 <= c < 4 ->
      at_index out (pixel_index 2 p + c) =
      at_index [1;2;3;4; 5;6;7;8; 9;10;11;12; 13;14;15;16] (pixel_index 2 q + c).
Proof.
  apply (decrypt_moves_pixels 4 [1;2;3;4; 5;6;7;8; 9;10;11;12; 13;14;15;16] 2 2);
    [lia | lia | reflexivity | cbn; lia].
Defined.

(** X9: in [script.js], where [encrypt] and [decrypt] compute the same
    offset, [decrypt] undoes [encrypt] on every image with
    width, height >= 1. *)
Theorem script_round_trip fuel data width height :
  1 <= width -> 1 <= height ->
  Z.of_nat (length data) = 4 * (width * height) ->
  width + height <= Z.of_nat fuel ->
  (Script.encrypt_pixels fuel data width height
     ≫= fun E => Script.decrypt_pixels fuel E width height) = Some data.
Proof.
  intros Hw Hh Hd Hf.
  destruct (image_curve width height Hw Hh) as (curve & Hc & HL & HN & HG).
  destruct (golden_offset_decrypt_number width height) as (offset & Ho & Hoff);
    [lia | lia |].
  unfold Script.encrypt_pixels, Script.decrypt_pixels.
  rewrite (Hc fuel Hf), Ho. cbn [mbind option_bind].
  now apply permute_round_trip.
Qed.

Lemma script_round_trip_witness :
  (Script.encrypt_pixels 5 [1;2;3;4; 5;6;7;8; 9;10;11;12] 3 1
     ≫= fun E => Script.decrypt_pixels 5 E 3 1) = Some [1;2;3;4; 5;6;7;8; 9;10;11;12].
Proof.
  apply (script_round_trip 5 [1;2;3;4; 5;6;7;8; 9;10;11;12] 3 1);
    [lia | lia | reflexivity | cbn; lia].
Defined.

(** At strength 0 the offset is 0. *)
Lemma golden_offset_zero width height :
  0 <= width -> 0 <= height -> golden_offset width height 0 = Some 0.
Proof.
  intros Hw Hh. unfold golden_offset, round. rewrite mul_spec.
  assert (small ((sqrt 5 - 1) / 2 * of_Z width * of_Z height)%float 375) as Hs.
  { eapply small_le.
    - apply small_mul; [|apply small_of_Z; exact Hh|].
      + apply small_mul; [apply small_golden | apply small_of_Z; exact Hw | lia].
      + lia.
    - lia. }
  unfold small in Hs. change (Prim2SF 0) with (S754_zero false).
  destruct (Prim2SF _) as [| | |[|] m e]; try contradiction; reflexivity.
Qed.

Section Shift.

Variables (width height : Z) (curve : list cell) (offset : Z).
Hypothesis Hwidth : 1 <= width.
Hypothesis Hheight : 1 <= height.
Hypothesis Hlen : Z.of_nat (length curve) = width * height.
Hypothesis Hnodup : NoDup curve.
Hypothesis Hgrid : forall p, p ∈ curve <-> in_grid width height p.
Hypothesis Hoffset : 0 <= offset.

Local Abbreviation N := (width * height).

(** Every sample of the image is written by one round of the loop. *)
Lemma sample_on_shifted_curve k :
  0 <= k < 4 * N ->
  exists i p q c, 0 <= i < N /\ at_index curve i = Some p /\
    at_index curve (Z.rem (i + offset) N) = Some q /\
    0 <= c < 4 /\ k = pixel_index width q + c.
Proof.
  intros Hk.
  destruct (sample_on_curve width height curve Hwidth Hheight Hlen Hgrid k Hk)
    as (j & q & c & Hj & Hq & _ & Hc & Ek).
  assert (0 < N) as HN by nia.
  set (i := (j - offset) mod N).
  assert (0 <= i < N) as Hi by (apply Z.mod_pos_bound; lia).
  destruct (curve_at width height curve Hlen Hgrid i Hi) as (p & Hp & _).
  exists i, p, q, c. repeat split; auto; try lia.
  rewrite Z.rem_mod_nonneg by lia. unfold i.
  rewrite Zplus_mod_idemp_l. replace (j - offset + offset) with j by lia.
  rewrite Z.mod_small by lia. exact Hq.
Qed.

(** The confusion of an array is determined by its samples. *)
Lemma confused_with data data' out out' (f : Z -> Z -> Z) :
  Z.of_nat (length data) = 4 * N ->
  (forall k, at_index data' k = f (k mod 4) <$> at_index data k) ->
  confused width height curve offset data N out ->
  confused width height curve offset data' N out' ->
  forall k, at_index out' k = f (k mod 4) <$> at_index out k.
Proof.
  intros Hd Hf [HL HS] [HL' HS'] k.
  destruct (decide (0 <= k < 4 * N)) as [Hk | Hk].
  2: { rewrite !at_index_None by lia. reflexivity. }
  destruct (sample_on_shifted_curve k Hk) as (i & p & q & c & Hi & Hp & Hq & Hc & ->).
  rewrite (HS' i p q c), (HS i p q c), Hf by auto.
  unfold pixel_index.
  replace ((4 * (fst q + snd q * width) + c) mod 4) with c.
  2: { rewrite Z.add_comm, Z.mul_comm, Z.mod_add, Z.mod_small by lia. reflexivity. }
  replace ((4 * (fst p + snd p * width) + c) mod 4) with c.
  2: { rewrite Z.add_comm, Z.mul_comm, Z.mod_add, Z.mod_small by lia. reflexivity. }
  reflexivity.
Qed.

End Shift.

(** X7: at strength 0 the offset is 0 and [applyGilbertConfusion] returns
    the image it is given. *)
Theorem strength_0_identity fuel data width height :
  1 <= width -> 1 <= height ->
  Z.of_nat (length data) = 4 * (width * height) ->
  width + height <= Z.of_nat fuel ->
  applyGilbertConfusion fuel data width height 0 = Some data.
Proof.
  intros Hw Hh Hd Hf.
  destruct (image_curve width height Hw Hh) as (curve & Hc & HL & HN & HG).
  unfold applyGilbertConfusion.
  rewrite (Hc fuel Hf), golden_offset_zero by lia. cbn [mbind option_bind].
  destruct (permute_forward width height curve 0 Hw Hh HL HN HG ltac:(lia) data
              (new_image_data width height) Hd)
    as (out & -> & HoL & HoS); [apply new_image_data_length; nia|].
  f_equal. apply at_index_eq. intros k.
  destruct (decide (0 <= k < 4 * (width * height))) as [Hk | Hk].
  2: { rewrite !at_index_None by lia. reflexivity. }
  destruct (sample_on_curve width height curve Hw Hh HL HG k Hk)
    as (i & p & c & Hi & Hp & _ & Hc' & ->).
  apply (HoS i p p c); auto.
  rewrite Z.add_0_r, Z.rem_small by lia. exact Hp.
Qed.

Lemma strength_0_identity_witness :
  applyGilbertConfusion 5 [1;2;3;4; 5;6;7;8; 9;10;11;12] 3 1 0
  = Some [1;2;3;4; 5;6;7;8; 9;10;11;12].
Proof.
  apply (strength_0_identity 5 [1;2;3;4; 5;6;7;8; 9;10;11;12] 3 1);
    [lia | lia | reflexivity | cbn; lia].
Defined.

(** X12: inverting an image and then confusing it gives the array that
    confusing it and then inverting gives, and both succeed. *)
Theorem invert_commutes fuel data width height strength :
  1 <= width -> 1 <= height ->
  Z.of_nat (length data) = 4 * (width * height) ->
  4 * (width * height) < Z.of_nat fuel ->
  (0 <=? strength)%float = true -> (strength <=? 1)%float = true ->
  (invert_pixels fuel data
     ≫= fun I => applyGilbertConfusion fuel I width height strength) =
  (applyGilbertConfusion fuel data width height strength ≫= invert_pixels fuel) /\
  exists out,
    applyGilbertConfusion fuel data width height strength ≫= invert_pixels fuel
    = Some out.
Proof.
  intros Hw Hh Hd Hf H0 H1.
  destruct (image_curve width height Hw Hh) as (curve & Hc & HL & HN & HG).
  destruct (golden_offset_number width height strength) as (offset & Ho & Hoff);
    [lia | lia | assumption | assumption |].
  assert (width + height <= Z.of_nat fuel) as Hf' by nia.
  rewrite invert_pixels_map by lia. cbn [mbind option_bind].
  unfold applyGilbertConfusion.
  rewrite (Hc fuel Hf'), Ho. cbn [mbind option_bind].
  destruct (permute_forward width height curve offset Hw Hh HL HN HG Hoff data
              (new_image_data width height) Hd)
    as (out & -> & Hout); [apply new_image_data_length; nia|].
  destruct (permute_forward width height curve offset Hw Hh HL HN HG Hoff
              (invert_map data) (new_image_data width height))
    as (out' & -> & Hout');
    [rewrite invert_map_length; exact Hd | apply new_image_data_length; nia|].
  cbn [mbind option_bind].
  rewrite invert_pixels_map by (destruct Hout; lia).
  split; [|eauto]. f_equal. apply at_index_eq. intros k.
  rewrite at_index_invert_map.
  apply (confused_with width height curve offset Hw Hh HL HG Hoff data (invert_map data)
           out out' (fun c v => if c =? 3 then v else inverted (Some v))); auto.
  intros k'. apply at_index_invert_map.
Qed.

Lemma invert_commutes_witness :
  (invert_pixels 17 [1;2;3;4; 5;6;7;8; 9;10;11;12; 13;14;15;16]
     ≫= fun I => applyGilbertConfusion 17 I 2 2 0.5) =
  (applyGilbertConfusion 17 [1;2;3;4; 5;6;7;8; 9;10;11;12; 13;14;15;16] 2 2 0.5
     ≫= invert_pixels 17) /\
  exists out,
    applyGilbertConfusion 17 [1;2;3;4; 5;6;7;8; 9;10;11;12; 13;14;15;16] 2 2 0.5
      ≫= invert_pixels 17 = Some out.
Proof.
  apply (invert_commutes 17 [1;2;3;4; 5;6;7;8; 9;10;11;12; 13;14;15;16] 2 2 0.5);
    [lia | lia | reflexivity | cbn; lia | reflexivity | reflexivity].
Defined.

(** ** [decrypt] after the confusion *)

Section Two_offsets.

Variables (width height : Z) (curve : list cell) (o o' : Z).
Hypothesis Hwidth : 1 <= width.
Hypothesis Hheight : 1 <= height.
Hypothesis Hlen : Z.of_nat (length curve) = width * height.
Hypothesis Hnodup : NoDup curve.
Hypothesis Hgrid : forall p, p ∈ curve <-> in_grid width height p.
Hypothesis Ho : 0 <= o.
Hypothesis Ho' : 0 <= o'.

Local Abbreviation N := (width * height).

(** The confusion with the offset [o] followed by the inverse with the
    offset [o'] shifts the pixels along the curve by [o' - o]. *)
Lemma permute_shift data :
  Z.of_nat (length data) = 4 * N ->
  exists D,
    (permute true curve o width height data (new_image_data width height)
       ≫= fun E => permute false curve o' width height E
                     (new_image_data width height)) = Some D /\
    length D = length data /\
    forall i p r c, 0 <= i < N ->
      at_index curve i = Some p ->
      at_index curve ((i + o' - o) mod N) = Some r ->
      0 <= c < 4 ->
      at_index D (pixel_index width p + c) =
      at_index data (pixel_index width r + c).
Proof.
  intros Hd. assert (0 < N) as HN by nia.
  assert (Z.of_nat (length (new_image_data width height)) = 4 * N) as Hz
    by (apply new_image_data_length; lia).
  destruct (permute_forward width height curve o Hwidth Hheight Hlen Hnodup
              Hgrid Ho data _ Hd Hz) as (E & -> & HEL & HE).
  cbn [mbind option_bind].
  destruct (permute_backward width height curve o' Hwidth Hheight Hlen Hnodup
              Hgrid Ho' E _ HEL Hz) as (D & -> & HDL & HD).
  exists D. split; [reflexivity|]. split; [lia|].
  intros i p r c Hi Hp Hr Hc.
  destruct (curve_at width height curve Hlen Hgrid (Z.rem (i + o') N))
    as (q & Hq & _).
  { apply (shifted_range width height curve o'); auto; lia. }
  rewrite (HD i p q c) by auto.
  set (j := (i + o' - o) mod N) in *.
  assert (0 <= j < N) as Hj by (apply Z.mod_pos_bound; lia).
  apply (HE j r q c); auto.
  rewrite Z.rem_mod_nonneg by lia. unfold j.
  rewrite Zplus_mod_idemp_l. replace (i + o' - o + o) with (i + o') by lia.
  rewrite <- Z.rem_mod_nonneg by lia. exact Hq.
Qed.

End Two_offsets.

(** X18: on an image with width, height >= 1 and a strength between 0
    and 1, [decrypt] applied to the result of [applyGilbertConfusion]
    returns the image shifted along the curve by the difference of the two
    offsets: the pixel at the curve position [i] is the pixel that the
    image has at the curve position [(i + o' - o) mod (width * height)],
    [o] being the offset of the confusion and [o'] that of [decrypt]. *)
Theorem decrypt_shifts_along_curve fuel data width height strength :
  1 <= width -> 1 <= height ->
  Z.of_nat (length data) = 4 * (width * height) ->
  width + height <= Z.of_nat fuel ->
  (0 <=? strength)%float = true -> (strength <=? 1)%float = true ->
  exists curve o o' D,
    gilbert2d fuel width height = Some curve /\
    golden_offset width height strength = Some o /\
    golden_offset_decrypt width height = Some o' /\
    (applyGilbertConfusion fuel data width height strength
       ≫= fun E => decrypt_pixels fuel E width height) = Some D /\
    length D = length data /\
    forall i p r c, 0 <= i < width * height ->
      at_index curve i = Some p ->
      at_index curve ((i + o' - o) mod (width * height)) = Some r ->
      0 <= c < 4 ->
      at_index D (pixel_index width p + c) =
      at_index data (pixel_index width r + c).
Proof.
  intros Hw Hh Hd Hf H0 H1.
  destruct (image_curve width height Hw Hh) as (curve & Hc & HL & HN & HG).
  destruct (golden_offset_number width height strength) as (o & Ho & Hoff);
    [lia | lia | assumption | assumption |].
  destruct (golden_offset_decrypt_number width height) as (o' & Ho' & Hoff');
    [lia | lia |].
  destruct (permute_shift width height curve o o' Hw Hh HL HN HG Hoff Hoff'
              data Hd) as (D & HD & HDL & HDS).
  exists curve, o, o', D. unfold applyGilbertConfusion, decrypt_pixels.
  rewrite (proj2 (Z.eqb_neq width 0)), (proj2 (Z.eqb_neq height 0)) by lia.
  cbn [orb].
  rewrite (Hc fuel Hf), Ho, Ho'. cbn [mbind option_bind].
  split; [reflexivity|]. split; [reflexivity|]. split; [reflexivity|].
  split; [|split; [exact HDL | exact HDS]].
  destruct (permute true curve o width height data (new_image_data width height));
    exact HD.
Qed.

Lemma decrypt_shifts_along_curve_witness :
  exists curve o o' D,
    gilbert2d 4 2 2 = Some curve /\
    golden_offset 2 2 0.5 = Some o /\
    golden_offset_decrypt 2 2 = Some o' /\
    (applyGilbertConfusion 4 [1;2;3;4; 5;6;7;8; 9;10;11;12; 13;14;15;16] 2 2 0.5
       ≫= fun E => decrypt_pixels 4 E 2 2) = Some D /\
    length D = length [1;2;3;4; 5;6;7;8; 9;10;11;12; 13;14;15;16] /\
    forall i p r c, 0 <= i < 2 * 2 ->
      at_index curve i = Some p ->
      at_index curve ((i + o' - o) mod (2 * 2)) = Some r ->
      0 <= c < 4 ->
      at_index D (pixel_index 2 p + c) =
      at_index [1;2;3;4; 5;6;7;8; 9;10;11;12; 13;14;15;16] (pixel_index 2 r + c).
Proof.
  apply (decrypt_shifts_along_curve 4
           [1;2;3;4; 5;6;7;8; 9;10;11;12; 13;14;15;16] 2 2 0.5);
    [lia | lia | reflexivity | cbn; lia | reflexivity | reflexivity].
Defined.

(** X8: on the images of bytes with a given width and height, both >= 1,
    [decrypt] undoes [applyGilbertConfusion] at a strength between 0 and 1
    exactly when the offset of the confusion and the offset of [decrypt]
    are equal modulo [width * height]. *)
Theorem round_trip_iff_offsets fuel width height strength :
  1 <= width -> 1 <= height ->
  width + height <= Z.of_nat fuel ->
  (0 <=? strength)%float = true -> (strength <=? 1)%float = true ->
  exists o o',
    golden_offset width height strength = Some o /\
    golden_offset_decrypt width height = Some o' /\
    ((forall data,
        Forall (fun v => 0 <= v < 256) data ->
        Z.of_nat (length data) = 4 * (width * height) ->
        (applyGilbertConfusion fuel data width height strength
           ≫= fun E => decrypt_pixels fuel E width height) = Some data)
     <-> (o' - o) mod (width * height) = 0).
Proof.
  intros Hw Hh Hf H0 H1.
  destruct (image_curve width height Hw Hh) as (curve & Hc & HL & HN & HG).
  destruct (golden_offset_number width height strength) as (o & Ho & Hoff);
    [lia | lia | assumption | assumption |].
  destruct (golden_offset_decrypt_number width height) as (o' & Ho' & Hoff');
    [lia | lia |].
  exists o, o'. split; [exact Ho|]. split; [exact Ho'|].
  assert (0 < width * height) as HNp by nia.
  assert (forall data, Z.of_nat (length data) = 4 * (width * height) ->
          exists D,
            (applyGilbertConfusion fuel data width height strength
               ≫= fun E => decrypt_pixels fuel E width height) = Some D /\
            length D = length data /\
            forall i p r c, 0 <= i < width * height ->
              at_index curve i = Some p ->
              at_index curve ((i + o' - o) mod (width * height)) = Some r ->
              0 <= c < 4 ->
              at_index D (pixel_index width p + c) =
              at_index data (pixel_index width r + c)) as Hshift.
  { intros data Hd.
    destruct (permute_shift width height curve o o' Hw Hh HL HN HG Hoff Hoff'
                data Hd) as (D & HD & HDL & HDS).
    exists D. unfold applyGilbertConfusion, decrypt_pixels.
    rewrite (proj2 (Z.eqb_neq width 0)), (proj2 (Z.eqb_neq height 0)) by lia.
    cbn [orb].
    rewrite (Hc fuel Hf), Ho, Ho'. cbn [mbind option_bind].
    split; [|split; [exact HDL | exact HDS]].
    destruct (permute true curve o width height data
                (new_image_data width height)); exact HD. }
  split.
  - (* the marked image *)
    intros Hall.
    destruct (curve_at width height curve HL HG 0 ltac:(lia)) as (p0 & Hp0 & Hg0).
    pose proof (pixel_range width height curve Hw p0 Hg0) as Rp0.
    set (blank := replicate (Z.to_nat (4 * (width * height))) 0).
    set (data := store blank (pixel_index width p0) 1).
    assert (Z.of_nat (length blank) = 4 * (width * height)) as Hbl
      by (unfold blank; rewrite length_replicate; lia).
    assert (Z.of_nat (length data) = 4 * (width * height)) as Hd
      by (unfold data; rewrite store_length; exact Hbl).
    assert (Forall (fun v => 0 <= v < 256) data) as Hb.
    { apply Forall_lookup. intros k v Hk.
      rewrite <- at_index_lookup in Hk. unfold data in Hk.
      rewrite at_index_store in Hk by lia.
      destruct (decide _); [injection Hk as <-; lia|].
      rewrite at_index_lookup in Hk. unfold blank in Hk.
      apply lookup_replicate in Hk as [-> _]. lia. }
    destruct (Hshift data Hd) as (D & HD & _ & HDS).
    rewrite (Hall data Hb Hd) in HD. injection HD as <-.
    set (j := (0 + o' - o) mod (width * height)).
    assert (0 <= j < width * height) as Hj by (apply Z.mod_pos_bound; lia).
    destruct (curve_at width height curve HL HG j Hj) as (r & Hr & Hgr).
    specialize (HDS 0 p0 r 0 ltac:(lia) Hp0 Hr ltac:(lia)).
    rewrite !Z.add_0_r in HDS. unfold data in HDS.
    pose proof (pixel_range width height curve Hw r Hgr) as Rr.
    rewrite !at_index_store in HDS by lia.
    destruct (decide (pixel_index width p0 = pixel_index width p0)); [|lia].
    destruct (decide (pixel_index width r = pixel_index width p0)) as [E | E].
    + destruct (pixel_inj width height curve r p0 0 0) as [-> _]; auto; try lia.
      assert (j = 0) as Hj0 by (apply (curve_inj curve HN j 0 p0); assumption).
      unfold j in Hj0. now rewrite Z.add_0_l in Hj0.
    + exfalso. unfold blank in HDS.
      rewrite <- (Z2Nat.id (pixel_index width r)) in HDS by lia.
      rewrite at_index_lookup, lookup_replicate_2 in HDS by lia.
      discriminate.
  - intros Hcong data _ Hd.
    destruct (Hshift data Hd) as (D & -> & HDL & HDS).
    f_equal. apply at_index_eq. intros k.
    destruct (decide (0 <= k < 4 * (width * height))) as [Hk | Hk].
    2: { rewrite !at_index_None by lia. reflexivity. }
    destruct (sample_on_curve width height curve Hw Hh HL HG k Hk)
      as (i & p & c & Hi & Hp & _ & Hc' & ->).
    apply (HDS i p p c); auto.
    replace (i + o' - o) with (i + (o' - o)) by lia.
    rewrite <- Zplus_mod_idemp_r, Hcong, Z.add_0_r, Z.mod_small by lia.
    exact Hp.
Qed.

Lemma round_trip_iff_offsets_witness :
  exists o o',
    golden_offset 2 2 0.5 = Some o /\
    golden_offset_decrypt 2 2 = Some o' /\
    ((forall data,
        Forall (fun v => 0 <= v < 256) data ->
        Z.of_nat (length data) = 4 * (2 * 2) ->
        (applyGilbertConfusion 4 data 2 2 0.5
           ≫= fun E => decrypt_pixels 4 E 2 2) = Some data)
     <-> (o' - o) mod (2 * 2) = 0).
Proof.
  apply (round_trip_iff_offsets 4 2 2 0.5);
    [lia | lia | cbn; lia | reflexivity | reflexivity].
Defined.

(** ** One tile of the block-smooth transform *)

(** X13: [processBlockSmooth] on a tile that lies in an image of bytes
    keeps the length of the array, every alpha sample, and every sample of
    a pixel outside the tile. *)
Theorem processBlockSmooth_local data startX startY blockWidth blockHeight
    width strength :
  0 < width -> 0 <= startX -> 0 <= startY ->
  0 <= blockWidth -> 0 <= blockHeight ->
  startX + blockWidth <= width ->
  4 * width * (startY + blockHeight) <= Z.of_nat (length data) ->
  Forall (fun v => 0 <= v < 256) data ->
  let out :=
    processBlockSmooth data startX startY blockWidth blockHeight width strength in
  length out = length data /\
  forall X Y c, 0 <= X < width -> 0 <= c < 4 ->
    ~ (startX <= X < startX + blockWidth /\
       startY <= Y < startY + blockHeight) \/ c = 3 ->
    at_index out ((Y * width + X) * 4 + c) =
    at_index data ((Y * width + X) * 4 + c).
Proof.
  intros Hw Hsx Hsy Hbw Hbh Hfx Hfy Hbytes out.
  assert (Hb : forall k v, at_index data k = Some v -> 0 <= v < 256).
  { intros k v Hv. unfold at_index in Hv. destruct (k <? 0); [discriminate|].
    rewrite Forall_lookup in Hbytes. eauto. }
  destruct (processBlockSmooth_spec data startX startY blockWidth blockHeight
              width strength Hw Hsx Hsy Hbw Hbh Hfx Hfy Hb) as [HL HS].
  split; [exact HL|]. intros X Y c HX Hc Hout.
  apply (HS X Y c HX Hc). unfold tile_done. lia.
Qed.

Lemma processBlockSmooth_local_witness :
  let out :=
    processBlockSmooth [1;2;3;4; 5;6;7;8; 9;10;11;12; 13;14;15;16] 0 0 1 1 2 1 in
  length out = length [1;2;3;4; 5;6;7;8; 9;10;11;12; 13;14;15;16] /\
  forall X Y c, 0 <= X < 2 -> 0 <= c < 4 ->
    ~ (0 <= X < 0 + 1 /\ 0 <= Y < 0 + 1) \/ c = 3 ->
    at_index out ((Y * 2 + X) * 4 + c) =
    at_index [1;2;3;4; 5;6;7;8; 9;10;11;12; 13;14;15;16] ((Y * 2 + X) * 4 + c).
Proof.
  apply (processBlockSmooth_local [1;2;3;4; 5;6;7;8; 9;10;11;12; 13;14;15;16]
           0 0 1 1 2 1); try lia; [cbn; lia | repeat constructor; lia].
Defined.

(** ** The PNG checks and repairs *)

Import Png.

Lemma signature_loop_spec bytes signature n : forall i,
  signature_loop bytes signature i n = true <->
  forall j, i <= j < i + Z.of_nat n -> at_index bytes j = at_index signature j.
Proof.
  induction n as [|n IH]; intros i; cbn [signature_loop].
  - split; [intros _ j Hj; lia | reflexivity].
  - destruct (decide _) as [E | E].
    + rewrite IH. split; intros H j Hj.
      * destruct (Z.eq_dec j i) as [-> | Hne]; [exact E | apply H; lia].
      * apply H. lia.
    + split; [discriminate|]. intros H. exfalso. apply E, H. lia.
Qed.

Lemma has_signature_prefix bytes signature :
  has_signature bytes signature = true <->
  take (length signature) bytes = signature.
Proof.
  unfold has_signature. rewrite signature_loop_spec. split.
  - intros H. apply list_eq. intros k.
    destruct (decide (k < length signature)%nat) as [Hk | Hk].
    + rewrite lookup_take_lt by exact Hk.
      rewrite <- !at_index_lookup. apply H. lia.
    + rewrite lookup_take_ge by lia. symmetry. apply lookup_ge_None. lia.
  - intros H j Hj.
    rewrite <- (at_index_take bytes (length signature)) by lia.
    now rewrite H.
Qed.

Lemma slice_0 {A} (a : list A) n :
  0 <= n -> slice a 0 n = take (Z.to_nat n) a.
Proof.
  intros Hn. unfold slice.
  rewrite (proj2 (Z.ltb_ge 0 0)), (proj2 (Z.ltb_ge n 0)) by lia.
  rewrite (Z.min_l 0) by lia. rewrite Z.sub_0_r. change (Z.to_nat 0) with 0%nat.
  rewrite drop_0. rewrite Z2Nat.inj_min, Nat2Z.id.
  apply list_eq. intros k.
  destruct (decide (k < Z.to_nat n)%nat).
  - destruct (decide (k < length a)%nat).
    + rewrite !lookup_take_lt by lia. reflexivity.
    + rewrite lookup_take_ge by lia. rewrite lookup_take_lt by lia.
      symmetry. apply lookup_ge_None. lia.
  - rewrite !lookup_take_ge by lia. reflexivity.
Qed.

Lemma slice_last {A} (a : list A) n :
  n < 0 -> - n <= Z.of_nat (length a) ->
  slice a n (Z.of_nat (length a)) = drop (length a - Z.to_nat (- n)) a.
Proof.
  intros Hn Hl. unfold slice.
  rewrite (proj2 (Z.ltb_ge (Z.of_nat (length a)) 0)) by lia.
  rewrite Z.min_id, (proj2 (Z.ltb_lt n 0)) by lia.
  rewrite Z.max_l by lia.
  replace (Z.to_nat (Z.of_nat (length a) + n))
    with (length a - Z.to_nat (- n))%nat by lia.
  apply take_ge. rewrite length_drop. lia.
Qed.

(** X14: [checkPngHeader] finds the header valid exactly when the first
    8 bytes of the file are the PNG signature; a file shorter than 8 bytes
    is never valid. *)
Theorem checkPngHeader_signature file :
  fst (checkPngHeader file) = true <-> take 8 file = pngHeader.
Proof.
  unfold checkPngHeader. cbn [fst]. rewrite has_signature_prefix.
  change (length pngSignature) with 8%nat. change pngSignature with pngHeader.
  rewrite slice_0 by lia. rewrite take_take.
  change (8 `min` Z.to_nat 100)%nat with 8%nat. reflexivity.
Qed.

(** X15: [checkPngHeader] reads the first 100 bytes only, so on a file
    of 8 bytes or more its IEND verdict is about the last 8 of these: the
    bytes 92 to 99 of a file of 100 bytes or more, whatever the file ends
    with. *)
Theorem checkPngHeader_end file :
  (8 <= length file)%nat ->
  snd (checkPngHeader file) = true <->
  take 8 (drop (Nat.min 100 (length file) - 8) file) = iendSignature.
Proof.
  intros Hl. unfold checkPngHeader. cbn [snd]. rewrite has_signature_prefix.
  change (length iendSignature) with 8%nat.
  rewrite slice_0 by lia. change (Z.to_nat 100) with 100%nat.
  assert (length (take 100 file) = Nat.min 100 (length file)) as HL
    by apply length_take.
  rewrite (slice_last (take 100 file) (-8)) by lia.
  rewrite HL. change (Z.to_nat (- -8)) with 8%nat.
  assert (take 8 (drop (100 `min` length file - 8) (take 100 file))
          = take 8 (drop (100 `min` length file - 8) file)) as ->;
    [|reflexivity].
  apply list_eq. intros k.
  destruct (decide (k < 8)%nat) as [Hk | Hk].
  - rewrite !lookup_take_lt, !lookup_drop by exact Hk.
    rewrite lookup_take_lt by lia. reflexivity.
  - rewrite !lookup_take_ge by lia. reflexivity.
Qed.

Lemma checkPngHeader_end_witness :
  snd (checkPngHeader (replicate 92 0 ++ iendSignature ++ [1; 2; 3])) = true <->
  take 8 (drop (Nat.min 100 (length (replicate 92 0 ++ iendSignature ++ [1; 2; 3])) - 8)
            (replicate 92 0 ++ iendSignature ++ [1; 2; 3])) = iendSignature.
Proof.
  apply (checkPngHeader_end (replicate 92 0 ++ iendSignature ++ [1; 2; 3])).
  cbn. lia.
Defined.

Lemma store_nil {A} i (v : A) : store [] i v = [].
Proof. unfold store. now destruct (i <? 0). Qed.

Lemma for_loop_nil {A} n (f : Z -> Z) (g : Z -> A) :
  for_loop n (fun i a => store a (f i) (g i)) [] = [].
Proof.
  unfold for_loop. induction (seq 0 (Z.to_nat n)) as [|k l IH]; [reflexivity|].
  cbn [fold_left]. rewrite store_nil. exact IH.
Qed.

Lemma for_loop_succ {St} n (body : Z -> St -> St) s :
  0 <= n -> for_loop (n + 1) body s = body n (for_loop n body s).
Proof.
  intros Hn. unfold for_loop.
  replace (Z.to_nat (n + 1)) with (S (Z.to_nat n)) by lia.
  rewrite seq_S, fold_left_app. cbn [fold_left plus].
  now rewrite Z2Nat.id by lia.
Qed.

(** Copying [source] into [target] from the position [off] on. *)
Lemma copy_loop source : forall target off,
  Forall (fun v => 0 <= v < 256) source ->
  (off + length source <= length target)%nat ->
  for_loop (Z.of_nat (length source)) (fun i a =>
    store a (Z.of_nat off + i) (to_uint8 (at_index source i))) target =
  take off target ++ source ++ drop (off + length source) target.
Proof.
  induction source as [|v source IH] using rev_ind; intros target off Hb Hl.
  - cbn. rewrite Nat.add_0_r. now rewrite take_drop.
  - rewrite length_app in *. cbn [length] in *.
    apply Forall_app in Hb as [Hb Hv]. apply Forall_inv in Hv.
    rewrite Nat2Z.inj_add. change (Z.of_nat 1) with 1.
    rewrite for_loop_succ by lia.
    assert (for_loop (Z.of_nat (length source))
              (fun i a => store a (Z.of_nat off + i)
                            (to_uint8 (at_index (source ++ [v]) i))) target
            = for_loop (Z.of_nat (length source))
              (fun i a => store a (Z.of_nat off + i)
                            (to_uint8 (at_index source i))) target) as ->.
    { apply (for_loop_ind (fun i s =>
        s = for_loop i (fun i a => store a (Z.of_nat off + i)
                                     (to_uint8 (at_index source i))) target));
        [lia | reflexivity |].
      intros i s Hi ->. rewrite for_loop_succ by lia.
      now rewrite at_index_app_l by lia. }
    rewrite IH by (auto; lia).
    rewrite at_index_app_r, Z.sub_diag by lia.
    change (at_index [v] 0) with (Some v). cbn [to_uint8].
    rewrite Z.mod_small by lia.
    apply at_index_eq. intros k.
    rewrite at_index_store_any.
    rewrite !length_app, length_take, length_drop.
    destruct (decide _) as [[-> _] | Hn].
    + rewrite at_index_app_r by (rewrite length_take; lia).
      rewrite length_take, Nat.min_l by lia.
      replace (Z.of_nat off + Z.of_nat (length source) - Z.of_nat off)
        with (Z.of_nat (length source)) by lia.
      rewrite <- app_assoc. rewrite at_index_app_r by lia.
      rewrite Z.sub_diag. reflexivity.
    + assert (k <> Z.of_nat off + Z.of_nat (length source)) as Hk by lia.
      destruct (decide (k < Z.of_nat off)) as [H1 | H1].
      { rewrite !at_index_app_l by (rewrite length_take; lia). reflexivity. }
      rewrite !(at_index_app_r (take off target)) by (rewrite length_take; lia).
      rewrite length_take, Nat.min_l by lia.
      destruct (decide (k - Z.of_nat off < Z.of_nat (length source))) as [H2 | H2].
      { rewrite <- app_assoc. rewrite !at_index_app_l by lia. reflexivity. }
      rewrite <- app_assoc.
      rewrite !at_index_app_r by lia.
      rewrite (at_index_app_r [v]) by (cbn [length]; lia).
      rewrite !at_index_drop by (cbn [length]; lia).
      f_equal. cbn [length]. lia.
Qed.

Lemma tryAlternativePngFix_app uint8Array :
  Forall (fun v => 0 <= v < 256) uint8Array ->
  tryAlternativePngFix uint8Array = pngHeader ++ uint8Array.
Proof.
  intros Hb. unfold tryAlternativePngFix.
  assert (Forall (fun v => 0 <= v < 256) pngHeader) as Hh
    by (repeat constructor; lia).
  assert (0 + length pngHeader
          <= length (replicate (length pngHeader + length uint8Array) 0%Z))%nat
    as Hl by (rewrite length_replicate; lia).
  etransitivity.
  { apply (f_equal (for_loop (Z.of_nat (length uint8Array)) _)).
    exact (copy_loop pngHeader
             (replicate (length pngHeader + length uint8Array) 0) 0 Hh Hl). }
  rewrite take_0, app_nil_l, drop_replicate.
  replace (length pngHeader + length uint8Array - (0 + length pngHeader))%nat
    with (length uint8Array) by lia.
  rewrite (copy_loop uint8Array (pngHeader ++ replicate (length uint8Array) 0)
             (length pngHeader) Hb)
    by (rewrite length_app, length_replicate; lia).
  rewrite take_app_length.
  rewrite drop_ge by (rewrite length_app, length_replicate; lia).
  now rewrite app_nil_r.
Qed.

(** X16: on the bytes of a file, [tryAlternativePngFix] builds the PNG
    signature followed by the whole file, and [checkPngHeader] finds the
    header of the result valid. *)
Theorem tryAlternativePngFix_prepends uint8Array :
  Forall (fun v => 0 <= v < 256) uint8Array ->
  tryAlternativePngFix uint8Array = pngHeader ++ uint8Array /\
  fst (checkPngHeader (tryAlternativePngFix uint8Array)) = true.
Proof.
  intros Hb. rewrite tryAlternativePngFix_app by exact Hb.
  split; [reflexivity|].
  unfold checkPngHeader. cbn [fst]. apply has_signature_prefix.
  change (length pngSignature) with 8%nat.
  rewrite slice_0 by lia. rewrite take_take.
  change (8 `min` Z.to_nat 100)%nat with 8%nat.
  cbn. now rewrite take_0.
Qed.

Lemma tryAlternativePngFix_prepends_witness :
  tryAlternativePngFix [1; 2; 3] = pngHeader ++ [1; 2; 3] /\
  fst (checkPngHeader (tryAlternativePngFix [1; 2; 3])) = true.
Proof.
  apply (tryAlternativePngFix_prepends [1; 2; 3]). repeat constructor; lia.
Defined.

(** X17: the array that [fixPngHeader] hands to the image loader.  When
    the file starts with the bytes 89 50 it is the array of
    [tryAlternativePngFix], the signature followed by the whole file;
    otherwise it is empty, whatever the file holds: [fixedArray] is
    allocated with the length [arrayBuffer.length + 8], which is NaN, and
    every write to it is out of range. *)
Theorem fixPngHeader_array uint8Array :
  Forall (fun v => 0 <= v < 256) uint8Array ->
  fixPngHeader uint8Array =
  Some (if bool_decide (take 2 uint8Array = [0x89; 0x50])
        then pngHeader ++ uint8Array else []).
Proof.
  intros Hb. unfold fixPngHeader.
  change (new_Uint8Array (num None + 8)) with (Some (@nil Z)).
  cbn [mbind option_bind].
  assert (bool_decide (at_index (slice uint8Array 0 8) 0 = Some 137)
          && bool_decide (at_index (slice uint8Array 0 8) 1 = Some 80)
          = bool_decide (take 2 uint8Array = [137; 80])) as ->.
  { rewrite <- bool_decide_and. apply bool_decide_ext.
    rewrite slice_0 by lia. change (Z.to_nat 8) with 8%nat.
    unfold at_index. cbn [Z.ltb Z.compare].
    change (Z.to_nat 0) with 0%nat. change (Z.to_nat 1) with 1%nat.
    destruct uint8Array as [|a [|b l]]; cbn; rewrite ?take_0; intuition congruence. }
  case_bool_decide.
  - f_equal. now apply tryAlternativePngFix_app.
  - f_equal. rewrite for_loop_nil. apply for_loop_nil.
Qed.

Lemma fixPngHeader_array_witness :
  fixPngHeader [0; 0; 0x49; 0x48; 0x44; 0x52; 0; 0; 0; 1] =
  Some (if bool_decide (take 2 [0; 0; 0x49; 0x48; 0x44; 0x52; 0; 0; 0; 1]
                        = [0x89; 0x50])
        then pngHeader ++ [0; 0; 0x49; 0x48; 0x44; 0x52; 0; 0; 0; 1] else []).
Proof.
  apply (fixPngHeader_array [0; 0; 0x49; 0x48; 0x44; 0x52; 0; 0; 0; 1]).
  repeat constructor; lia.
Defined.
